(** * EarthquakeCLI: the reconcile / table-upsert core of [main.go]

    A shallow embedding of the identifier-aware program of [src/main.go]
    (lines 1-263): [getUsgsGeoStats], [getQuakeList], [addRow] and
    [populateTableData], together with the small part of the Go runtime and
    of the [tview] table they rest on; then the goroutine of [main] that
    drives them.  The earlier program of [src/main.go] (lines 264-505),
    which keys quakes by their time, and the first one of
    [src/unnamed/part_000] are embedded in the modules [Legacy] and
    [First].

    Conventions.
    - A Go panic is the [Panic] outcome of the [result] monad; slice indexing
      is [index], which panics out of range.
    - [int] and [int64] values are [Z]; [float64] values are [Go.float64]
      (a rational, an infinity or NaN) and are only ever compared.
    - [time.Parse], [Time.Format], [strconv.ParseFloat], [fmt.Sprintf] and
      [json.Unmarshal] belong to the Go library; the program is parametrised
      by them (Section [Program]).  Executable models of [time.Parse] and
      [strconv.ParseFloat] on the strings the program itself produces are
      given in [Go] and are used to evaluate the program on concrete rows.
    - [addRow] scans the table in the goroutine and hands the write to
      [app.QueueUpdateDraw]; when the event loop runs the queued function
      is the library's affair, and [populateTableData] does not wait.  The
      scan is [scanTable], the queued function is [runUpdate], and the
      display is the table together with the updates queued and not yet
      run ([Running], [addRowsQueued]); the event loop runs queued updates
      between two scans.  One call on its own is [addRow]: the update on
      the table that was scanned.  [InStep], [addRows] and what is built
      on them are the runs in which every queued update has run before
      the next scan. *)

From Stdlib Require Import ZArith QArith Lia Lqa Ascii String.
From stdpp Require Import base option list sorting strings gmap.

Local Open Scope Z_scope.

(* ===================================================================== *)
(** * Go runtime values *)
(* ===================================================================== *)

Module Go.

(** The outcome of running Go code: a value, or a panic that ends the
    process. *)
Inductive result (A : Type) : Type :=
| Ok (a : A)
| Panic.
Arguments Ok {A} a.
Arguments Panic {A}.

#[global] Instance result_ret : MRet result := fun A a => Ok a.
#[global] Instance result_bind : MBind result := fun A B f m =>
  match m with
  | Ok a => f a
  | Panic => Panic
  end.

(** [s[i]] on a slice: a run-time panic when [i] is out of range. *)
Definition index {A : Type} (s : list A) (i : nat) : result A :=
  match s !! i with
  | Some a => Ok a
  | None => Panic
  end.

(** ** float64, as far as comparisons see it *)

Inductive float64 : Type :=
| NaN
| Inf (negative : bool)
| Fin (q : Q).

(** [x <= y] on float64: false as soon as one side is NaN. *)
Definition le (x y : float64) : bool :=
  match x, y with
  | NaN, _ => false
  | _, NaN => false
  | Inf true, _ => true
  | _, Inf false => true
  | Inf false, _ => false
  | _, Inf true => false
  | Fin a, Fin b => Qle_bool a b
  end.

(** [x >= y]. *)
Definition ge (x y : float64) : bool := le y x.

(** The float64 constants of [addRow].  [5.99] and [6.99] are not
    representable: the compiler rounds them to the nearest float64,
    whose exact values these are. *)
Definition c4 : float64 := Fin 4.
Definition c6 : float64 := Fin 6.
Definition c7 : float64 := Fin 7.
Definition c5_99 : float64 := Fin (3372070220993659 # 562949953421312).
Definition c6_99 : float64 := Fin (3935020174414971 # 562949953421312).

(** ** time.Time, as far as [Before] sees it *)

(** An instant, in seconds counted from the zero Time
    (January 1, year 1, 00:00:00 UTC). *)
Abbreviation Time := Z (only parsing).

(** [Time{}], which [time.Parse] returns together with an error. *)
Definition zeroTime : Time := 0.

(** [t.Before(u)]. *)
Definition Before (t u : Time) : bool := t <? u.

(** ** A model of [strconv.ParseFloat(s, 32)] on plain decimal numerals

    [sign? digits (. digits)?], the shape [fmt.Sprintf("%.02f", _)]
    gives a finite magnitude.  The value is the float32 nearest to the
    numeral (ties to even), widened to float64.  Every other string is
    answered as a syntax error, whose value is 0: exponents, hexadecimal
    numerals and the spellings of infinity and NaN are outside this
    model. *)

Definition digit (c : ascii) : option Z :=
  let n := Z.of_N (Ascii.N_of_ascii c) in
  if (48 <=? n) && (n <=? 57) then Some (n - 48) else None.

(** Reads a run of decimal digits: its value, its length, and the rest. *)
Fixpoint digits (s : string) (acc : Z) (len : nat) : Z * nat * string :=
  match s with
  | String c rest =>
      match digit c with
      | Some d => digits rest (10 * acc + d) (S len)
      | None => (acc, len, s)
      end
  | EmptyString => (acc, len, s)
  end.

(** Round [num / den] to an integer, ties to even ([0 < den]). *)
Definition round_half_even (num den : Z) : Z :=
  let d := num / den in
  let r := num mod den in
  if 2 * r <? den then d
  else if den <? 2 * r then d + 1
  else if Z.even d then d else d + 1.

(** The float32 nearest to the positive rational [a / b]. *)
Definition round32 (a b : Z) : float64 :=
  let e0 := Z.log2 a - Z.log2 b in
  let e := if a * 2 ^ Z.max 0 (- e0) <? b * 2 ^ Z.max 0 e0 then e0 - 1 else e0 in
  let p := Z.max e (-126) - 23 in
  let n := round_half_even (a * 2 ^ Z.max 0 (- p)) (b * 2 ^ Z.max 0 p) in
  if 2 ^ 24 * 2 ^ 104 <=? n * 2 ^ Z.max 0 p then Inf false
  else Fin (Qred (Qmake (n * 2 ^ Z.max 0 p) (Z.to_pos (2 ^ Z.max 0 (- p))))).

Definition neg (x : float64) : float64 :=
  match x with
  | NaN => NaN
  | Inf b => Inf (negb b)
  | Fin q => Fin (Qopp q)
  end.

Definition ParseFloat32 (s : string) : float64 :=
  let '(negative, body) :=
    match s with
    | String "-" rest => (true, rest)
    | String "+" rest => (false, rest)
    | _ => (false, s)
    end in
  let '(ip, ilen, rest) := digits body 0 0%nat in
  let '(m, flen, rest') :=
    match rest with
    | String "." frac => digits frac ip 0%nat
    | _ => (ip, 0%nat, rest)
    end in
  match rest' with
  | EmptyString =>
      if Nat.eqb (ilen + flen) 0 then Fin 0
      else if m =? 0 then Fin 0
      else
        let v := round32 m (10 ^ Z.of_nat flen) in
        if negative then neg v else v
  | _ => Fin 0
  end.

(** ** A model of [time.Parse("Jan/02/15:04:05/MST", _)]

    The layout names no year, so a parsed instant lies in year 0, the
    year before the zero Time.  A zone abbreviation the current location
    knows shifts the instant by that zone's offset; "UTC" and unknown
    abbreviations have offset 0.  Values with a fractional second or a
    numeric zone are outside this model and are answered as errors. *)

(** The current location: zone abbreviation and offset, in seconds east
    of UTC. *)
Abbreviation Location := (list (string * Z)) (only parsing).

Definition lookupName (local : Location) (name : string) : option Z :=
  snd <$> List.find (fun z => String.eqb (fst z) name) local.

Definition lower (c : ascii) : ascii :=
  let n := Ascii.N_of_ascii c in
  if (65 <=? n)%N && (n <=? 90)%N then Ascii.ascii_of_N (n + 32) else c.

Fixpoint lowers (s : string) : string :=
  match s with
  | EmptyString => EmptyString
  | String c rest => String (lower c) (lowers rest)
  end.

(** Short month names with the number of days before the month and in
    the month, in the leap year 0. *)
Definition shortMonthNames : list (string * (Z * Z)) :=
  [ ("jan", (0, 31)); ("feb", (31, 29)); ("mar", (60, 31));
    ("apr", (91, 30)); ("may", (121, 31)); ("jun", (152, 30));
    ("jul", (182, 31)); ("aug", (213, 31)); ("sep", (244, 30));
    ("oct", (274, 31)); ("nov", (305, 30)); ("dec", (335, 31)) ]%string.

Definition isUpper (c : ascii) : bool :=
  let n := Ascii.N_of_ascii c in (65 <=? n)%N && (n <=? 90)%N.

Fixpoint countUpper (s : string) (fuel : nat) : nat :=
  match fuel, s with
  | S fuel', String c rest => if isUpper c then S (countUpper rest fuel') else 0%nat
  | _, _ => 0%nat
  end.

(** The length of the zone abbreviation at the head of [s]. *)
Definition parseTimeZone (s : string) : option nat :=
  if String.prefix "ChST" s || String.prefix "MeST" s then Some 4%nat
  else
    match countUpper s 6 with
    | 3%nat => Some 3%nat
    | 4%nat =>
        if String.eqb (String.substring 3 1 s) "T" || String.prefix "WITA" s
        then Some 4%nat else None
    | 5%nat => if String.eqb (String.substring 4 1 s) "T" then Some 5%nat else None
    | _ => None
    end.

(** A literal of the layout. *)
Definition lit (c : ascii) (s : string) : option string :=
  match s with
  | String c' rest => if Ascii.eqb c c' then Some rest else None
  | EmptyString => None
  end.

(** [getnum(s, fixed)]: one or two digits; two are required when
    [fixed]. *)
Definition getnum (s : string) (fixed : bool) : option (Z * string) :=
  match s with
  | String c1 rest =>
      d1 ← digit c1;
      match rest with
      | String c2 rest' =>
          match digit c2 with
          | Some d2 => Some (10 * d1 + d2, rest')
          | None => if fixed then None else Some (d1, rest)
          end
      | EmptyString => if fixed then None else Some (d1, rest)
      end
  | EmptyString => None
  end.

Definition stampLayout : string := "Jan/02/15:04:05/MST".

Definition parseStamp (local : Location) (value : string) : option Time :=
  '(before, inMonth) ←
    snd <$> List.find (fun m => String.eqb (fst m) (lowers (String.substring 0 3 value)))
                      shortMonthNames;
  v ← lit "/" (String.substring 3 (String.length value) value);
  '(day, v) ← getnum v true;
  v ← lit "/" v;
  '(hour, v) ← getnum v false;
  (if 24 <=? hour then None else Some tt);;
  v ← lit ":" v;
  '(min, v) ← getnum v true;
  (if 60 <=? min then None else Some tt);;
  v ← lit ":" v;
  '(sec, v) ← getnum v true;
  (if 60 <=? sec then None else Some tt);;
  v ← lit "/" v;
  '(zone, rest) ←
    (if String.prefix "UTC" v
     then Some ("UTC"%string, String.substring 3 (String.length v) v)
     else n ← parseTimeZone v;
          Some (String.substring 0 n v, String.substring n (String.length v) v));
  (if String.eqb rest "" then Some tt else None);;
  (if (day <? 1) || (inMonth <? day) then None else Some tt);;
  let offset :=
    if String.eqb zone "UTC" then 0 else default 0 (lookupName local zone) in
  Some ((before + day - 1 - 366) * 86400 + hour * 3600 + min * 60 + sec - offset).

(** [time.Parse(layout, value)] in the location [local], for the one
    layout the program uses. *)
Definition time_Parse_in (local : Location) (layout value : string) : option Time :=
  if String.eqb layout stampLayout then parseStamp local value else None.

End Go.

Import Go.

(* ===================================================================== *)
(** * The display surface *)
(* ===================================================================== *)

Module tview.

(** The [tcell] colours the program names, and [ColorBlack], the zero
    value of the colour type. *)
Inductive Color : Type :=
| ColorBlack
| ColorGreen
| ColorYellow
| ColorOrange
| ColorRed
| ColorDarkCyan.

Inductive Alignment : Type :=
| AlignLeft
| AlignCenter.

Record TableCell : Type := mkCell {
  Text : string;
  Color_ : Color;
  Align : Alignment;
  NotSelectable : bool
}.

(** [&TableCell{}]. *)
Definition emptyCell : TableCell :=
  {| Text := ""; Color_ := ColorBlack; Align := AlignLeft; NotSelectable := false |}.

(** Modelled from the spec: the display surface (section 6: an ordered
    table with get-row-count, get-cell-text and insert-row-at-position) is
    the [tview.Table] of an external library, which is not under [src/].
    The model is the table's grid of cells, row by row, with that
    library's documented behaviour at the margins. *)
Abbreviation Table := (list (list TableCell)) (only parsing).

(** Modelled from the spec: get-row-count. *)
Definition GetRowCount (t : Table) : nat := length t.

(** Modelled from the spec: get-cell; a cell that was never set reads as
    an empty cell. *)
Definition GetCell (t : Table) (row column : nat) : TableCell :=
  default emptyCell (t !! row ≫= fun r => r !! column).

(** Modelled from the spec: insert-row-at-position; rows at [row] and
    below shift down by one, and nothing happens when [row] is not an
    existing row. *)
Definition InsertRow (t : Table) (row : nat) : Table :=
  if (length t <=? row)%nat then t
  else take row t ++ [] :: drop row t.

(** Modelled from the spec: set-cell; the grid is extended with empty
    rows and empty cells up to the position written. *)
Definition SetCell (t : Table) (row column : nat) (cell : TableCell) : Table :=
  let t1 :=
    if (length t <=? row)%nat
    then t ++ replicate (row - length t + 1) []
    else t in
  let r := default [] (t1 !! row) in
  let r1 :=
    if (length r <=? column)%nat
    then r ++ replicate (column - length r) emptyCell ++ [cell]
    else <[column := cell]> r in
  <[row := r1]> t1.

End tview.

Import tview.

(* ===================================================================== *)
(** * The program *)
(* ===================================================================== *)

(** ** Structs for holding the GeoJson information *)

Record geoJsonMetadata : Type := {
  Generated : Z;
  Url : string;
  MTitle : string;
  Api : string;
  Count : Z;
  MStatus : Z
}.

Record geoJsonProperties : Type := {
  Mag : float64;
  Place : string;
  Time_ : Z;
  Updated : Z;
  Tz : Z;
  URL : string;
  Detail : string;
  Felt : Z;
  Cdi : float64;
  Mmi : float64;
  Alert : string;
  Status : string;
  Tsunami : Z;
  Sig : Z;
  Net : string;
  Code : string;
  Ids : string;
  Sources : string;
  Types : string;
  Nst : Z;
  Dmin : float64;
  Rms : float64;
  Gap : float64;
  MagType : string;
  PType : string;
  Title : string
}.

Record geoJsonGeometry : Type := {
  GType : string;
  Coordinates : list float64
}.

Record geoJsonFeature : Type := {
  FType : string;
  Properties : geoJsonProperties;
  Geometry : geoJsonGeometry;
  ID : string
}.

Record geoJson : Type := {
  Type_ : string;
  Metadata : geoJsonMetadata;
  Features : list geoJsonFeature
}.

Definition USGSAPI : string :=
  "https://earthquake.usgs.gov/earthquakes/feed/v1.0/summary/all_hour.geojson".
Definition TIMEFORMAT : string := "Jan/02/15:04:05/MST".

(** What the network did during one call of [getUsgsGeoStats(USGSAPI)]:
    [http.Get] failed, or it gave a response whose body [ioutil.ReadAll]
    read as [body], with or without a read error. *)
Inductive Exchange : Type :=
| GetFailed
| GetOk (body : string) (readFailed : bool).

(** The scan of [addRow]: the loop variables that outlive the loop. *)
Record scan : Type := mkScan {
  atRow : nat;
  foundTime : bool;
  updateNotInsert : bool
}.

(** The loop variables as [addRow] initialises them. *)
Definition scanStart : scan :=
  {| atRow := 1; foundTime := false; updateNotInsert := false |}.

(** The table [main] builds before the first fetch: the header row. *)
Definition headerCell (text : string) : TableCell :=
  {| Text := text; Color_ := ColorYellow; Align := AlignCenter; NotSelectable := true |}.

Definition headerTable : Table :=
  [ [ headerCell "ID"; headerCell "Time"; headerCell "Magnitude";
      headerCell "Location"; headerCell "Properties/IDs" ] ].

(** The severity colour of a magnitude: the [switch] of [addRow]. *)
Definition severity (quakeMag : float64) : Color :=
  if Go.ge quakeMag c4 && Go.le quakeMag c5_99 then ColorYellow
  else if Go.ge quakeMag c6 && Go.le quakeMag c6_99 then ColorOrange
  else if Go.ge quakeMag c7 then ColorRed
  else ColorGreen.

(** The cell the queued update of [addRow] writes in column [column]. *)
Definition quakeCell (quakeMag : float64) (column : nat) (text : string) : TableCell :=
  let color := severity quakeMag in
  let color := if Nat.eqb column 0 then ColorDarkCyan else color in
  {| Text := text; Color_ := color; Align := AlignLeft;
     NotSelectable := Nat.eqb column 0 |}.

(** ** Sample data *)

Module Sample.

(** A machine whose local zone is UTC, and one in Los Angeles. *)
Definition utc : Location := [].
Definition losAngeles : Location := [("PST", -28800); ("PDT", -25200)].

(** Display rows, as [getQuakeList] builds them. *)
Definition quakeA : list string := ["a"; "Jan/02/00:00:01/UTC"; "5.50"; "X"; ""].
Definition quakeB : list string := ["b"; "Jan/02/00:00:02/UTC"; "6.50"; "Y"; "b,b2"].
(** [a] again, with a later origin time and another magnitude. *)
Definition quakeA' : list string := ["a"; "Jan/02/00:00:03/UTC"; "5.90"; "X"; ""].
(** A quake older than [a] and [b], reported late. *)
Definition quakeC : list string := ["c"; "Jan/02/00:00:00/UTC"; "3.90"; "Z"; ""].
(** A quake of New Year's Eve, Pacific time. *)
Definition quakeZ : list string := ["z"; "Dec/31/20:00:00/PST"; "7.10"; "W"; ""].

Definition plainCell (text : string) : TableCell :=
  {| Text := text; Color_ := ColorGreen; Align := AlignLeft; NotSelectable := false |}.


(** The same below a row of 21:00, New Year's Eve, Pacific time. *)
Definition staleTablePST : Table :=
  headerTable
  ++ [ [plainCell "y"; plainCell "Dec/31/21:00:00/PST"; plainCell "2.00"];
       [plainCell "x"; plainCell "n/a"; plainCell "1.00"] ].

End Sample.

(** A feed of two quakes, the newest first, and the Go library on it:
    the machine is in UTC. *)
Module Feed.

Definition properties (mag : float64) (place : string) (time : Z)
    (url ids : string) : geoJsonProperties :=
  {| Mag := mag; Place := place; Time_ := time; Updated := time; Tz := 0;
     URL := url; Detail := ""; Felt := 0; Cdi := Fin 0; Mmi := Fin 0;
     Alert := ""; Status := "automatic"; Tsunami := 0; Sig := 0; Net := "ci";
     Code := ""; Ids := ids; Sources := ",ci,"; Types := ""; Nst := 0;
     Dmin := Fin 0; Rms := Fin 0; Gap := Fin 0; MagType := "ml";
     PType := "earthquake"; Title := "" |}.

Definition feature (id : string) (p : geoJsonProperties)
    (coordinates : list float64) : geoJsonFeature :=
  {| FType := "Feature"; Properties := p;
     Geometry := {| GType := "Point"; Coordinates := coordinates |};
     ID := id |}.

(** January 2, 1970, 00:00:01 and 00:00:02 UTC, in milliseconds. *)
Definition featureA : geoJsonFeature :=
  feature "a" (properties (Fin (11 # 2)) "X" 86401000 "https://usgs.gov/a" ",a,")
          [Fin 1; Fin 2; Fin 3].
Definition featureB : geoJsonFeature :=
  feature "b" (properties (Fin (13 # 2)) "Y" 86402000 "https://usgs.gov/b" ",b,b2,")
          [Fin 1; Fin 2; Fin 3].
(** A quake of 00:00:00, older than both and reported late. *)
Definition featureC : geoJsonFeature :=
  feature "c" (properties (Fin (39 # 10)) "Z" 86400000 "https://usgs.gov/c" ",c,")
          [Fin 1; Fin 2; Fin 3].
(** A quake whose geometry has two coordinates only. *)
Definition featureFlat : geoJsonFeature :=
  feature "f" (properties (Fin (11 # 2)) "Z" 86403000 "https://usgs.gov/f" ",f,")
          [Fin 1; Fin 2].

Definition metadata (count : Z) : geoJsonMetadata :=
  {| Generated := 86460000; Url := USGSAPI; MTitle := "USGS All Earthquakes, Past Hour";
     Api := "1.10.3"; Count := count; MStatus := 200 |}.

Definition snapshot : geoJson :=
  {| Type_ := "FeatureCollection"; Metadata := metadata 2;
     Features := [featureB; featureA] |}.
Definition lateSnapshot : geoJson :=
  {| Type_ := "FeatureCollection"; Metadata := metadata 3;
     Features := [featureB; featureA; featureC] |}.
Definition flatSnapshot : geoJson :=
  {| Type_ := "FeatureCollection"; Metadata := metadata 3;
     Features := [featureFlat; featureB; featureA] |}.

(** [json.Unmarshal] on the body that encodes [snapshot]. *)
Definition Unmarshal (body : string) : option geoJson :=
  if String.eqb body "feed" then Some snapshot else None.

(** [time.Unix(sec, 0).Format(layout)] at the instants of the feed. *)
Definition Format (sec : Z) (layout : string) : string :=
  if sec =? 86401 then "Jan/02/00:00:01/UTC"
  else if sec =? 86402 then "Jan/02/00:00:02/UTC"
  else if sec =? 86400 then "Jan/02/00:00:00/UTC"
  else "".

(** [fmt.Sprintf("%.02f", x)] on the magnitudes of the feed. *)
Definition Sprintf_02f (x : float64) : string :=
  match x with
  | Fin q => if Qeq_bool q (11 # 2) then "5.50"
             else if Qeq_bool q (13 # 2) then "6.50"
             else if Qeq_bool q (39 # 10) then "3.90" else ""
  | _ => ""
  end.

(** [fmt.Sprintf("%f %f %f", x, y, z)] on the coordinates of the feed. *)
Definition Sprintf_f_f_f (x y z : float64) : string := "1.000000 2.000000 3.000000".

(** A fetch of that body. *)
Definition fetch : Exchange := GetOk "feed" false.

End Feed.

Section Program.

(** The Go library, as the program calls it. *)
Variable time_Parse : string -> string -> option Time.
Variable strconv_ParseFloat : string -> float64.
Variable time_Format : Z -> string -> string.
Variable fmt_Sprintf_02f : float64 -> string.
Variable json_Unmarshal : string -> option geoJson.

(** [t, _ = time.Parse(TIMEFORMAT, s)]: the error is dropped and the
    zero Time stands in. *)
Definition parseTime (s : string) : Time :=
  default zeroTime (time_Parse TIMEFORMAT s).

(** *** addRow *)

(** The loop over the table rows, [n] iterations from row [row] on. *)
Fixpoint scanRows (table : Table) (quake : list string) (quakeTime : Time)
    (n row : nat) (st : scan) : result scan :=
  match n with
  | O => Ok st
  | S n' =>
      let rowTime := parseTime (Text (GetCell table row 1)) in
      let rowID := Text (GetCell table row 0) in
      q0 ← index quake 0;
      if String.eqb rowID q0
      then Ok {| atRow := row; foundTime := foundTime st; updateNotInsert := true |}
      else
        let st' :=
          if negb (foundTime st) && Before rowTime quakeTime
          then {| atRow := row; foundTime := true; updateNotInsert := updateNotInsert st |}
          else st in
        scanRows table quake quakeTime n' (S row) st'
  end.

(** The loop over the columns of the queued update, [n] iterations from
    column [column] on. *)
Fixpoint setCells (quake : list string) (quakeMag : float64) (atRow : nat)
    (n column : nat) (table : Table) : result Table :=
  match n with
  | O => Ok table
  | S n' =>
      text ← index quake column;
      setCells quake quakeMag atRow n' (S column)
        (SetCell table atRow column (quakeCell quakeMag column text))
  end.

Definition addRow (table : Table) (quake : list string) : result Table :=
  q1 ← index quake 1;
  let quakeTime := parseTime q1 in
  q2 ← index quake 2;
  let quakeMag := strconv_ParseFloat q2 in
  st ← scanRows table quake quakeTime (GetRowCount table - 1) 1 scanStart;
  let table := if updateNotInsert st then table else InsertRow table (atRow st) in
  setCells quake quakeMag (atRow st) 5 0 table.

(** What the function handed to [app.QueueUpdateDraw] captures. *)
Record queuedUpdate : Type := mkQueued {
  qQuake : list string;
  qQuakeMag : float64;
  qScan : scan
}.

(** [addRow] up to the call of [app.QueueUpdateDraw]: the part that runs
    in the goroutine, on the table as it is then. *)
Definition scanTable (table : Table) (quake : list string) : result queuedUpdate :=
  q1 ← index quake 1;
  let quakeTime := parseTime q1 in
  q2 ← index quake 2;
  let quakeMag := strconv_ParseFloat q2 in
  st ← scanRows table quake quakeTime (GetRowCount table - 1) 1 scanStart;
  Ok {| qQuake := quake; qQuakeMag := quakeMag; qScan := st |}.

(** The queued function: the part that runs in the event loop, on the
    table as it is when its turn comes. *)
Definition runUpdate (u : queuedUpdate) (table : Table) : result Table :=
  let table :=
    if updateNotInsert (qScan u) then table
    else InsertRow table (atRow (qScan u)) in
  setCells (qQuake u) (qQuakeMag u) (atRow (qScan u)) 5 0 table.

(** *** getUsgsGeoStats *)

Definition getUsgsGeoStats (net : Exchange) : result geoJson :=
  match net with
  | GetFailed => Panic
  | GetOk body _ =>
      match json_Unmarshal body with
      | Some jsonData => Ok jsonData
      | None => Panic
      end
  end.

(** *** getQuakeList *)

(** The in-place reversal of [data.Features]: [i] runs from [n - 1]
    down to 0. *)
Fixpoint reverseFeatures (n : nat) (features : list geoJsonFeature)
    : result (list geoJsonFeature) :=
  match n with
  | O => Ok features
  | S i =>
      let opp := (length features - 1 - i)%nat in
      a ← index features i;
      b ← index features opp;
      reverseFeatures i (<[opp := a]> (<[i := b]> features))
  end.

(** The display row of a feature. *)
Definition quakeRow (y : geoJsonFeature) : list string :=
  [ ID y;
    time_Format (Z.quot (Time_ (Properties y)) 1000) "Jan/02/15:04:05/MST";
    fmt_Sprintf_02f (Mag (Properties y));
    Place (Properties y);
    Ids (Properties y) ].

(** The loop over the quakes. *)
Fixpoint rangeFeatures (features : list geoJsonFeature)
    (quakeList : gmap string geoJsonFeature) (usgsQuakeList : list (list string))
    : gmap string geoJsonFeature * list (list string) :=
  match features with
  | [] => (quakeList, usgsQuakeList)
  | y :: rest =>
      rangeFeatures rest (<[ID y := y]> quakeList) (usgsQuakeList ++ [quakeRow y])
  end.

(** The body of [getQuakeList] once the snapshot [data] is fetched. *)
Definition reconcile (data : geoJson) (quakeList : gmap string geoJsonFeature)
    : result (gmap string geoJsonFeature * list (list string)) :=
  features ← reverseFeatures (length (Features data) / 2) (Features data);
  Ok (rangeFeatures features quakeList []).

Definition getQuakeList (net : Exchange) (quakeList : gmap string geoJsonFeature)
    : result (gmap string geoJsonFeature * list (list string)) :=
  data ← getUsgsGeoStats net;
  reconcile data quakeList.

(** *** populateTableData *)

(** Modelled from the spec: the display surface's "queue this mutation
    and redraw" primitive (section 6) belongs to the [tview] library,
    which is not under [src/]. The functions queued are run one at a
    time, in the order they were queued, when the event loop gets to
    them: here it runs the first [n]. *)
Fixpoint runQueued (n : nat) (table : Table) (queue : list queuedUpdate)
    : result (Table * list queuedUpdate) :=
  match n, queue with
  | S n', u :: rest => table' ← runUpdate u table; runQueued n' table' rest
  | _, _ => Ok (table, queue)
  end.

(** One [addRow] of the loop, the event loop having run [ran] queued
    updates since the call before: the scan reads the table as it is
    then, and the write joins the queue. *)
Definition addRowQueued (ran : nat) (table : Table) (queue : list queuedUpdate)
    (quake : list string) : result (Table * list queuedUpdate) :=
  '(table', queue') ← runQueued ran table queue;
  u ← scanTable table' quake;
  Ok (table', queue' ++ [u]).

(** The loop of [populateTableData]; [ran i] is the number of queued
    updates the event loop runs before the scan of call [i]. *)
Fixpoint addRowsQueued (ran : nat -> nat) (table : Table) (queue : list queuedUpdate)
    (usgsQuakeList : list (list string)) : result (Table * list queuedUpdate) :=
  match usgsQuakeList with
  | [] => Ok (table, queue)
  | y :: rest =>
      '(table', queue') ← addRowQueued (ran 0%nat) table queue y;
      addRowsQueued (fun i => ran (S i)) table' queue' rest
  end.

(** The table once the event loop has run every queued update. *)
Definition drain (table : Table) (queue : list queuedUpdate) : result Table :=
  '(table', _) ← runQueued (length queue) table queue;
  Ok table'.

(** The event loop keeps in step: it runs a queued update before every
    scan, so that, each call queueing one, none is queued when a scan
    starts. *)
Definition inStep (ran : nat -> nat) : Prop := forall i, (1 <= ran i)%nat.

(** The event loop runs nothing until the loop is over. *)
Definition deferred : nat -> nat := fun _ => 0%nat.

(** The event loop runs one queued update before every scan. *)
Definition prompt : nat -> nat := fun _ => 1%nat.

(** The loop when the event loop keeps in step: every call scans the
    table the call before has written ([addRowsQueued_in_step]). *)
Fixpoint addRows (table : Table) (usgsQuakeList : list (list string)) : result Table :=
  match usgsQuakeList with
  | [] => Ok table
  | y :: rest => table' ← addRow table y; addRows table' rest
  end.

(** [populateTableData] and the updates it leaves queued. *)
Definition populateTableDataQueued (ran : nat -> nat) (net : Exchange)
    (table : Table) (queue : list queuedUpdate) (quakeList : gmap string geoJsonFeature)
    : result (Table * list queuedUpdate * gmap string geoJsonFeature) :=
  '(quakeList', usgsQuakeList) ← getQuakeList net quakeList;
  '(table', queue') ← addRowsQueued ran table queue usgsQuakeList;
  Ok (table', queue', quakeList').

(** The fetch ticks of [main], each with what the event loop does during
    its [populateTableData]. *)
Fixpoint cyclesQueued (nets : list (Exchange * (nat -> nat)))
    (table : Table) (queue : list queuedUpdate) (quakeList : gmap string geoJsonFeature)
    : result (Table * list queuedUpdate * gmap string geoJsonFeature) :=
  match nets with
  | [] => Ok (table, queue, quakeList)
  | (net, ran) :: rest =>
      '(table', queue', quakeList') ← populateTableDataQueued ran net table queue quakeList;
      cyclesQueued rest table' queue' quakeList'
  end.

(** [populateTableData] when the event loop keeps in step. *)
Definition populateTableData (net : Exchange)
    (table : Table) (quakeList : gmap string geoJsonFeature)
    : result (Table * gmap string geoJsonFeature) :=
  '(quakeList', usgsQuakeList) ← getQuakeList net quakeList;
  table' ← addRows table usgsQuakeList;
  Ok (table', quakeList').

(** The fetch ticks of [main], the event loop keeping in step: one
    [populateTableData] per exchange. *)
Fixpoint cycles (nets : list Exchange)
    (table : Table) (quakeList : gmap string geoJsonFeature)
    : result (Table * gmap string geoJsonFeature) :=
  match nets with
  | [] => Ok (table, quakeList)
  | net :: rest =>
      '(table', quakeList') ← populateTableData net table quakeList;
      cycles rest table' quakeList'
  end.

(** The store through successive cycles whose fetches gave [snapshots]. *)
Fixpoint reconciles (snapshots : list geoJson)
    (quakeList : gmap string geoJsonFeature) : result (gmap string geoJsonFeature) :=
  match snapshots with
  | [] => Ok quakeList
  | data :: rest =>
      '(quakeList', _) ← reconcile data quakeList;
      reconciles rest quakeList'
  end.

(** The feature bearing [id] that was fetched last: in the latest
    snapshot that reports [id], the one that comes first in the feed
    (the reversed loop stores it last). *)
Definition mostRecent (id : string) (snapshots : list geoJson) : option geoJsonFeature :=
  List.find (fun y => String.eqb (ID y) id) (concat (Features <$> reverse snapshots)).

(** The states of the display, from the header table on: the table and
    the updates queued and not yet run. A call of [addRow] scans the
    table and queues its update; the event loop runs the update at the
    head of the queue. *)
Inductive Running : Table -> list queuedUpdate -> Prop :=
| running_header : Running headerTable []
| running_scan (t : Table) (queue : list queuedUpdate)
      (quake : list string) (u : queuedUpdate) :
    Running t queue -> scanTable t quake = Ok u -> Running t (queue ++ [u])
| running_update (t t' : Table) (u : queuedUpdate) (queue : list queuedUpdate) :
    Running t (u :: queue) -> runUpdate u t = Ok t' -> Running t' queue.

(** The tables of the runs in step: every update is run on the table
    its scan has read, before the next scan. *)
Inductive InStep : Table -> Prop :=
| instep_header : InStep headerTable
| instep_addRow (t t' : Table) (quake : list string) (u : queuedUpdate) :
    InStep t -> scanTable t quake = Ok u -> runUpdate u t = Ok t' -> InStep t'.

(** ** The table as rows: what one [addRow] amounts to *)

(** The position of the first element that passes [f]. *)
Fixpoint findIndex {A : Type} (f : A -> bool) (l : list A) : option nat :=
  match l with
  | [] => None
  | x :: rest => if f x then Some O else S <$> findIndex f rest
  end.

Definition cellAt (r : list TableCell) (column : nat) : TableCell :=
  default emptyCell (r !! column).

(** The identifier and the parsed timestamp a row displays. *)
Definition rowID (r : list TableCell) : string := Text (cellAt r 0).
Definition rowTime (r : list TableCell) : Time := parseTime (Text (cellAt r 1)).

(** The data rows: every row but the header. *)
Definition dataRows (t : Table) : list (list TableCell) := tail t.
Definition ids (t : Table) : list string := rowID <$> dataRows t.
Definition times (t : Table) : list Time := rowTime <$> dataRows t.

(** The identifier, timestamp and cells of a display row. *)
Definition quakeID (quake : list string) : string := default "" (quake !! 0%nat).
Definition quakeTime (quake : list string) : Time :=
  parseTime (default "" (quake !! 1%nat)).
Definition quakeCells (quake : list string) : list TableCell :=
  imap (quakeCell (strconv_ParseFloat (default "" (quake !! 2%nat)))) (take 5 quake).

Definition hasID (id : string) (r : list TableCell) : bool := String.eqb (rowID r) id.
Definition older (t : Time) (r : list TableCell) : bool := Before (rowTime r) t.

(** One upsert on the data rows: overwrite the first row with the
    identifier, or else insert above the first older row, or else on
    top. *)
Definition upsertRows (rows : list (list TableCell)) (quake : list string)
    : list (list TableCell) :=
  match findIndex (hasID (quakeID quake)) rows with
  | Some p => alter (fun r => quakeCells quake ++ drop 5 r) p rows
  | None =>
      match findIndex (older (quakeTime quake)) rows with
      | Some k => take k rows ++ quakeCells quake :: drop k rows
      | None => quakeCells quake :: rows
      end
  end.

Definition upsert (t : Table) (quake : list string) : Table :=
  hd [] t :: upsertRows (dataRows t) quake.

(** What [SetCell] does to the row it writes in. *)
Definition setInRow (r : list TableCell) (column : nat) (cell : TableCell)
    : list TableCell :=
  if (length r <=? column)%nat
  then r ++ replicate (column - length r) emptyCell ++ [cell]
  else <[column := cell]> r.

(** A display row with its five columns. *)
Definition longEnough (quake : list string) : Prop := (5 <= length quake)%nat.

(** The rows display [quake]: the first row with its identifier
    carries its five cells. *)
Definition shows (quake : list string) (rows : list (list TableCell)) : Prop :=
  exists r,
    List.find (hasID (quakeID quake)) rows = Some r /\
    quakeCells quake ++ drop 5 r = r.

(** Non-increasing, top to bottom. *)
Definition descending (l : list Time) : Prop := Sorted Z.ge l.

(** The display row keeps the order of the table: when its identifier
    is displayed, its timestamp is not newer than a row above the row it
    overwrites nor older than a row below it; when its identifier is
    fresh, some row is strictly older than it or no row is newer. *)
Definition keepsOrder (t : Table) (quake : list string) : Prop :=
  match findIndex (hasID (quakeID quake)) (dataRows t) with
  | Some p =>
      Forall (fun r => quakeTime quake <= rowTime r) (take p (dataRows t)) /\
      Forall (fun r => rowTime r <= quakeTime quake) (drop (S p) (dataRows t))
  | None =>
      Exists (fun r => rowTime r < quakeTime quake) (dataRows t) \/
      Forall (fun r => rowTime r <= quakeTime quake) (dataRows t)
  end.

(** The tables of the runs in step whose display rows each keep the
    order of the table their scan reads. *)
Inductive InStepInOrder : Table -> Prop :=
| inorder_header : InStepInOrder headerTable
| inorder_addRow (t t' : Table) (quake : list string) (u : queuedUpdate) :
    InStepInOrder t -> keepsOrder t quake ->
    scanTable t quake = Ok u -> runUpdate u t = Ok t' ->
    InStepInOrder t'.

(** The cells a queued update writes, and what makes it fit a table of
    [n] rows: five strings, a row of the table (or the row after the
    last one, for an insertion), never the header. *)
Definition queuedCells (u : queuedUpdate) : list TableCell :=
  imap (quakeCell (qQuakeMag u)) (take 5 (qQuake u)).

Definition fits (n : nat) (u : queuedUpdate) : Prop :=
  longEnough (qQuake u) /\
  (1 <= atRow (qScan u))%nat /\
  (atRow (qScan u) <= n)%nat /\
  (updateNotInsert (qScan u) = true -> (atRow (qScan u) < n)%nat).

(** What a scan of a table of [n] rows leaves in the update it queues:
    the magnitude of the display row, and a row of the table (or the row
    after the last one, for an insertion), never the header. *)
Definition scanned (n : nat) (u : queuedUpdate) : Prop :=
  qQuakeMag u = strconv_ParseFloat (default "" (qQuake u !! 2%nat)) /\
  (1 <= atRow (qScan u))%nat /\
  (atRow (qScan u) <= n)%nat /\
  (updateNotInsert (qScan u) = true -> (atRow (qScan u) < n)%nat).

(** The insertions among queued updates. *)
Definition insertions (queue : list queuedUpdate) : nat :=
  length (filter (fun u => updateNotInsert (qScan u) = false) queue).

(** The loop of [populateTableData] run once, and twice in succession,
    and the table once the event loop has caught up. *)
Definition once (ran : nat -> nat) (t : Table) (usgsQuakeList : list (list string))
    : result Table :=
  '(t1, queue1) ← addRowsQueued ran t [] usgsQuakeList;
  drain t1 queue1.

Definition twice (ran ran' : nat -> nat) (t : Table) (usgsQuakeList : list (list string))
    : result Table :=
  '(t1, queue1) ← addRowsQueued ran t [] usgsQuakeList;
  '(t2, queue2) ← addRowsQueued ran' t1 queue1 usgsQuakeList;
  drain t2 queue2.


(** ** The rest of [main], and the table against the store *)

(** The loop of [main] that fills the header row, [n] iterations from
    column [column] on. *)
Fixpoint headerCells (n column : nat) (table : Table) : Table :=
  match n with
  | O => table
  | S n' =>
      let text :=
        match column with
        | 0%nat => "ID"
        | 1%nat => "Time"
        | 2%nat => "Magnitude"
        | 3%nat => "Location"
        | 4%nat => "Properties/IDs"
        | _ => ""
        end in
      headerCells n' (S column)
        (SetCell table 0 column
           {| Text := text; Color_ := ColorYellow; Align := AlignCenter;
              NotSelectable := true |})
  end.

(** [tview.NewTable()]: no cell yet. *)
Definition NewTable : Table := [].

(** What the [select] of the goroutine receives: a tick of the draw
    ticker, or a tick of the update ticker, with what the network does
    during the fetch it starts. *)
Inductive Tick : Type :=
| drawTick
| updateTick (net : Exchange).

(** The [for { select { ... } }] loop of the goroutine, on the ticks it
    receives; [app.Draw()] leaves table and store alone. *)
Fixpoint selectLoop (ticks : list Tick)
    (table : Table) (quakeList : gmap string geoJsonFeature)
    : result (Table * gmap string geoJsonFeature) :=
  match ticks with
  | [] => Ok (table, quakeList)
  | drawTick :: rest => selectLoop rest table quakeList
  | updateTick net :: rest =>
      '(table', quakeList') ← populateTableData net table quakeList;
      selectLoop rest table' quakeList'
  end.

(** The goroutine of [main]: the initial populate, then the loop, the
    event loop keeping in step. *)
Definition goroutine (first : Exchange) (ticks : list Tick)
    : result (Table * gmap string geoJsonFeature) :=
  '(table, quakeList) ← populateTableData first (headerCells 5 0 NewTable) ∅;
  selectLoop ticks table quakeList.

(** The fetches of a run of ticks. *)
Definition fetches (ticks : list Tick) : list Exchange :=
  omap (fun tick => match tick with
                    | drawTick => None
                    | updateTick net => Some net
                    end) ticks.

(** A data row as [addRow] writes it: the five cells of its own texts. *)
Definition asWritten (r : list TableCell) : Prop :=
  length r = 5%nat /\ r = quakeCells (Text <$> r).

(** The table and the store agree: the table shows the identifiers the
    store holds, each once. *)
Definition agree (t : Table) (quakeList : gmap string geoJsonFeature) : Prop :=
  NoDup (ids t) /\ forall id, id ∈ ids t <-> is_Some (quakeList !! id).

(** The table renders the store: its data rows are as [addRow] writes
    them, and the first row under the identifier of a store entry is the
    row of that entry. *)
Definition renders (t : Table) (quakeList : gmap string geoJsonFeature) : Prop :=
  Forall asWritten (dataRows t) /\
  forall id y,
    quakeList !! id = Some y ->
    ID y = id /\
    List.find (hasID id) (dataRows t) = Some (quakeCells (quakeRow y)).


(* =================================================================== *)
(** * Proofs *)
(* =================================================================== *)

(** ** [findIndex] *)

Lemma findIndex_Some {A : Type} (f : A -> bool) (l : list A) (i : nat) :
  findIndex f l = Some i ->
  (exists x, l !! i = Some x /\ f x = true) /\
  (forall j y, (j < i)%nat -> l !! j = Some y -> f y = false).
Proof.
  revert i. induction l as [|x l IH]; intros i H; simpl in H; [discriminate|].
  destruct (f x) eqn:Hx.
  - injection H as <-. split; [exists x; auto | intros j y Hj; lia].
  - destruct (findIndex f l) as [k|] eqn:Hk; simpl in H; [|discriminate].
    injection H as <-. destruct (IH k eq_refl) as [[y [Hy Hfy]] Hfirst].
    split; [exists y; auto|].
    intros [|j] z Hj Hz; simpl in Hz.
    + congruence.
    + apply (Hfirst j); [lia | exact Hz].
Qed.

Lemma findIndex_None {A : Type} (f : A -> bool) (l : list A) :
  findIndex f l = None -> Forall (fun x => f x = false) l.
Proof.
  induction l as [|x l IH]; intros H; simpl in H; [constructor|].
  destruct (f x) eqn:Hx; [discriminate|].
  destruct (findIndex f l); [discriminate|]. constructor; auto.
Qed.

Lemma findIndex_lt {A : Type} (f : A -> bool) (l : list A) (i : nat) :
  findIndex f l = Some i -> (i < length l)%nat.
Proof.
  intros H. destruct (findIndex_Some f l i H) as [[x [Hx _]] _].
  eapply lookup_lt_Some; eauto.
Qed.

Lemma findIndex_split {A : Type} (f : A -> bool) (l : list A) (i : nat) :
  findIndex f l = Some i ->
  exists l1 x l2,
    l = l1 ++ x :: l2 /\ length l1 = i /\ f x = true /\
    Forall (fun y => f y = false) l1.
Proof.
  revert i. induction l as [|x l IH]; intros i H; simpl in H; [discriminate|].
  destruct (f x) eqn:Hx.
  - injection H as <-. exists [], x, l. auto.
  - destruct (findIndex f l) as [k|] eqn:Hk; simpl in H; [|discriminate].
    injection H as <-. destruct (IH k eq_refl) as (l1 & y & l2 & -> & Hl & Hy & Hall).
    exists (x :: l1), y, l2. simpl. auto.
Qed.

Lemma findIndex_app_found {A : Type} (f : A -> bool) (l1 l2 : list A) (x : A) :
  Forall (fun y => f y = false) l1 -> f x = true ->
  findIndex f (l1 ++ x :: l2) = Some (length l1).
Proof.
  intros Hall Hx. induction Hall as [|y l1 Hy _ IH]; simpl.
  - now rewrite Hx.
  - now rewrite Hy, IH.
Qed.

Lemma findIndex_all_false {A : Type} (f : A -> bool) (l : list A) :
  Forall (fun y => f y = false) l -> findIndex f l = None.
Proof.
  intros Hall. induction Hall as [|y l Hy _ IH]; simpl; [easy|].
  now rewrite Hy, IH.
Qed.

(** ** The display surface *)

Lemma GetCell_lookup (t : Table) (row column : nat) (r : list TableCell) :
  t !! row = Some r -> GetCell t row column = cellAt r column.
Proof. intros H. unfold GetCell, cellAt. now rewrite H. Qed.

Lemma SetCell_lookup (t : Table) (row column : nat) (cell : TableCell)
    (r : list TableCell) :
  t !! row = Some r ->
  SetCell t row column cell = <[row := setInRow r column cell]> t.
Proof.
  intros H. unfold SetCell, setInRow.
  pose proof (lookup_lt_Some _ _ _ H) as Hlt.
  destruct (Nat.leb_spec (length t) row); [lia|].
  cbv zeta. now rewrite H.
Qed.

Lemma SetCell_insert (t : Table) (row column : nat) (cell : TableCell)
    (r : list TableCell) :
  (row < length t)%nat ->
  SetCell (<[row := r]> t) row column cell = <[row := setInRow r column cell]> t.
Proof.
  intros Hlt. erewrite SetCell_lookup.
  - now rewrite list_insert_insert_eq.
  - now apply list_lookup_insert_eq.
Qed.

Lemma setInRow_five (r : list TableCell) (c0 c1 c2 c3 c4 : TableCell) :
  setInRow (setInRow (setInRow (setInRow (setInRow r 0 c0) 1 c1) 2 c2) 3 c3) 4 c4
  = [c0; c1; c2; c3; c4] ++ drop 5 r.
Proof.
  destruct r as [|x0 [|x1 [|x2 [|x3 [|x4 r]]]]]; reflexivity.
Qed.

(** The queued update writes the five cells of the display row over the
    row, and leaves the cells beyond the fifth column alone. *)
Lemma setCells_lookup (t : Table) (quake : list string) (quakeMag : float64)
    (row : nat) (r : list TableCell) (q0 q1 q2 q3 q4 : string) (extra : list string) :
  quake = q0 :: q1 :: q2 :: q3 :: q4 :: extra ->
  t !! row = Some r ->
  setCells quake quakeMag row 5 0 t
  = Ok (<[row := [quakeCell quakeMag 0 q0; quakeCell quakeMag 1 q1;
                  quakeCell quakeMag 2 q2; quakeCell quakeMag 3 q3;
                  quakeCell quakeMag 4 q4] ++ drop 5 r]> t).
Proof.
  intros -> H. pose proof (lookup_lt_Some _ _ _ H) as Hlt.
  cbn [setCells index lookup list_lookup mbind result_bind].
  rewrite (SetCell_lookup _ _ _ _ _ H).
  rewrite !SetCell_insert by assumption.
  now rewrite setInRow_five.
Qed.

Lemma quakeCells_five (q0 q1 q2 q3 q4 : string) (extra : list string) :
  quakeCells (q0 :: q1 :: q2 :: q3 :: q4 :: extra)
  = let quakeMag := strconv_ParseFloat q2 in
    [quakeCell quakeMag 0 q0; quakeCell quakeMag 1 q1; quakeCell quakeMag 2 q2;
     quakeCell quakeMag 3 q3; quakeCell quakeMag 4 q4].
Proof. reflexivity. Qed.

(** ** The scan of [addRow] *)

(** What the loop leaves in its variables, from its state at row [row]
    and the rows still ahead. *)
Lemma scanRows_spec (t : Table) (quake : list string) (id : string) (tq : Time) :
  quake !! 0%nat = Some id ->
  forall (rows : list (list TableCell)) (row : nat) (st : scan),
    drop row t = rows ->
    exists st',
      scanRows t quake tq (length rows) row st = Ok st' /\
      match findIndex (hasID id) rows with
      | Some p => updateNotInsert st' = true /\ atRow st' = (row + p)%nat
      | None =>
          updateNotInsert st' = updateNotInsert st /\
          foundTime st' =
            match findIndex (older tq) rows with
            | Some _ => true
            | None => foundTime st
            end /\
          atRow st' =
            if foundTime st then atRow st
            else match findIndex (older tq) rows with
                 | Some k => (row + k)%nat
                 | None => atRow st
                 end
      end.
Proof.
  intros Hid rows. induction rows as [|r rows IH]; intros row st Hdrop.
  - exists st. simpl. split; [reflexivity|]. now destruct (foundTime st).
  - assert (Hrow : t !! row = Some r).
    { pose proof (lookup_drop t row 0) as E. rewrite Hdrop, Nat.add_0_r in E.
      symmetry. exact E. }
    assert (Hnext : drop (S row) t = rows).
    { pose proof (drop_drop t 1 row) as E. rewrite Hdrop, Nat.add_1_r in E.
      symmetry. exact E. }
    cbn [length scanRows]. unfold index. rewrite Hid.
    cbn [mbind result_bind]. rewrite !(GetCell_lookup _ _ _ _ Hrow).
    cbn [findIndex]. fold (rowID r). fold (rowTime r).
    change (String.eqb (rowID r) id) with (hasID id r).
    change (Before (rowTime r) tq) with (older tq r).
    destruct (hasID id r) eqn:Hhas.
    { eexists. split; [reflexivity|]. simpl. split; [reflexivity | lia]. }
    match goal with
    | |- context [scanRows t quake tq (length rows) (S row) ?s] =>
        destruct (IH (S row) s Hnext) as [st' [Hrun Hpost]]
    end.
    exists st'. split; [exact Hrun|].
    destruct (findIndex (hasID id) rows) as [p|];
      cbn [fmap option_fmap option_map].
    { destruct Hpost as [? ->]. split; [assumption | lia]. }
    destruct Hpost as (Hupd & Hfound & Hat).
    destruct (foundTime st) eqn:Hft, (older tq r) eqn:Hold;
      cbn [negb andb foundTime atRow updateNotInsert] in *;
      rewrite ?Hft in *;
      destruct (findIndex (older tq) rows) as [k|];
      cbn [fmap option_fmap option_map];
      rewrite ?Hupd, ?Hfound, ?Hat; repeat split; try reflexivity; lia.
Qed.

(** ** [addRow] on the rows of the table *)

Lemma alter_lookup {A : Type} (f : A -> A) (l : list A) (i : nat) (x : A) :
  l !! i = Some x -> alter f i l = <[i := f x]> l.
Proof.
  revert i. induction l as [|y l IH]; intros [|i] H; simpl in *; try discriminate.
  - now injection H as ->.
  - f_equal. now apply IH.
Qed.

Lemma lookup_take_drop {A : Type} (l : list A) (k : nat) (y : A) :
  (k <= length l)%nat -> (take k l ++ y :: drop k l) !! k = Some y.
Proof.
  revert k. induction l as [|a l IH]; intros [|k] Hk; simpl in *; auto; try lia.
  apply IH. lia.
Qed.

Lemma insert_take_drop {A : Type} (l : list A) (k : nat) (x y : A) :
  (k <= length l)%nat ->
  <[k := x]> (take k l ++ y :: drop k l) = take k l ++ x :: drop k l.
Proof.
  revert k. induction l as [|a l IH]; intros [|k] Hk; simpl in *; auto; try lia.
  f_equal. apply IH. lia.
Qed.

(** A display row of at least five strings never makes [addRow] panic,
    and the table it leaves is [upsert]. *)
Lemma addRow_upsert (t : Table) (quake : list string) :
  (5 <= length quake)%nat -> addRow t quake = Ok (upsert t quake).
Proof.
  intros Hlen.
  destruct quake as [|q0 [|q1 [|q2 [|q3 [|q4 extra]]]]]; simpl in Hlen; try lia.
  set (quake := q0 :: q1 :: q2 :: q3 :: q4 :: extra).
  unfold addRow, upsert, upsertRows.
  assert (Hrows : drop 1 t = dataRows t) by now destruct t.
  destruct (scanRows_spec t quake q0 (parseTime q1) eq_refl (dataRows t) 1
              scanStart Hrows) as [st [Hrun Hpost]].
  replace (GetRowCount t - 1)%nat with (length (dataRows t))
    by (unfold GetRowCount, dataRows; destruct t; simpl; lia).
  change (index quake 1) with (Ok q1). change (index quake 2) with (Ok q2).
  cbn [mbind result_bind]. rewrite Hrun. cbn [mbind result_bind].
  change (quakeID quake) with q0. change (quakeTime quake) with (parseTime q1).
  subst quake. rewrite quakeCells_five. cbv zeta.
  destruct (findIndex (hasID q0) (dataRows t)) as [p|] eqn:Hp.
  - (* update in place *)
    destruct Hpost as [-> ->].
    destruct (findIndex_Some _ _ _ Hp) as [[r [Hr _]] _].
    destruct t as [|h rows]; [discriminate|]. cbn [dataRows tail hd] in Hr |- *.
    erewrite setCells_lookup; [|reflexivity|exact Hr].
    now rewrite (alter_lookup _ _ _ _ Hr).
  - destruct Hpost as (Hupd & _ & Hat).
    cbn [foundTime atRow updateNotInsert scanStart] in Hupd, Hat.
    rewrite Hupd.
    destruct (findIndex (older (parseTime q1)) (dataRows t)) as [k|] eqn:Hk.
    + (* insert above the first older row *)
      rewrite Hat. change (1 + k)%nat with (S k). pose proof (findIndex_lt _ _ _ Hk) as Hlt.
      destruct t as [|h rows]; [simpl in Hlt; lia|]. cbn [dataRows tail hd] in Hlt |- *.
      unfold InsertRow. destruct (Nat.leb_spec (length (h :: rows)) (S k)); [simpl in *; lia|].
      cbn [take drop app].
      erewrite (setCells_lookup (h :: take k rows ++ [] :: drop k rows) _ _ (S k) []);
        [|reflexivity|].
      * f_equal. simpl. f_equal. apply insert_take_drop. lia.
      * cbn [lookup list_lookup]. apply lookup_take_drop. lia.
    + (* insert on top *)
      rewrite Hat. destruct t as [|h [|r rows]]; reflexivity.
Qed.

(** [addRow] returns only for display rows of at least five strings. *)
Lemma addRow_Ok_length (t t' : Table) (quake : list string) :
  addRow t quake = Ok t' -> (5 <= length quake)%nat.
Proof.
  unfold addRow.
  destruct quake as [|q0 [|q1 [|q2 [|q3 [|q4 extra]]]]]; simpl; try discriminate;
    try lia.
  - destruct (scanRows _ _ _ _ _ _); discriminate.
  - destruct (scanRows _ _ _ _ _ _); discriminate.
Qed.

Lemma addRows_upsert (t : Table) (usgsQuakeList : list (list string)) :
  Forall (fun quake => (5 <= length quake)%nat) usgsQuakeList ->
  addRows t usgsQuakeList = Ok (foldl upsert t usgsQuakeList).
Proof.
  intros Hall. revert t. induction Hall as [|quake rest Hq _ IH]; intros t.
  - reflexivity.
  - cbn [addRows foldl]. rewrite (addRow_upsert _ _ Hq). apply IH.
Qed.

(** ** The rows after one upsert *)

Lemma alter_middle {A : Type} (f : A -> A) (l1 l2 : list A) (x : A) :
  alter f (length l1) (l1 ++ x :: l2) = l1 ++ f x :: l2.
Proof. induction l1 as [|y l1 IH]; simpl; [reflexivity | now f_equal]. Qed.

Lemma drop_S_middle {A : Type} (l1 l2 : list A) (x : A) :
  drop (S (length l1)) (l1 ++ x :: l2) = l2.
Proof. induction l1 as [|y l1 IH]; simpl; [reflexivity | exact IH]. Qed.

Lemma take_drop_middle' {A : Type} (l1 l2 : list A) (x : A) :
  take (length l1) (l1 ++ l2) ++ x :: drop (length l1) (l1 ++ l2) = l1 ++ x :: l2.
Proof. induction l1 as [|y l1 IH]; simpl; [reflexivity | now f_equal]. Qed.

Lemma rowID_quakeCells (quake : list string) (rest : list TableCell) :
  (5 <= length quake)%nat -> rowID (quakeCells quake ++ rest) = quakeID quake.
Proof.
  destruct quake as [|q0 [|q1 [|q2 [|q3 [|q4 extra]]]]]; simpl; try lia. reflexivity.
Qed.

Lemma rowTime_quakeCells (quake : list string) (rest : list TableCell) :
  (5 <= length quake)%nat -> rowTime (quakeCells quake ++ rest) = quakeTime quake.
Proof.
  destruct quake as [|q0 [|q1 [|q2 [|q3 [|q4 extra]]]]]; simpl; try lia. reflexivity.
Qed.

Lemma rowID_quakeCells_new (quake : list string) :
  (5 <= length quake)%nat -> rowID (quakeCells quake) = quakeID quake.
Proof.
  intros H. rewrite <- (rowID_quakeCells quake [] H). now rewrite app_nil_r.
Qed.

Lemma rowTime_quakeCells_new (quake : list string) :
  (5 <= length quake)%nat -> rowTime (quakeCells quake) = quakeTime quake.
Proof.
  intros H. rewrite <- (rowTime_quakeCells quake [] H). now rewrite app_nil_r.
Qed.

Lemma drop_5_quakeCells (quake : list string) (rest : list TableCell) :
  (5 <= length quake)%nat -> drop 5 (quakeCells quake ++ rest) = rest.
Proof.
  destruct quake as [|q0 [|q1 [|q2 [|q3 [|q4 extra]]]]]; simpl; try lia. reflexivity.
Qed.

(** The identifier is displayed: its first row is overwritten. *)
Lemma upsertRows_found (rows : list (list TableCell)) (quake : list string) (p : nat) :
  findIndex (hasID (quakeID quake)) rows = Some p ->
  exists l1 r l2,
    rows = l1 ++ r :: l2 /\ length l1 = p /\
    hasID (quakeID quake) r = true /\
    Forall (fun y => hasID (quakeID quake) y = false) l1 /\
    upsertRows rows quake = l1 ++ (quakeCells quake ++ drop 5 r) :: l2.
Proof.
  intros Hp. destruct (findIndex_split _ _ _ Hp) as (l1 & r & l2 & Hrows & Hl & Hr & Hall).
  exists l1, r, l2. repeat split; try assumption.
  unfold upsertRows. rewrite Hp, Hrows, <- Hl.
  exact (alter_middle (fun r => quakeCells quake ++ drop 5 r) l1 l2 r).
Qed.

(** The identifier is fresh: one row is inserted, above the first older
    row or else on top. *)
Lemma upsertRows_fresh (rows : list (list TableCell)) (quake : list string) :
  findIndex (hasID (quakeID quake)) rows = None ->
  (exists l1 r l2,
      rows = l1 ++ r :: l2 /\
      findIndex (older (quakeTime quake)) rows = Some (length l1) /\
      older (quakeTime quake) r = true /\
      Forall (fun y => older (quakeTime quake) y = false) l1 /\
      upsertRows rows quake = l1 ++ quakeCells quake :: r :: l2) \/
  (findIndex (older (quakeTime quake)) rows = None /\
   Forall (fun y => older (quakeTime quake) y = false) rows /\
   upsertRows rows quake = quakeCells quake :: rows).
Proof.
  intros Hfresh. unfold upsertRows. rewrite Hfresh.
  destruct (findIndex (older (quakeTime quake)) rows) as [k|] eqn:Hk.
  - left. destruct (findIndex_split _ _ _ Hk) as (l1 & r & l2 & Hrows & Hl & Hr & Hall).
    exists l1, r, l2. subst k. repeat split; try assumption.
    rewrite Hrows. apply take_drop_middle'.
  - right. repeat split. now apply findIndex_None.
Qed.

Lemma hasID_spec (id : string) (r : list TableCell) :
  hasID id r = true <-> rowID r = id.
Proof. unfold hasID. apply String.eqb_eq. Qed.

Lemma findIndex_hasID_None (id : string) (rows : list (list TableCell)) :
  findIndex (hasID id) rows = None <-> id ∉ rowID <$> rows.
Proof.
  split.
  - intros H Hin. apply findIndex_None in H.
    apply list_elem_of_fmap in Hin as [r [-> Hr]].
    rewrite Forall_forall in H. specialize (H r Hr).
    assert (hasID (rowID r) r = true) by now apply hasID_spec. congruence.
  - intros Hnot. apply findIndex_all_false. apply Forall_forall. intros r Hr.
    destruct (hasID id r) eqn:E; [|reflexivity].
    exfalso. apply Hnot. apply hasID_spec in E. subst id.
    apply list_elem_of_fmap. eauto.
Qed.

(** The identifiers after one upsert: unchanged, or one more. *)
Lemma ids_upsertRows (rows : list (list TableCell)) (quake : list string) :
  (5 <= length quake)%nat ->
  match findIndex (hasID (quakeID quake)) rows with
  | Some _ => rowID <$> upsertRows rows quake = rowID <$> rows
  | None =>
      exists l1 l2, rows = l1 ++ l2 /\
        rowID <$> upsertRows rows quake
        = (rowID <$> l1) ++ quakeID quake :: (rowID <$> l2)
  end.
Proof.
  intros Hlen. destruct (findIndex (hasID (quakeID quake)) rows) as [p|] eqn:Hp.
  - destruct (upsertRows_found _ _ _ Hp) as (l1 & r & l2 & -> & _ & Hr & _ & ->).
    rewrite !fmap_app, !fmap_cons, rowID_quakeCells by assumption.
    apply hasID_spec in Hr. now rewrite Hr.
  - destruct (upsertRows_fresh _ _ Hp)
      as [(l1 & r & l2 & -> & _ & _ & _ & ->) | (_ & _ & ->)].
    + exists l1, (r :: l2). split; [reflexivity|].
      now rewrite !fmap_app, !fmap_cons, rowID_quakeCells_new by assumption.
    + exists [], rows. split; [reflexivity|].
      now rewrite fmap_cons, rowID_quakeCells_new by assumption.
Qed.

Lemma NoDup_ids_upsertRows (rows : list (list TableCell)) (quake : list string) :
  (5 <= length quake)%nat ->
  NoDup (rowID <$> rows) -> NoDup (rowID <$> upsertRows rows quake).
Proof.
  intros Hlen Hnd. pose proof (ids_upsertRows rows quake Hlen) as H.
  destruct (findIndex (hasID (quakeID quake)) rows) as [p|] eqn:Hp.
  - now rewrite H.
  - destruct H as (l1 & l2 & -> & ->).
    apply findIndex_hasID_None in Hp. rewrite fmap_app in Hp, Hnd.
    apply NoDup_app in Hnd as (Hn1 & Hdisj & Hn2).
    apply NoDup_app. repeat split; try assumption.
    + intros x Hx1 Hx2. apply elem_of_cons in Hx2 as [->|Hx2].
      * apply Hp. apply elem_of_app. now left.
      * now apply (Hdisj x).
    + constructor; [|assumption]. intros Hin. apply Hp. apply elem_of_app. now right.
Qed.

(** ** The scan and the queued update *)

(** One call on its own: the update on the table that was scanned. *)
Lemma addRow_scanTable (t : Table) (quake : list string) :
  addRow t quake = (u ← scanTable t quake; runUpdate u t).
Proof.
  unfold addRow, scanTable.
  destruct (index quake 1) as [q1|]; [|reflexivity].
  destruct (index quake 2) as [q2|]; [|reflexivity].
  cbn [mbind result_bind].
  destruct (scanRows _ _ _ _ _ _) as [st|]; reflexivity.
Qed.

Lemma scanTable_runUpdate (t t' : Table) (quake : list string) (u : queuedUpdate) :
  scanTable t quake = Ok u -> runUpdate u t = Ok t' -> addRow t quake = Ok t'.
Proof. intros Hscan Hrun. now rewrite addRow_scanTable, Hscan. Qed.

Lemma addRow_Ok_scanTable (t t' : Table) (quake : list string) :
  addRow t quake = Ok t' ->
  exists u, scanTable t quake = Ok u /\ runUpdate u t = Ok t'.
Proof.
  rewrite addRow_scanTable. destruct (scanTable t quake) as [u|]; [|discriminate].
  intros Hrun. now exists u.
Qed.

(** What the scan leaves in the update it queues. *)
Lemma scanTable_spec (t : Table) (quake : list string) :
  (3 <= length quake)%nat ->
  exists u,
    scanTable t quake = Ok u /\
    qQuake u = quake /\
    qQuakeMag u = strconv_ParseFloat (default "" (quake !! 2%nat)) /\
    match findIndex (hasID (quakeID quake)) (dataRows t) with
    | Some p => updateNotInsert (qScan u) = true /\ atRow (qScan u) = S p
    | None =>
        updateNotInsert (qScan u) = false /\
        atRow (qScan u)
        = S (default 0%nat (findIndex (older (quakeTime quake)) (dataRows t)))
    end.
Proof.
  intros Hlen. destruct quake as [|q0 [|q1 [|q2 extra]]]; simpl in Hlen; try lia.
  set (quake := q0 :: q1 :: q2 :: extra).
  assert (Hrows : drop 1 t = dataRows t) by now destruct t.
  destruct (scanRows_spec t quake q0 (parseTime q1) eq_refl (dataRows t) 1
              scanStart Hrows) as [st [Hrun Hpost]].
  unfold scanTable.
  replace (GetRowCount t - 1)%nat with (length (dataRows t))
    by (unfold GetRowCount, dataRows; destruct t; simpl; lia).
  change (index quake 1) with (Ok q1). change (index quake 2) with (Ok q2).
  cbn [mbind result_bind]. rewrite Hrun. cbn [mbind result_bind].
  eexists. split; [reflexivity|]. cbn [qQuake qQuakeMag qScan].
  split; [reflexivity|]. split; [reflexivity|].
  change (quakeID quake) with q0. change (quakeTime quake) with (parseTime q1).
  destruct (findIndex (hasID q0) (dataRows t)) as [p|].
  - destruct Hpost as [-> ->]. split; reflexivity.
  - destruct Hpost as (-> & _ & ->). cbn [scanStart foundTime atRow updateNotInsert].
    split; [reflexivity|].
    destruct (findIndex (older (parseTime q1)) (dataRows t)); reflexivity.
Qed.

Lemma scanTable_Ok_length (t : Table) (quake : list string) (u : queuedUpdate) :
  scanTable t quake = Ok u -> (3 <= length quake)%nat.
Proof.
  unfold scanTable. destruct quake as [|q0 [|q1 [|q2 extra]]]; simpl; try discriminate.
  intros _. lia.
Qed.

Lemma scanTable_scanned (t : Table) (quake : list string) (u : queuedUpdate) :
  t <> [] -> scanTable t quake = Ok u ->
  qQuake u = quake /\ scanned (length t) u.
Proof.
  intros Ht Hscan. pose proof (scanTable_Ok_length _ _ _ Hscan) as Hlen.
  destruct (scanTable_spec t quake Hlen) as (u' & Hscan' & Hq & Hmag & Hpos).
  rewrite Hscan in Hscan'. injection Hscan' as <-.
  split; [exact Hq|]. unfold scanned. rewrite Hq. split; [exact Hmag|].
  destruct t as [|h rows]; [contradiction|]. cbn [dataRows tail length] in *.
  destruct (findIndex (hasID (quakeID quake)) rows) as [p|] eqn:Hp.
  - destruct Hpos as [Hupd ->]. apply findIndex_lt in Hp. repeat split; lia.
  - destruct Hpos as [Hupd ->].
    destruct (findIndex (older (quakeTime quake)) rows) as [k|] eqn:Hk; simpl.
    + apply findIndex_lt in Hk. repeat split; first [lia | congruence].
    + repeat split; first [lia | congruence].
Qed.

Lemma scanned_mono (n m : nat) (u : queuedUpdate) :
  (n <= m)%nat -> scanned n u -> scanned m u.
Proof. intros Hnm (Hmag & H1 & H2 & H3). repeat split; try assumption; try lia.
  intros H. specialize (H3 H). lia. Qed.

Lemma fits_mono (n m : nat) (u : queuedUpdate) :
  (n <= m)%nat -> fits n u -> fits m u.
Proof. intros Hnm (Hlen & H1 & H2 & H3). repeat split; try assumption; try lia.
  intros H. specialize (H3 H). lia. Qed.

Lemma scanned_fits (n : nat) (u : queuedUpdate) :
  longEnough (qQuake u) -> scanned n u -> fits n u.
Proof. intros Hlen (_ & H1 & H2 & H3). repeat split; assumption. Qed.

Lemma queuedCells_quakeCells (u : queuedUpdate) :
  qQuakeMag u = strconv_ParseFloat (default "" (qQuake u !! 2%nat)) ->
  queuedCells u = quakeCells (qQuake u).
Proof. intros H. unfold queuedCells, quakeCells. now rewrite H. Qed.

(** The queued update panics on the first column the display row does
    not have. *)
Lemma setCells_short (quake : list string) (quakeMag : float64) (row : nat) :
  forall (n column : nat) (t : Table),
    (length quake < column + n)%nat ->
    (column <= length quake)%nat ->
    setCells quake quakeMag row n column t = Panic.
Proof.
  induction n as [|n IH]; intros column t Hshort Hcol; [lia|].
  cbn [setCells]. unfold index.
  destruct (quake !! column) as [text|] eqn:Htext; [|reflexivity].
  cbn [mbind result_bind]. apply lookup_lt_Some in Htext. apply IH; lia.
Qed.

Lemma runUpdate_Ok_length (t t' : Table) (u : queuedUpdate) :
  runUpdate u t = Ok t' -> longEnough (qQuake u).
Proof.
  unfold runUpdate, longEnough. intros Hrun.
  destruct (le_lt_dec 5 (length (qQuake u))) as [Hlen|Hlen]; [exact Hlen|].
  rewrite setCells_short in Hrun by lia. discriminate.
Qed.

(** The first cell written past the last row makes the row. *)
Lemma SetCell_new_row (t : Table) (column : nat) (cell : TableCell) :
  SetCell t (length t) column cell = SetCell (t ++ [[]]) (length t) column cell.
Proof.
  unfold SetCell. rewrite length_app. cbn [length].
  destruct (Nat.leb_spec (length t) (length t)); [|lia].
  destruct (Nat.leb_spec (length t + 1) (length t)); [lia|].
  cbv zeta. now replace (length t - length t + 1)%nat with 1%nat by lia.
Qed.

Lemma setCells_new_row (t : Table) (quake : list string) (quakeMag : float64) :
  longEnough quake ->
  setCells quake quakeMag (length t) 5 0 t
  = setCells quake quakeMag (length t) 5 0 (t ++ [[]]).
Proof.
  unfold longEnough. intros Hlen.
  destruct quake as [|q0 quake]; [simpl in Hlen; lia|].
  cbn [setCells index lookup list_lookup mbind result_bind].
  now rewrite SetCell_new_row.
Qed.

(** What a queued update that fits the table does to it. *)
Lemma runUpdate_spec (h : list TableCell) (rows : list (list TableCell))
    (u : queuedUpdate) :
  fits (S (length rows)) u ->
  runUpdate u (h :: rows)
  = Ok (h :: if updateNotInsert (qScan u)
             then alter (fun r => queuedCells u ++ drop 5 r) (atRow (qScan u) - 1)%nat rows
             else take (atRow (qScan u) - 1)%nat rows
                  ++ queuedCells u :: drop (atRow (qScan u) - 1)%nat rows).
Proof.
  intros (Hlen & H1 & H2 & H3). unfold runUpdate, queuedCells.
  destruct u as [quake quakeMag [row found upd]].
  cbn [qQuake qQuakeMag qScan atRow updateNotInsert] in *.
  unfold longEnough in Hlen.
  destruct quake as [|q0 [|q1 [|q2 [|q3 [|q4 extra]]]]]; simpl in Hlen; try lia.
  destruct row as [|k]; [lia|]. replace (S k - 1)%nat with k by lia.
  destruct upd.
  - specialize (H3 eq_refl).
    destruct (lookup_lt_is_Some_2 rows k) as [r Hr]; [lia|].
    erewrite setCells_lookup; [|reflexivity|exact Hr].
    now rewrite (alter_lookup _ _ _ _ Hr).
  - unfold InsertRow. cbn [length].
    destruct (Nat.leb_spec (S (length rows)) (S k)) as [Hlast|Hmid].
    + assert (k = length rows) by lia. subst k.
      change (S (length rows)) with (length (h :: rows)).
      rewrite setCells_new_row by (unfold longEnough; simpl; lia).
      erewrite (setCells_lookup ((h :: rows) ++ [[]]) _ _ (length (h :: rows)) []);
        [|reflexivity|].
      * rewrite (take_ge rows), (drop_ge rows) by lia. cbn [app length].
        f_equal. simpl. f_equal. rewrite insert_app_r_alt by lia.
        now rewrite Nat.sub_diag.
      * now rewrite list_lookup_middle.
    + cbn [take drop app].
      erewrite (setCells_lookup (h :: take k rows ++ [] :: drop k rows) _ _ (S k) []);
        [|reflexivity|].
      * f_equal. simpl. f_equal. apply insert_take_drop. lia.
      * cbn [lookup list_lookup]. apply lookup_take_drop. lia.
Qed.

Lemma runUpdate_length (h : list TableCell) (rows : list (list TableCell))
    (u : queuedUpdate) :
  fits (S (length rows)) u ->
  exists rows',
    runUpdate u (h :: rows) = Ok (h :: rows') /\
    length rows'
    = (length rows + if updateNotInsert (qScan u) then 0 else 1)%nat.
Proof.
  intros Hfits. eexists. split; [now apply runUpdate_spec|].
  destruct (updateNotInsert (qScan u)).
  - rewrite length_alter. lia.
  - rewrite length_app. cbn [length]. rewrite length_take, length_drop.
    destruct Hfits as (_ & H1 & H2 & _). lia.
Qed.
(** ** One row per identifier *)

Lemma dataRows_upsert (t : Table) (quake : list string) :
  dataRows (upsert t quake) = upsertRows (dataRows t) quake.
Proof. reflexivity. Qed.

(** A run in step is a run of the display. *)
Lemma InStep_Running (t : Table) : InStep t -> Running t [].
Proof.
  induction 1 as [|t t' quake u _ IH Hscan Hrun].
  - constructor.
  - apply (running_update t t' u []); [|exact Hrun].
    exact (running_scan t [] quake u IH Hscan).
Qed.

Lemma InStep_header (t : Table) :
  InStep t -> exists rows, t = hd [] headerTable :: rows.
Proof.
  induction 1 as [|t t' quake u _ [rows ->] Hscan Hrun].
  - now exists [].
  - pose proof (scanTable_runUpdate _ _ _ _ Hscan Hrun) as Hadd.
    pose proof (addRow_Ok_length _ _ _ Hadd) as Hlen.
    rewrite (addRow_upsert _ _ Hlen) in Hadd. injection Hadd as <-.
    eexists. reflexivity.
Qed.

Lemma InStep_NoDup (t : Table) : InStep t -> NoDup (ids t).
Proof.
  induction 1 as [|t t' quake u _ IH Hscan Hrun].
  - constructor.
  - pose proof (scanTable_runUpdate _ _ _ _ Hscan Hrun) as Hadd.
    pose proof (addRow_Ok_length _ _ _ Hadd) as Hlen.
    rewrite (addRow_upsert _ _ Hlen) in Hadd. injection Hadd as <-.
    unfold ids. rewrite dataRows_upsert. now apply NoDup_ids_upsertRows.
Qed.

Lemma InStep_addRow (t t' : Table) (quake : list string) :
  InStep t -> addRow t quake = Ok t' -> InStep t'.
Proof.
  intros Hstep Hadd. destruct (addRow_Ok_scanTable _ _ _ Hadd) as (u & Hscan & Hrun).
  exact (instep_addRow t t' quake u Hstep Hscan Hrun).
Qed.

(** A fresh display row is queued as an insertion that fits the table. *)
Lemma scanTable_fresh (h : list TableCell) (rows : list (list TableCell))
    (quake : list string) :
  longEnough quake -> quakeID quake ∉ rowID <$> rows ->
  exists u,
    scanTable (h :: rows) quake = Ok u /\
    updateNotInsert (qScan u) = false /\
    queuedCells u = quakeCells quake /\
    fits (S (length rows)) u.
Proof.
  intros Hlen Hfresh. apply findIndex_hasID_None in Hfresh.
  destruct (scanTable_spec (h :: rows) quake) as (u & Hscan & Hq & Hmag & Hpos).
  { unfold longEnough in Hlen. lia. }
  cbn [dataRows tail] in Hpos. rewrite Hfresh in Hpos. destruct Hpos as [Hupd Hat].
  exists u. split; [exact Hscan|]. split; [exact Hupd|]. split.
  - rewrite queuedCells_quakeCells; rewrite Hq; [reflexivity | exact Hmag].
  - unfold fits. rewrite Hq, Hat, Hupd. split; [exact Hlen|].
    destruct (findIndex (older (quakeTime quake)) rows) as [k|] eqn:Hk; simpl.
    + apply findIndex_lt in Hk. repeat split; first [lia | congruence].
    + repeat split; first [lia | congruence].
Qed.

(** An identifier is displayed twice once a second row with it is
    inserted. *)
Lemma insert_duplicate (rows : list (list TableCell)) (r : list TableCell) (k : nat) :
  rowID r ∈ rowID <$> rows ->
  ~ NoDup (rowID <$> (take k rows ++ r :: drop k rows)).
Proof.
  intros Hin Hnd. rewrite <- (take_drop k rows) in Hin.
  rewrite fmap_app in Hin, Hnd. rewrite fmap_cons in Hnd.
  apply NoDup_app in Hnd as (_ & Hdisj & Hnd). apply NoDup_cons in Hnd as [Hr _].
  apply elem_of_app in Hin as [Hin|Hin].
  - apply (Hdisj _ Hin). now left.
  - contradiction.
Qed.

(** An identifier is displayed twice once its row is updated at the
    place it had before a row was inserted at or above it. *)
Lemma stale_update_duplicate (rows : list (list TableCell)) (r new cells : list TableCell)
    (k p : nat) :
  (k <= p)%nat -> rows !! p = Some r ->
  (forall rest, rowID (cells ++ rest) = rowID r) ->
  ~ NoDup (rowID <$> alter (fun r' => cells ++ drop 5 r') p
                       (take k rows ++ new :: drop k rows)).
Proof.
  intros Hkp Hr Hcells Hnd. pose proof (lookup_lt_Some _ _ _ Hr) as Hp.
  set (rows1 := take k rows ++ new :: drop k rows) in *.
  assert (Hbelow : rows1 !! S p = Some r).
  { unfold rows1. rewrite lookup_app_r by (rewrite length_take; lia).
    rewrite length_take. replace (S p - k `min` length rows)%nat with (S (p - k)) by lia.
    change ((new :: drop k rows) !! S (p - k)) with (drop k rows !! (p - k)%nat).
    rewrite lookup_drop. now replace (k + (p - k))%nat with p by lia. }
  destruct (lookup_lt_is_Some_2 rows1 p) as [x Hx].
  { apply lookup_lt_Some in Hbelow. lia. }
  assert (H1 : (rowID <$> alter (fun r' => cells ++ drop 5 r') p rows1) !! p
               = Some (rowID r)).
  { rewrite list_lookup_fmap, list_lookup_alter_eq, Hx. simpl. now rewrite Hcells. }
  assert (H2 : (rowID <$> alter (fun r' => cells ++ drop 5 r') p rows1) !! S p
               = Some (rowID r)).
  { rewrite list_lookup_fmap, list_lookup_alter_ne by lia. now rewrite Hbelow. }
  pose proof (NoDup_lookup _ _ _ _ Hnd H1 H2). lia.
Qed.

(** C3, as the code has it. In a run in step, where every update is run
    on the table its scan has read, no two data rows carry the same
    identifier, and the next call keeps it so: it overwrites the first
    five cells of the first row with the identifier of its display row,
    or inserts exactly one row when the identifier is fresh. The scan,
    though, is not part of the queued update. When the next call scans
    the table before the insertion of a fresh row has run, both updates
    run all the same, and an identifier has two rows: the fresh one,
    when the next call has it too and inserts it again; the one of the
    next call, when its row is at or below the insertion, which moves it
    from under the update. *)
Theorem one_row_per_identifier (t : Table) (quake : list string) :
  InStep t -> (5 <= length quake)%nat ->
  NoDup (ids t) /\
  (exists t',
      addRow t quake = Ok t' /\ InStep t' /\ NoDup (ids t') /\ hd [] t' = hd [] t /\
      (quakeID quake ∈ ids t ->
       exists p r,
         dataRows t !! p = Some r /\ rowID r = quakeID quake /\
         (forall j r', (j < p)%nat -> dataRows t !! j = Some r' ->
                       rowID r' <> quakeID quake) /\
         dataRows t' = <[p := quakeCells quake ++ drop 5 r]> (dataRows t)) /\
      (quakeID quake ∉ ids t ->
       exists k,
         (k <= length (dataRows t))%nat /\
         dataRows t' = take k (dataRows t) ++ quakeCells quake :: drop k (dataRows t))) /\
  (quakeID quake ∉ ids t ->
   forall quake',
     (5 <= length quake')%nat ->
     exists u u' t1 t2,
       scanTable t quake = Ok u /\ scanTable t quake' = Ok u' /\
       runUpdate u t = Ok t1 /\ runUpdate u' t1 = Ok t2 /\
       Running t2 [] /\
       (quakeID quake' = quakeID quake -> ~ NoDup (ids t2)) /\
       (quakeID quake' ∈ ids t ->
        (atRow (qScan u) <= atRow (qScan u'))%nat -> ~ NoDup (ids t2))).
Proof.
  intros Hstep Hlen. pose proof (InStep_NoDup t Hstep) as Hnd.
  split; [exact Hnd|]. split.
  - exists (upsert t quake). split; [now apply addRow_upsert|].
    split; [apply (InStep_addRow t _ quake Hstep); now apply addRow_upsert|].
    split; [unfold ids; rewrite dataRows_upsert; now apply NoDup_ids_upsertRows|].
    split; [reflexivity|]. rewrite dataRows_upsert. split.
    + intros Hin.
      destruct (findIndex (hasID (quakeID quake)) (dataRows t)) as [p|] eqn:Hp.
      2: { apply findIndex_hasID_None in Hp. contradiction. }
      destruct (findIndex_Some _ _ _ Hp) as [[r [Hr Hid]] Hfirst].
      exists p, r. split; [exact Hr|]. split; [now apply hasID_spec|]. split.
      * intros j r' Hj Hr' Heq. apply hasID_spec in Heq.
        specialize (Hfirst j r' Hj Hr'). congruence.
      * unfold upsertRows. rewrite Hp.
        exact (alter_lookup (fun r => quakeCells quake ++ drop 5 r) _ _ _ Hr).
    + intros Hfresh. apply findIndex_hasID_None in Hfresh.
      unfold upsertRows. rewrite Hfresh.
      destruct (findIndex (older (quakeTime quake)) (dataRows t)) as [k|] eqn:Hk.
      * exists k. split; [|reflexivity]. apply findIndex_lt in Hk. lia.
      * exists 0%nat. split; [lia|]. now rewrite take_0, drop_0.
  - intros Hfresh quake' Hlen'.
    pose proof (InStep_Running t Hstep) as Hrunning.
    destruct (InStep_header t Hstep) as [rows ->].
    set (h := hd [] headerTable) in *. unfold ids in Hfresh |- *.
    cbn [dataRows tail] in Hfresh |- *.
    destruct (scanTable_fresh h rows quake Hlen Hfresh)
      as (u & Hscan & Hupd & Hcells & Hfits).
    destruct (scanTable_spec (h :: rows) quake') as (u' & Hscan' & Hq' & Hmag' & Hpos');
      [lia|].
    destruct (scanTable_scanned (h :: rows) quake' u') as [_ Hscanned'];
      [discriminate | exact Hscan' |].
    assert (Hfits' : fits (S (length rows)) u').
    { apply scanned_fits; [now rewrite Hq' | exact Hscanned']. }
    assert (Hcells' : queuedCells u' = quakeCells quake').
    { rewrite queuedCells_quakeCells; rewrite Hq'; [reflexivity | exact Hmag']. }
    pose proof (runUpdate_spec h rows u Hfits) as Hrun. rewrite Hupd in Hrun.
    set (k := (atRow (qScan u) - 1)%nat) in Hrun.
    set (rows1 := take k rows ++ queuedCells u :: drop k rows) in Hrun.
    assert (Hgrown : length rows1 = S (length rows)).
    { unfold rows1, k. rewrite length_app. cbn [length].
      rewrite length_take, length_drop. destruct Hfits as (_ & H1 & H2 & _). lia. }
    assert (Hfits1 : fits (S (length rows1)) u') by (eapply fits_mono; [|exact Hfits']; lia).
    pose proof (runUpdate_spec h rows1 u' Hfits1) as Hrun'.
    eexists u, u', _, _. split; [exact Hscan|]. split; [exact Hscan'|].
    split; [exact Hrun|]. split; [exact Hrun'|]. split; [|split].
    + apply (running_update _ _ u' [] (running_update _ _ u [u']
               (running_scan _ _ quake' u'
                  (running_scan _ _ quake u Hrunning Hscan) Hscan') Hrun) Hrun').
    + intros Hid. cbn [dataRows tail] in Hpos' |- *.
      rewrite Hid in Hpos'. rewrite (proj2 (findIndex_hasID_None _ _) Hfresh) in Hpos'.
      destruct Hpos' as [-> _]. apply insert_duplicate.
      rewrite Hcells', (rowID_quakeCells_new _ Hlen'), Hid.
      unfold rows1. rewrite fmap_app, fmap_cons, Hcells, (rowID_quakeCells_new _ Hlen).
      apply elem_of_app. right. now left.
    + intros Hin Hrow. cbn [dataRows tail] in Hpos' |- *.
      destruct (findIndex (hasID (quakeID quake')) rows) as [p|] eqn:Hp.
      2: { apply findIndex_hasID_None in Hp. contradiction. }
      destruct Hpos' as [-> Hat']. rewrite Hat'. replace (S p - 1)%nat with p by lia.
      destruct (findIndex_Some _ _ _ Hp) as [[r [Hr Hid]] _]. apply hasID_spec in Hid.
      unfold rows1. apply (stale_update_duplicate rows r).
      * unfold k. lia.
      * exact Hr.
      * intros rest. rewrite Hcells', Hid. now apply rowID_quakeCells.
Qed.

(** ** Newest first *)

#[local] Instance Zge_trans : Transitive Z.ge.
Proof. intros x y z. lia. Qed.

Lemma descending_strong (l : list Time) : descending l <-> StronglySorted Z.ge l.
Proof.
  split; [apply Sorted_StronglySorted; apply _ | apply StronglySorted_Sorted].
Qed.

Lemma strong_insert (l1 l2 : list Time) (x : Time) :
  StronglySorted Z.ge (l1 ++ l2) ->
  Forall (fun a => x <= a) l1 -> Forall (fun b => b <= x) l2 ->
  StronglySorted Z.ge (l1 ++ x :: l2).
Proof.
  rewrite !StronglySorted_app, StronglySorted_cons, !Forall_forall.
  intros (Hcross & H1 & H2) Ha Hb. repeat split; try assumption.
  - intros a b Hin1 Hin2. apply elem_of_cons in Hin2 as [->|Hin2].
    + specialize (Ha a Hin1). lia.
    + now apply Hcross.
  - intros b Hin. specialize (Hb b Hin). lia.
Qed.

Lemma strong_remove (l1 l2 : list Time) (x : Time) :
  StronglySorted Z.ge (l1 ++ x :: l2) -> StronglySorted Z.ge (l1 ++ l2).
Proof.
  rewrite !StronglySorted_app, StronglySorted_cons.
  intros (Hcross & H1 & _ & H2). repeat split; try assumption.
  intros a b Hin1 Hin2. apply Hcross; [assumption|]. apply elem_of_cons. now right.
Qed.

Lemma older_false (tq : Time) (r : list TableCell) :
  older tq r = false <-> tq <= rowTime r.
Proof. unfold older, Before. rewrite Z.ltb_ge. reflexivity. Qed.

Lemma older_true (tq : Time) (r : list TableCell) :
  older tq r = true <-> rowTime r < tq.
Proof. unfold older, Before. apply Z.ltb_lt. Qed.

(** One upsert that keeps the order leaves the rows newest first. *)
Lemma descending_upsertRows (t : Table) (quake : list string) :
  (5 <= length quake)%nat ->
  descending (times t) -> keepsOrder t quake ->
  descending (times (upsert t quake)).
Proof.
  unfold times, keepsOrder. rewrite dataRows_upsert. generalize (dataRows t) as rows.
  intros rows Hlen Hsorted Hkeeps. apply descending_strong in Hsorted.
  apply descending_strong.
  destruct (findIndex (hasID (quakeID quake)) rows) as [p|] eqn:Hp.
  - destruct (upsertRows_found _ _ _ Hp) as (l1 & r & l2 & -> & Hl & _ & _ & ->).
    destruct Hkeeps as [Habove Hbelow]. subst p.
    rewrite take_app_length in Habove. rewrite drop_S_middle in Hbelow.
    rewrite fmap_app, fmap_cons in *.
    rewrite rowTime_quakeCells by assumption.
    apply strong_insert.
    + eapply strong_remove; eassumption.
    + apply Forall_fmap. eapply Forall_impl; [exact Habove|]. now intros.
    + apply Forall_fmap. eapply Forall_impl; [exact Hbelow|]. now intros.
  - destruct (upsertRows_fresh _ _ Hp)
      as [(l1 & r & l2 & -> & _ & Hr & Hall & ->) | (Hnone & Hall & ->)].
    + rewrite fmap_app, !fmap_cons in *.
      rewrite rowTime_quakeCells_new by assumption.
      apply strong_insert; [assumption| |].
      * apply Forall_fmap. eapply Forall_impl; [exact Hall|].
        intros a Ha. now apply older_false.
      * apply older_true in Hr.
        apply StronglySorted_app_1_r, StronglySorted_cons in Hsorted as [Hle _].
        constructor; [lia|].
        eapply Forall_impl; [exact Hle|]. intros b Hb. cbv beta in *. lia.
    + rewrite fmap_cons, rowTime_quakeCells_new by assumption.
      apply StronglySorted_cons. split; [|assumption].
      destruct Hkeeps as [Hex|Hle].
      * exfalso. apply Exists_exists in Hex as (r & Hin & Hlt).
        rewrite Forall_forall in Hall. specialize (Hall r Hin).
        apply older_false in Hall. lia.
      * apply Forall_fmap. eapply Forall_impl; [exact Hle|].
        intros a Ha. unfold compose. cbv beta in Ha. lia.
Qed.

(** On rows that are newest first, [keepsOrder] is exactly what one
    upsert needs to leave them so. *)
Lemma keepsOrder_exact (t : Table) (quake : list string) :
  (5 <= length quake)%nat ->
  descending (times t) ->
  descending (times (upsert t quake)) <-> keepsOrder t quake.
Proof.
  intros Hlen Hsorted. split; [|now apply descending_upsertRows].
  unfold times, keepsOrder. rewrite dataRows_upsert. generalize (dataRows t) as rows.
  intros rows Hafter. apply descending_strong in Hafter.
  destruct (findIndex (hasID (quakeID quake)) rows) as [p|] eqn:Hp.
  - destruct (upsertRows_found _ _ _ Hp) as (l1 & r & l2 & -> & Hl & _ & _ & Hup).
    rewrite Hup in Hafter. subst p.
    rewrite take_app_length, drop_S_middle.
    rewrite fmap_app, fmap_cons, rowTime_quakeCells in Hafter by assumption.
    apply StronglySorted_app in Hafter as (Hcross & _ & Hbelow).
    apply StronglySorted_cons in Hbelow as [Hbelow _]. split.
    + apply Forall_forall. intros a Ha.
      assert (rowTime a >= quakeTime quake); [|lia].
      apply Hcross; [|apply elem_of_cons; now left].
      apply list_elem_of_fmap. eauto.
    + apply (proj1 (Forall_fmap rowTime _ l2)) in Hbelow.
      eapply Forall_impl; [exact Hbelow|].
      intros b Hb. unfold compose in Hb. lia.
  - destruct (upsertRows_fresh _ _ Hp)
      as [(l1 & r & l2 & -> & _ & Hr & _ & _) | (_ & _ & Hup)].
    + left. apply Exists_exists. exists r. split; [|now apply older_true].
      apply elem_of_app. right. apply elem_of_cons. now left.
    + right. rewrite Hup, fmap_cons, rowTime_quakeCells_new in Hafter by assumption.
      apply StronglySorted_cons in Hafter as [Hle _].
      apply (proj1 (Forall_fmap rowTime _ rows)) in Hle.
      eapply Forall_impl; [exact Hle|].
      intros b Hb. unfold compose in Hb. lia.
Qed.

(** C1, amended. Through every run in step, where every update is run
    on the table its scan has read, whose display rows each keep the
    order of the table they meet ([keepsOrder]), the data rows are
    newest first after each call: their parsed timestamps never increase
    from top to bottom. *)
Theorem newest_first (t : Table) : InStepInOrder t -> descending (times t).
Proof.
  induction 1 as [|t t' quake u _ IH Hkeeps Hscan Hrun].
  - constructor.
  - pose proof (scanTable_runUpdate _ _ _ _ Hscan Hrun) as Hadd.
    pose proof (addRow_Ok_length _ _ _ Hadd) as Hlen.
    rewrite (addRow_upsert _ _ Hlen) in Hadd. injection Hadd as <-.
    now apply descending_upsertRows.
Qed.

(** Such a run is a run of the display. *)
Lemma InStepInOrder_Running (t : Table) : InStepInOrder t -> Running t [].
Proof.
  induction 1 as [|t t' quake u _ IH _ Hscan Hrun].
  - constructor.
  - apply (running_update t t' u []); [|exact Hrun].
    exact (running_scan t [] quake u IH Hscan).
Qed.

(** ** Upserting twice *)

Lemma find_skip {A : Type} (f : A -> bool) (l1 l2 : list A) (x : A) :
  f x = false -> List.find f (l1 ++ x :: l2) = List.find f (l1 ++ l2).
Proof.
  intros Hx. induction l1 as [|y l1 IH]; simpl; [now rewrite Hx|].
  now rewrite IH.
Qed.

Lemma find_first {A : Type} (f : A -> bool) (l1 l2 : list A) (x : A) :
  Forall (fun y => f y = false) l1 -> f x = true ->
  List.find f (l1 ++ x :: l2) = Some x.
Proof.
  intros Hall Hx. induction Hall as [|y l1 Hy _ IH]; simpl; [now rewrite Hx|].
  now rewrite Hy.
Qed.

Lemma find_split {A : Type} (f : A -> bool) (l : list A) (x : A) :
  List.find f l = Some x ->
  exists l1 l2, l = l1 ++ x :: l2 /\ Forall (fun y => f y = false) l1 /\ f x = true.
Proof.
  induction l as [|y l IH]; simpl; [discriminate|].
  destruct (f y) eqn:Hy.
  - intros [= ->]. exists [], l. auto.
  - intros H. destruct (IH H) as (l1 & l2 & -> & Hall & Hx).
    exists (y :: l1), l2. auto.
Qed.

Lemma findIndex_ids (id : string) (rows1 rows2 : list (list TableCell)) :
  rowID <$> rows1 = rowID <$> rows2 ->
  findIndex (hasID id) rows1 = findIndex (hasID id) rows2.
Proof.
  revert rows2. induction rows1 as [|r1 rows1 IH]; intros [|r2 rows2] H;
    simpl in H; try discriminate; [reflexivity|].
  injection H as Hr Hrest. simpl. unfold hasID at 1 3. rewrite Hr.
  now rewrite (IH rows2 Hrest).
Qed.

Lemma upsertRows_alter (rows : list (list TableCell)) (quake : list string) (p : nat) :
  findIndex (hasID (quakeID quake)) rows = Some p ->
  upsertRows rows quake = alter (fun r => quakeCells quake ++ drop 5 r) p rows.
Proof. intros H. unfold upsertRows. now rewrite H. Qed.

Lemma ids_upsertRows_found (rows : list (list TableCell)) (quake : list string) (p : nat) :
  (5 <= length quake)%nat ->
  findIndex (hasID (quakeID quake)) rows = Some p ->
  rowID <$> upsertRows rows quake = rowID <$> rows.
Proof.
  intros Hlen Hp. pose proof (ids_upsertRows rows quake Hlen) as H.
  now rewrite Hp in H.
Qed.

Lemma ids_upsertRows_mono (rows : list (list TableCell)) (quake : list string)
    (id : string) :
  (5 <= length quake)%nat ->
  id ∈ rowID <$> rows -> id ∈ rowID <$> upsertRows rows quake.
Proof.
  intros Hlen Hin. pose proof (ids_upsertRows rows quake Hlen) as H.
  destruct (findIndex (hasID (quakeID quake)) rows).
  - now rewrite H.
  - destruct H as (l1 & l2 & -> & ->). rewrite fmap_app in Hin.
    apply elem_of_app in Hin as [Hin|Hin]; apply elem_of_app; [now left|right].
    apply elem_of_cons. now right.
Qed.

Lemma ids_upsertRows_self (rows : list (list TableCell)) (quake : list string) :
  (5 <= length quake)%nat ->
  quakeID quake ∈ rowID <$> upsertRows rows quake.
Proof.
  intros Hlen. pose proof (ids_upsertRows rows quake Hlen) as H.
  destruct (findIndex (hasID (quakeID quake)) rows) as [p|] eqn:Hp.
  - rewrite H. destruct (findIndex_Some _ _ _ Hp) as [[r [Hr Hid]] _].
    apply hasID_spec in Hid. rewrite <- Hid.
    apply list_elem_of_fmap. exists r. split; [reflexivity|].
    eapply list_elem_of_lookup_2; eassumption.
  - destruct H as (l1 & l2 & _ & ->). apply elem_of_app. right.
    apply elem_of_cons. now left.
Qed.

Lemma findIndex_present (id : string) (rows : list (list TableCell)) :
  id ∈ rowID <$> rows -> exists p, findIndex (hasID id) rows = Some p.
Proof.
  intros Hin. destruct (findIndex (hasID id) rows) as [p|] eqn:Hp; [eauto|].
  apply findIndex_hasID_None in Hp. contradiction.
Qed.

(** Two upserts of one displayed identifier: the second one wins. *)
Lemma upsertRows_same_id (rows : list (list TableCell)) (quake quake' : list string) :
  (5 <= length quake)%nat -> (5 <= length quake')%nat ->
  quakeID quake = quakeID quake' ->
  quakeID quake ∈ rowID <$> rows ->
  upsertRows (upsertRows rows quake') quake = upsertRows rows quake.
Proof.
  intros Hlen Hlen' Hid Hin. destruct (findIndex_present _ _ Hin) as [p Hp].
  assert (Hp' : findIndex (hasID (quakeID quake')) rows = Some p) by now rewrite <- Hid.
  assert (Hp2 : findIndex (hasID (quakeID quake)) (upsertRows rows quake') = Some p).
  { rewrite <- Hp. apply findIndex_ids. now apply (ids_upsertRows_found _ _ p). }
  rewrite (upsertRows_alter _ _ _ Hp2), (upsertRows_alter _ _ _ Hp'),
    (upsertRows_alter _ _ _ Hp).
  rewrite list_alter_alter_eq. apply list_alter_ext; [|reflexivity].
  intros r _. unfold compose. now rewrite drop_5_quakeCells.
Qed.

(** Two upserts of two displayed identifiers commute. *)
Lemma upsertRows_comm (rows : list (list TableCell)) (quake quake' : list string) :
  (5 <= length quake)%nat -> (5 <= length quake')%nat ->
  quakeID quake <> quakeID quake' ->
  quakeID quake ∈ rowID <$> rows -> quakeID quake' ∈ rowID <$> rows ->
  upsertRows (upsertRows rows quake') quake
  = upsertRows (upsertRows rows quake) quake'.
Proof.
  intros Hlen Hlen' Hid Hin Hin'.
  destruct (findIndex_present _ _ Hin) as [p Hp].
  destruct (findIndex_present _ _ Hin') as [p' Hp'].
  assert (Hp2 : findIndex (hasID (quakeID quake)) (upsertRows rows quake') = Some p).
  { rewrite <- Hp. apply findIndex_ids. now apply (ids_upsertRows_found _ _ p'). }
  assert (Hp2' : findIndex (hasID (quakeID quake')) (upsertRows rows quake) = Some p').
  { rewrite <- Hp'. apply findIndex_ids. now apply (ids_upsertRows_found _ _ p). }
  rewrite (upsertRows_alter _ _ _ Hp2), (upsertRows_alter _ _ _ Hp2'),
    (upsertRows_alter _ _ _ Hp), (upsertRows_alter _ _ _ Hp').
  apply list_alter_alter_ne.
  destruct (findIndex_Some _ _ _ Hp) as [[r [Hr Hidr]] _].
  destruct (findIndex_Some _ _ _ Hp') as [[r' [Hr' Hidr']] _].
  intros ->. rewrite Hr in Hr'. injection Hr' as ->.
  apply hasID_spec in Hidr, Hidr'. congruence.
Qed.

Lemma ids_foldl_mono (usgsQuakeList : list (list string))
    (rows : list (list TableCell)) (id : string) :
  Forall longEnough usgsQuakeList ->
  id ∈ rowID <$> rows -> id ∈ rowID <$> foldl upsertRows rows usgsQuakeList.
Proof.
  intros Hall. revert rows. induction Hall as [|quake rest Hq _ IH]; intros rows Hin.
  - exact Hin.
  - simpl. apply IH. now apply ids_upsertRows_mono.
Qed.

(** An upsert is forgotten once its identifier is upserted again. *)
Lemma foldl_upsertRows_absorb (usgsQuakeList : list (list string))
    (rows : list (list TableCell)) (quake : list string) :
  Forall longEnough usgsQuakeList -> longEnough quake ->
  quakeID quake ∈ quakeID <$> usgsQuakeList ->
  quakeID quake ∈ rowID <$> rows ->
  Forall (fun quake' => quakeID quake' ∈ rowID <$> rows) usgsQuakeList ->
  foldl upsertRows (upsertRows rows quake) usgsQuakeList
  = foldl upsertRows rows usgsQuakeList.
Proof.
  intros Hall Hlen. revert rows.
  induction Hall as [|quake' rest Hq' _ IH]; intros rows Hin Hrow Hrows.
  - now apply elem_of_nil in Hin.
  - simpl. apply Forall_cons in Hrows as [Hrow' Hrows].
    destruct (decide (quakeID quake' = quakeID quake)) as [Heq|Hne].
    + now rewrite upsertRows_same_id by assumption.
    + rewrite (upsertRows_comm rows quake' quake) by assumption.
      apply IH.
      * rewrite fmap_cons in Hin. apply elem_of_cons in Hin as [Hin|Hin];
          [congruence | assumption].
      * now apply ids_upsertRows_mono.
      * eapply Forall_impl; [exact Hrows|]. intros q Hq.
        now apply ids_upsertRows_mono.
Qed.

Lemma shows_upsertRows_self (rows : list (list TableCell)) (quake : list string) :
  longEnough quake -> shows quake (upsertRows rows quake).
Proof.
  intros Hlen. unfold shows.
  destruct (findIndex (hasID (quakeID quake)) rows) as [p|] eqn:Hp.
  - destruct (upsertRows_found _ _ _ Hp) as (l1 & r & l2 & _ & _ & _ & Hall & ->).
    exists (quakeCells quake ++ drop 5 r). split.
    + apply find_first; [assumption|]. apply hasID_spec.
      now apply rowID_quakeCells.
    + now rewrite drop_5_quakeCells.
  - pose proof (findIndex_None _ _ Hp) as Hnone.
    exists (quakeCells quake). split.
    + destruct (upsertRows_fresh _ _ Hp)
        as [(l1 & r & l2 & -> & _ & _ & _ & ->) | (_ & _ & ->)].
      * apply find_first; [now apply Forall_app in Hnone as [? _]|].
        apply hasID_spec. now apply rowID_quakeCells_new.
      * apply (find_first _ []); [constructor|].
        apply hasID_spec. now apply rowID_quakeCells_new.
    + rewrite <- (app_nil_r (quakeCells quake)) at 2.
      rewrite drop_5_quakeCells by assumption. apply app_nil_r.
Qed.

Lemma hasID_other (id id' : string) (r : list TableCell) :
  id <> id' -> hasID id' r = true -> hasID id r = false.
Proof.
  intros Hne Hr. apply hasID_spec in Hr.
  destruct (hasID id r) eqn:E; [|reflexivity].
  apply hasID_spec in E. congruence.
Qed.

Lemma find_upsertRows_other (rows : list (list TableCell)) (quake : list string)
    (id : string) :
  longEnough quake -> id <> quakeID quake ->
  List.find (hasID id) (upsertRows rows quake) = List.find (hasID id) rows.
Proof.
  intros Hlen Hne.
  assert (Hnew : forall rest, hasID id (quakeCells quake ++ rest) = false).
  { intros rest. eapply hasID_other; [exact Hne|]. apply hasID_spec.
    now apply rowID_quakeCells. }
  destruct (findIndex (hasID (quakeID quake)) rows) as [p|] eqn:Hp.
  - destruct (upsertRows_found _ _ _ Hp) as (l1 & r & l2 & -> & _ & Hr & _ & ->).
    rewrite !find_skip; [reflexivity| |apply Hnew].
    eapply hasID_other; eassumption.
  - specialize (Hnew []). rewrite app_nil_r in Hnew.
    destruct (upsertRows_fresh _ _ Hp)
      as [(l1 & r & l2 & -> & _ & _ & _ & ->) | (_ & _ & ->)].
    + now rewrite find_skip.
    + simpl. now rewrite Hnew.
Qed.

Lemma shows_upsertRows_other (rows : list (list TableCell)) (quake quake' : list string) :
  longEnough quake' -> quakeID quake <> quakeID quake' ->
  shows quake rows -> shows quake (upsertRows rows quake').
Proof.
  intros Hlen Hne (r & Hfind & Hr). exists r. split; [|exact Hr].
  now rewrite find_upsertRows_other.
Qed.

Lemma shows_fixed (rows : list (list TableCell)) (quake : list string) :
  shows quake rows -> upsertRows rows quake = rows.
Proof.
  intros (r & Hfind & Hr).
  destruct (find_split _ _ _ Hfind) as (l1 & l2 & -> & Hall & Hid).
  rewrite (upsertRows_alter _ _ (length l1)) by now apply findIndex_app_found.
  rewrite (alter_middle (fun r => quakeCells quake ++ drop 5 r)). now rewrite Hr.
Qed.

Lemma shows_foldl (usgsQuakeList : list (list string))
    (rows : list (list TableCell)) (quake : list string) :
  Forall longEnough usgsQuakeList ->
  quakeID quake ∉ quakeID <$> usgsQuakeList ->
  shows quake rows -> shows quake (foldl upsertRows rows usgsQuakeList).
Proof.
  intros Hall. revert rows. induction Hall as [|quake' rest Hq' _ IH];
    intros rows Hnot Hshows; [exact Hshows|].
  simpl. rewrite fmap_cons in Hnot. apply not_elem_of_cons in Hnot as [Hne Hnot].
  apply IH; [assumption|]. now apply shows_upsertRows_other.
Qed.

(** After a pass, the rows display the last display row of every
    identifier of the pass. *)
Lemma foldl_upsertRows_shows (usgsQuakeList l1 l2 : list (list string))
    (rows : list (list TableCell)) (quake : list string) :
  Forall longEnough usgsQuakeList ->
  usgsQuakeList = l1 ++ quake :: l2 ->
  quakeID quake ∉ quakeID <$> l2 ->
  shows quake (foldl upsertRows rows usgsQuakeList).
Proof.
  intros Hall -> Hlast. apply Forall_app in Hall as [_ Hall].
  apply Forall_cons in Hall as [Hq Hall].
  rewrite foldl_app. simpl. apply shows_foldl; [assumption..|].
  now apply shows_upsertRows_self.
Qed.

Lemma foldl_upsertRows_ids (usgsQuakeList : list (list string))
    (rows : list (list TableCell)) :
  Forall longEnough usgsQuakeList ->
  Forall (fun quake => quakeID quake ∈ rowID <$> foldl upsertRows rows usgsQuakeList)
         usgsQuakeList.
Proof.
  intros Hall. revert rows. induction Hall as [|quake rest Hq Hall IH]; intros rows.
  - constructor.
  - simpl. constructor; [|apply IH].
    apply ids_foldl_mono; [assumption|]. now apply ids_upsertRows_self.
Qed.

(** A pass over rows that already display it changes nothing. *)
Lemma foldl_upsertRows_fixed (usgsQuakeList : list (list string))
    (rows : list (list TableCell)) :
  Forall longEnough usgsQuakeList ->
  Forall (fun quake => quakeID quake ∈ rowID <$> rows) usgsQuakeList ->
  (forall l1 quake l2,
      usgsQuakeList = l1 ++ quake :: l2 ->
      quakeID quake ∉ quakeID <$> l2 -> shows quake rows) ->
  foldl upsertRows rows usgsQuakeList = rows.
Proof.
  intros Hall. induction Hall as [|quake rest Hq Hall IH]; intros Hids Hshows.
  - reflexivity.
  - simpl. apply Forall_cons in Hids as [Hid Hids].
    assert (Hrest : foldl upsertRows rows rest = rows).
    { apply IH; [assumption|]. intros l1 q l2 -> Hlast.
      now apply (Hshows (quake :: l1) q l2). }
    destruct (decide (quakeID quake ∈ quakeID <$> rest)) as [Hin|Hnot].
    + now rewrite foldl_upsertRows_absorb.
    + rewrite shows_fixed; [exact Hrest|]. now apply (Hshows [] quake rest).
Qed.

(** Idempotence of a pass, on the data rows. *)
Lemma foldl_upsertRows_twice (usgsQuakeList : list (list string))
    (rows : list (list TableCell)) :
  Forall longEnough usgsQuakeList ->
  foldl upsertRows (foldl upsertRows rows usgsQuakeList) usgsQuakeList
  = foldl upsertRows rows usgsQuakeList.
Proof.
  intros Hall. apply foldl_upsertRows_fixed; [assumption| |].
  - now apply foldl_upsertRows_ids.
  - intros l1 quake l2 Heq Hlast. now apply (foldl_upsertRows_shows _ l1 l2).
Qed.

Lemma foldl_upsert_rows (usgsQuakeList : list (list string))
    (h : list TableCell) (rows : list (list TableCell)) :
  foldl upsert (h :: rows) usgsQuakeList
  = h :: foldl upsertRows rows usgsQuakeList.
Proof.
  revert rows. induction usgsQuakeList as [|quake rest IH]; intros rows; simpl.
  - reflexivity.
  - unfold upsert at 2. simpl. apply IH.
Qed.

(** Idempotence of a pass, on the table. *)
Lemma foldl_upsert_twice (usgsQuakeList : list (list string)) (t : Table) :
  Forall longEnough usgsQuakeList ->
  foldl upsert (foldl upsert t usgsQuakeList) usgsQuakeList
  = foldl upsert t usgsQuakeList.
Proof.
  intros Hall. destruct usgsQuakeList as [|quake rest]; [reflexivity|].
  assert (Hfirst : foldl upsert t (quake :: rest)
                   = hd [] t :: foldl upsertRows (dataRows t) (quake :: rest)).
  { simpl. unfold upsert at 2. now rewrite foldl_upsert_rows. }
  rewrite Hfirst, foldl_upsert_rows. f_equal.
  now apply foldl_upsertRows_twice.
Qed.

(** ** reconcile *)

Lemma insert_middle {A : Type} (l1 l2 : list A) (x y : A) :
  <[length l1 := y]> (l1 ++ x :: l2) = l1 ++ y :: l2.
Proof. induction l1 as [|z l1 IH]; simpl; [reflexivity | now f_equal]. Qed.

(** One iteration of the swap loop. *)
Lemma reverseFeatures_step (i : nat) (l1 m l2 : list geoJsonFeature)
    (a b : geoJsonFeature) :
  length l1 = i -> length l2 = i ->
  reverseFeatures (S i) (l1 ++ a :: m ++ b :: l2)
  = reverseFeatures i (l1 ++ b :: m ++ a :: l2).
Proof.
  intros <- H2. cbn [reverseFeatures].
  assert (Hopp : (length (l1 ++ a :: m ++ b :: l2) - 1 - length l1
                  = length (l1 ++ a :: m))%nat).
  { rewrite !length_app. simpl. rewrite !length_app. simpl. lia. }
  rewrite Hopp. unfold index.
  rewrite (list_lookup_middle l1 (m ++ b :: l2) a (length l1)) by reflexivity.
  assert (Hassoc : forall x y, l1 ++ x :: m ++ y :: l2 = (l1 ++ x :: m) ++ y :: l2).
  { intros x y. now rewrite <- app_assoc. }
  rewrite (Hassoc a b).
  rewrite (list_lookup_middle (l1 ++ a :: m) l2 b) by reflexivity.
  cbn [mbind result_bind]. rewrite <- (Hassoc a b).
  rewrite insert_middle, (Hassoc b b).
  replace (length (l1 ++ a :: m)) with (length (l1 ++ b :: m))
    by (rewrite !length_app; reflexivity).
  now rewrite insert_middle, <- (Hassoc b a).
Qed.

(** The swap loop over the outer [n] positions of each end. *)
Lemma reverseFeatures_spec (n : nat) (l1 m l2 : list geoJsonFeature) :
  length l1 = n -> length l2 = n ->
  reverseFeatures n (l1 ++ m ++ l2) = Ok (reverse l2 ++ m ++ reverse l1).
Proof.
  revert l1 m l2. induction n as [|i IH]; intros l1 m l2 H1 H2.
  - destruct l1, l2; try discriminate. cbn. now rewrite !app_nil_r.
  - destruct l1 as [|a l1 _] using rev_ind; [discriminate|].
    destruct l2 as [|b l2]; [discriminate|].
    rewrite length_app in H1. simpl in H1, H2.
    assert (Hl1 : length l1 = i) by lia.
    assert (Hl2 : length l2 = i) by lia.
    replace ((l1 ++ [a]) ++ m ++ b :: l2) with (l1 ++ a :: m ++ b :: l2)
      by now rewrite <- app_assoc.
    rewrite (reverseFeatures_step i l1 m l2 a b Hl1 Hl2).
    replace (l1 ++ b :: m ++ a :: l2) with (l1 ++ (b :: m ++ [a]) ++ l2)
      by (simpl; now rewrite <- app_assoc).
    rewrite (IH l1 (b :: m ++ [a]) l2 Hl1 Hl2).
    rewrite reverse_cons, reverse_app. simpl.
    now rewrite <- !app_assoc.
Qed.

(** The loop of [getQuakeList] reverses the feature list. *)
Lemma reverseFeatures_reverse (features : list geoJsonFeature) :
  reverseFeatures (length features / 2) features = Ok (reverse features).
Proof.
  remember (length features / 2)%nat as n eqn:Hn0.
  assert (Hn : (2 * n <= length features)%nat).
  { subst n. pose proof (Nat.Div0.mul_div_le (length features) 2). lia. }
  assert (Hmid : (length features - 2 * n <= 1)%nat).
  { subst n. pose proof (Nat.div_mod_eq (length features) 2).
    pose proof (Nat.mod_upper_bound (length features) 2). lia. }
  assert (exists l1 m l2,
             features = l1 ++ m ++ l2 /\ length l1 = n /\ length l2 = n /\
             (length m <= 1)%nat) as (l1 & m & l2 & Hsplit & H1 & H2 & Hm).
  { exists (take n features), (take (length features - 2 * n) (drop n features)),
      (drop (length features - n) features).
    repeat split.
    - rewrite <- (take_drop n features) at 1. f_equal.
      rewrite <- (take_drop (length features - 2 * n) (drop n features)) at 1.
      f_equal. rewrite drop_drop. f_equal. lia.
    - rewrite length_take. lia.
    - rewrite length_drop. lia.
    - rewrite length_take. lia. }
  clear Hn0 Hn Hmid. subst features.
  rewrite (reverseFeatures_spec n l1 m l2 H1 H2).
  assert (reverse m = m) as Hrev.
  { destruct m as [|x [|y m']]; simpl in *; try reflexivity; lia. }
  now rewrite !reverse_app, Hrev, <- app_assoc.
Qed.

Lemma rangeFeatures_spec (features : list geoJsonFeature)
    (quakeList : gmap string geoJsonFeature) (usgsQuakeList : list (list string)) :
  rangeFeatures features quakeList usgsQuakeList
  = (foldl (fun store y => <[ID y := y]> store) quakeList features,
     usgsQuakeList ++ (quakeRow <$> features)).
Proof.
  revert quakeList usgsQuakeList.
  induction features as [|y rest IH]; intros quakeList usgsQuakeList; simpl.
  - now rewrite app_nil_r.
  - rewrite IH. now rewrite <- app_assoc.
Qed.

(** [reconcile] never panics: its store and rows. *)
Lemma reconcile_spec (data : geoJson) (quakeList : gmap string geoJsonFeature) :
  reconcile data quakeList
  = Ok (foldl (fun store y => <[ID y := y]> store) quakeList (reverse (Features data)),
        quakeRow <$> reverse (Features data)).
Proof.
  unfold reconcile. rewrite reverseFeatures_reverse. cbn [mbind result_bind].
  now rewrite rangeFeatures_spec.
Qed.

(** C4. For every snapshot, the loop of [getQuakeList] turns the
    feature list into its exact reversal, and [reconcile] returns one
    display row per feature, in that reversed order (oldest first for a
    feed that is newest first). *)
Theorem reconcile_reverses (data : geoJson) (quakeList : gmap string geoJsonFeature) :
  reverseFeatures (length (Features data) / 2) (Features data)
  = Ok (reverse (Features data)) /\
  exists quakeList',
    reconcile data quakeList
    = Ok (quakeList', quakeRow <$> reverse (Features data)) /\
    length (quakeRow <$> reverse (Features data)) = length (Features data).
Proof.
  split; [apply reverseFeatures_reverse|].
  eexists. split; [apply reconcile_spec|].
  now rewrite length_fmap, length_reverse.
Qed.

(** ** The store *)

Lemma find_app {A : Type} (f : A -> bool) (l1 l2 : list A) :
  List.find f (l1 ++ l2)
  = match List.find f l1 with
    | Some x => Some x
    | None => List.find f l2
    end.
Proof.
  induction l1 as [|y l1 IH]; simpl; [reflexivity|]. now destruct (f y).
Qed.

Lemma store_lookup (features : list geoJsonFeature)
    (quakeList : gmap string geoJsonFeature) (id : string) :
  foldl (fun store y => <[ID y := y]> store) quakeList features !! id
  = match List.find (fun y => String.eqb (ID y) id) (reverse features) with
    | Some y => Some y
    | None => quakeList !! id
    end.
Proof.
  revert quakeList. induction features as [|y rest IH]; intros quakeList; simpl.
  - reflexivity.
  - rewrite IH, reverse_cons, find_app. simpl.
    destruct (List.find _ (reverse rest)); [reflexivity|].
    destruct (String.eqb_spec (ID y) id) as [->|Hne].
    + apply lookup_insert_eq.
    + now apply lookup_insert_ne.
Qed.

Lemma reconciles_lookup (snapshots : list geoJson)
    (quakeList : gmap string geoJsonFeature) (id : string) :
  exists quakeList',
    reconciles snapshots quakeList = Ok quakeList' /\
    quakeList' !! id
    = match mostRecent id snapshots with
      | Some y => Some y
      | None => quakeList !! id
      end.
Proof.
  unfold mostRecent. revert quakeList.
  induction snapshots as [|data rest IH]; intros quakeList.
  - exists quakeList. split; reflexivity.
  - cbn [reconciles]. rewrite reconcile_spec. cbn [mbind result_bind].
    destruct (IH (foldl (fun store y => <[ID y := y]> store) quakeList
                    (reverse (Features data)))) as (final & Hrun & Hlook).
    exists final. split; [exact Hrun|].
    rewrite Hlook, reverse_cons, fmap_app, concat_app, find_app. simpl.
    rewrite app_nil_r.
    destruct (List.find _ (concat (Features <$> reverse rest))); [reflexivity|].
    now rewrite store_lookup, reverse_involutive.
Qed.

(** C5. After any sequence of reconcile cycles the store holds, under
    every identifier, the most recently fetched feature bearing it (and
    what it held before when no snapshot reported the identifier); each
    cycle writes the entry of every feature it reports, whatever the
    store held. *)
Theorem store_holds_most_recent (snapshots : list geoJson)
    (quakeList : gmap string geoJsonFeature) (id : string) :
  (exists quakeList',
      reconciles snapshots quakeList = Ok quakeList' /\
      quakeList' !! id
      = match mostRecent id snapshots with
        | Some y => Some y
        | None => quakeList !! id
        end) /\
  (exists quakeList',
      reconciles snapshots ∅ = Ok quakeList' /\
      quakeList' !! id = mostRecent id snapshots) /\
  (forall data,
      exists quakeList' usgsQuakeList,
        reconcile data quakeList = Ok (quakeList', usgsQuakeList) /\
        forall y, List.find (fun y => String.eqb (ID y) id) (Features data) = Some y ->
                  quakeList' !! id = Some y).
Proof.
  split; [apply reconciles_lookup|]. split.
  - destruct (reconciles_lookup snapshots ∅ id) as (final & Hrun & Hlook).
    exists final. split; [exact Hrun|]. rewrite Hlook, lookup_empty.
    now destruct (mostRecent id snapshots).
  - intros data. eexists _, _. split; [apply reconcile_spec|].
    intros y Hy. now rewrite store_lookup, reverse_involutive, Hy.
Qed.

(** ** The rows of a snapshot *)

Lemma quakeRows_longEnough (features : list geoJsonFeature) :
  Forall longEnough (quakeRow <$> features).
Proof.
  apply Forall_fmap, Forall_forall. intros y _. unfold longEnough, compose, quakeRow.
  simpl. lia.
Qed.

(** A successful fetch never makes [populateTableData] panic. *)
Lemma populateTableData_ok (body : string) (readFailed : bool) (data : geoJson)
    (t : Table) (quakeList : gmap string geoJsonFeature) :
  json_Unmarshal body = Some data ->
  populateTableData (GetOk body readFailed) t quakeList
  = Ok (foldl upsert t (quakeRow <$> reverse (Features data)),
        foldl (fun store y => <[ID y := y]> store) quakeList (reverse (Features data))).
Proof.
  intros Hbody. unfold populateTableData, getQuakeList, getUsgsGeoStats.
  rewrite Hbody. cbn [mbind result_bind]. rewrite reconcile_spec.
  cbn [mbind result_bind]. rewrite addRows_upsert by apply quakeRows_longEnough.
  reflexivity.
Qed.

(** Cycles whose fetches all decode: the store they leave is the one of
    [reconciles] on the decoded snapshots. *)
Lemma cycles_reconciles (nets : list Exchange) (snapshots : list geoJson)
    (t : Table) (quakeList : gmap string geoJsonFeature) :
  Forall2 (fun net data =>
             exists body readFailed,
               net = GetOk body readFailed /\ json_Unmarshal body = Some data)
          nets snapshots ->
  exists t' quakeList',
    cycles nets t quakeList = Ok (t', quakeList') /\
    reconciles snapshots quakeList = Ok quakeList'.
Proof.
  intros Hall. revert t quakeList.
  induction Hall as [|net data nets snapshots (body & rf & -> & Hbody) _ IH];
    intros t quakeList.
  - exists t, quakeList. split; reflexivity.
  - cbn [cycles reconciles].
    rewrite (populateTableData_ok _ _ _ _ _ Hbody), reconcile_spec.
    cbn [mbind result_bind]. apply IH.
Qed.

(** Storing the features of a snapshot twice is storing them once. *)
Lemma store_twice (features : list geoJsonFeature)
    (quakeList : gmap string geoJsonFeature) :
  foldl (fun store y => <[ID y := y]> store)
        (foldl (fun store y => <[ID y := y]> store) quakeList features) features
  = foldl (fun store y => <[ID y := y]> store) quakeList features.
Proof.
  apply map_eq. intros id.
  rewrite (store_lookup features (foldl _ quakeList features)).
  destruct (List.find _ (reverse features)) as [y|] eqn:Hfind.
  - rewrite store_lookup. now rewrite Hfind.
  - reflexivity.
Qed.

(** A second cycle on the same response leaves table and store alone. *)
Lemma populateTableData_twice (body : string) (readFailed : bool) (data : geoJson)
    (t : Table) (quakeList : gmap string geoJsonFeature) :
  json_Unmarshal body = Some data ->
  exists t' quakeList',
    populateTableData (GetOk body readFailed) t quakeList = Ok (t', quakeList') /\
    populateTableData (GetOk body readFailed) t' quakeList' = Ok (t', quakeList').
Proof.
  intros Hbody. eexists _, _. split; [exact (populateTableData_ok _ _ _ _ _ Hbody)|].
  rewrite (populateTableData_ok _ _ _ _ _ Hbody). f_equal. f_equal.
  - apply foldl_upsert_twice, quakeRows_longEnough.
  - apply store_twice.
Qed.

(** ** The loop of [populateTableData] and the event loop *)

Lemma result_bind_Ok {A : Type} (m : result A) : (x ← m; Ok x) = m.
Proof. now destruct m. Qed.

Lemma drain_nil (t : Table) : drain t [] = Ok t.
Proof. reflexivity. Qed.

Lemma drain_cons (t : Table) (u : queuedUpdate) (queue : list queuedUpdate) :
  drain t (u :: queue) = (t1 ← runUpdate u t; drain t1 queue).
Proof.
  unfold drain. cbn [length runQueued].
  destruct (runUpdate u t) as [t1|]; reflexivity.
Qed.

Lemma drain_app (queue queue' : list queuedUpdate) :
  forall t, drain t (queue ++ queue') = (t1 ← drain t queue; drain t1 queue').
Proof.
  induction queue as [|u queue IH]; intros t; [reflexivity|].
  cbn [app]. rewrite !drain_cons.
  destruct (runUpdate u t) as [t1|]; [apply IH | reflexivity].
Qed.

Lemma drain_nil_bind (t : Table) (usgsQuakeList : list (list string)) (u : queuedUpdate) :
  (t1 ← runUpdate u t; t2 ← drain t1 []; addRows t2 usgsQuakeList)
  = (t1 ← runUpdate u t; addRows t1 usgsQuakeList).
Proof. destruct (runUpdate u t); reflexivity. Qed.

(** In step, the event loop has emptied the queue before the scan. *)
Lemma runQueued_in_step (n : nat) (t : Table) (queue : list queuedUpdate) :
  (1 <= n)%nat -> (length queue <= 1)%nat ->
  runQueued n t queue = (t0 ← drain t queue; Ok (t0, [])).
Proof.
  intros Hn Hq. destruct n as [|n]; [lia|].
  destruct queue as [|u [|u' queue]]; [reflexivity| |simpl in Hq; lia].
  rewrite drain_cons. cbn [runQueued].
  destruct (runUpdate u t) as [t1|]; [|reflexivity].
  cbn [mbind result_bind]. now destruct n.
Qed.

(** In step, the loop is [addRows]: every call scans the table the call
    before has written. *)
Lemma addRowsQueued_in_step (usgsQuakeList : list (list string)) :
  forall (ran : nat -> nat) (t : Table) (queue : list queuedUpdate),
    inStep ran -> (length queue <= 1)%nat ->
    ('(t', queue') ← addRowsQueued ran t queue usgsQuakeList; drain t' queue')
    = (t0 ← drain t queue; addRows t0 usgsQuakeList).
Proof.
  induction usgsQuakeList as [|y rest IH]; intros ran t queue Hran Hq.
  - cbn [addRowsQueued addRows mbind result_bind]. now rewrite result_bind_Ok.
  - cbn [addRowsQueued addRows]. unfold addRowQueued.
    rewrite (runQueued_in_step _ _ _ (Hran 0%nat) Hq).
    destruct (drain t queue) as [t0|]; [|reflexivity].
    cbn [mbind result_bind]. rewrite addRow_scanTable.
    destruct (scanTable t0 y) as [u|]; [|reflexivity].
    cbn [mbind result_bind app].
    rewrite (IH (fun i => ran (S i)) t0 [u]); [|intros i; apply Hran|simpl; lia].
    rewrite drain_cons. destruct (runUpdate u t0); reflexivity.
Qed.

Lemma addRowsQueued_queue (usgsQuakeList : list (list string)) :
  forall (ran : nat -> nat) (t t' : Table) (queue queue' : list queuedUpdate),
    inStep ran -> (length queue <= 1)%nat ->
    addRowsQueued ran t queue usgsQuakeList = Ok (t', queue') ->
    (length queue' <= 1)%nat.
Proof.
  induction usgsQuakeList as [|y rest IH]; intros ran t t' queue queue' Hran Hq Hrun.
  - injection Hrun as <- <-. exact Hq.
  - cbn [addRowsQueued] in Hrun. unfold addRowQueued in Hrun.
    rewrite (runQueued_in_step _ _ _ (Hran 0%nat) Hq) in Hrun.
    destruct (drain t queue) as [t0|]; [|discriminate].
    cbn [mbind result_bind] in Hrun.
    destruct (scanTable t0 y) as [u|]; [|discriminate].
    cbn [mbind result_bind app] in Hrun.
    apply (IH _ _ _ _ _ (fun i => Hran (S i))) in Hrun; [exact Hrun | simpl; lia].
Qed.

Lemma once_in_step (ran : nat -> nat) (t : Table) (usgsQuakeList : list (list string)) :
  inStep ran -> once ran t usgsQuakeList = addRows t usgsQuakeList.
Proof.
  intros Hran. unfold once.
  now rewrite (addRowsQueued_in_step _ ran t [] Hran) by (simpl; lia).
Qed.

Lemma twice_in_step (ran ran' : nat -> nat) (t : Table)
    (usgsQuakeList : list (list string)) :
  inStep ran -> inStep ran' ->
  twice ran ran' t usgsQuakeList
  = (t1 ← addRows t usgsQuakeList; addRows t1 usgsQuakeList).
Proof.
  intros Hran Hran'. rewrite <- (once_in_step ran t usgsQuakeList Hran).
  unfold twice, once.
  destruct (addRowsQueued ran t [] usgsQuakeList) as [[t1 queue1]|] eqn:Hfirst;
    [|reflexivity].
  cbn [mbind result_bind].
  apply addRowsQueued_queue in Hfirst; [|exact Hran|simpl; lia].
  exact (addRowsQueued_in_step _ ran' t1 queue1 Hran' Hfirst).
Qed.

(** With the event loop at rest, every call scans the same table. *)
Lemma addRowsQueued_deferred (t : Table) (usgsQuakeList : list (list string)) :
  Forall longEnough usgsQuakeList ->
  forall queue,
    exists us,
      Forall2 (fun quake u => scanTable t quake = Ok u) usgsQuakeList us /\
      addRowsQueued deferred t queue usgsQuakeList = Ok (t, queue ++ us).
Proof.
  induction 1 as [|y rest Hy _ IH]; intros queue.
  - exists []. split; [constructor|]. now rewrite app_nil_r.
  - destruct (scanTable_spec t y) as (u & Hscan & _).
    { unfold longEnough in Hy. lia. }
    destruct (IH (queue ++ [u])) as (us & Hall & Hrun).
    exists (u :: us). split; [now constructor|].
    cbn [addRowsQueued]. unfold addRowQueued.
    change (deferred 0%nat) with 0%nat. cbn [runQueued mbind result_bind].
    rewrite Hscan. cbn [mbind result_bind].
    change (fun i => deferred (S i)) with deferred.
    now rewrite Hrun, <- app_assoc.
Qed.

Lemma insertions_cons (u : queuedUpdate) (queue : list queuedUpdate) :
  insertions (u :: queue)
  = ((if updateNotInsert (qScan u) then 0 else 1) + insertions queue)%nat.
Proof.
  unfold insertions. rewrite filter_cons.
  destruct (decide (updateNotInsert (qScan u) = false)) as [H|H].
  - now rewrite H.
  - destruct (updateNotInsert (qScan u)); [reflexivity | congruence].
Qed.

Lemma insertions_app (queue queue' : list queuedUpdate) :
  insertions (queue ++ queue') = (insertions queue + insertions queue')%nat.
Proof. unfold insertions. now rewrite filter_app, length_app. Qed.

Lemma insertions_pos (u : queuedUpdate) (queue : list queuedUpdate) :
  u ∈ queue -> updateNotInsert (qScan u) = false -> (1 <= insertions queue)%nat.
Proof.
  intros Hin Hupd. induction queue as [|u' queue IH]; [now apply elem_of_nil in Hin|].
  rewrite insertions_cons. apply elem_of_cons in Hin as [<-|Hin].
  - rewrite Hupd. lia.
  - specialize (IH Hin). lia.
Qed.

(** Queued updates that fit the table all run, and each insertion adds
    a row. *)
Lemma drain_fits (h : list TableCell) (queue : list queuedUpdate) :
  forall rows : list (list TableCell),
    Forall (fits (S (length rows))) queue ->
    exists rows',
      drain (h :: rows) queue = Ok (h :: rows') /\
      length rows' = (length rows + insertions queue)%nat.
Proof.
  induction queue as [|u queue IH]; intros rows Hfits.
  - exists rows. split; [reflexivity|]. unfold insertions. simpl. lia.
  - apply Forall_cons in Hfits as [Hu Hfits].
    destruct (runUpdate_length h rows u Hu) as (rows1 & Hrun & Hlen1).
    destruct (IH rows1) as (rows' & Hdrain & Hlen').
    { eapply Forall_impl; [exact Hfits|]. intros u'. apply fits_mono. lia. }
    exists rows'. rewrite drain_cons, Hrun. cbn [mbind result_bind].
    split; [exact Hdrain|]. rewrite insertions_cons. lia.
Qed.

Lemma scans_fit (h : list TableCell) (rows : list (list TableCell))
    (usgsQuakeList : list (list string)) (us : list queuedUpdate) :
  Forall longEnough usgsQuakeList ->
  Forall2 (fun quake u => scanTable (h :: rows) quake = Ok u) usgsQuakeList us ->
  Forall (fits (S (length rows))) us.
Proof.
  intros Hlong Hall. induction Hall as [|quake u l us Hscan _ IH]; [constructor|].
  apply Forall_cons in Hlong as [Hq Hlong]. constructor; [|now apply IH].
  destruct (scanTable_scanned (h :: rows) quake u) as [Hquake Hscanned];
    [discriminate | exact Hscan |].
  apply scanned_fits; [now rewrite Hquake | exact Hscanned].
Qed.

(** C6, as the code has it. For every snapshot and every starting
    table, a second [reconcile] gives the same rows and leaves the store
    of the first as it is, and in step, where every update has run before
    the next scan, the second pass of [addRow] calls leaves the table of
    the first as it is. The scan, though, is not part of the queued
    update: when the event loop is at rest through both passes, every
    scan reads the starting table, each row with an identifier the table
    does not show is inserted by both passes, and the table ends with
    more rows than one pass gives. *)
Theorem reconcile_twice (data : geoJson) (t : Table)
    (quakeList : gmap string geoJsonFeature) :
  exists quakeList' usgsQuakeList,
    reconcile data quakeList = Ok (quakeList', usgsQuakeList) /\
    reconcile data quakeList' = Ok (quakeList', usgsQuakeList) /\
    (forall ran ran',
        inStep ran -> inStep ran' ->
        exists t',
          once ran t usgsQuakeList = Ok t' /\
          twice ran ran' t usgsQuakeList = Ok t') /\
    ((1 <= GetRowCount t)%nat ->
     (exists y, y ∈ Features data /\ ID y ∉ ids t) ->
     exists t1 t2,
       once deferred t usgsQuakeList = Ok t1 /\
       twice deferred deferred t usgsQuakeList = Ok t2 /\
       (length (dataRows t1) < length (dataRows t2))%nat).
Proof.
  pose proof (quakeRows_longEnough (reverse (Features data))) as Hlong.
  eexists _, _. split; [apply reconcile_spec|]. split; [|split].
  - rewrite reconcile_spec. f_equal. f_equal. apply store_twice.
  - intros ran ran' Hran Hran'. eexists.
    rewrite (once_in_step _ _ _ Hran), (twice_in_step _ _ _ _ Hran Hran').
    rewrite (addRows_upsert _ _ Hlong). cbn [mbind result_bind].
    rewrite (addRows_upsert _ _ Hlong). split; [reflexivity|].
    f_equal. now apply foldl_upsert_twice.
  - intros Hheader (y & Hy & Hfresh).
    destruct t as [|h rows]; [simpl in Hheader; lia|].
    unfold ids in Hfresh. cbn [dataRows tail] in Hfresh.
    destruct (addRowsQueued_deferred (h :: rows) _ Hlong []) as (us & Hscans & Hfirst).
    destruct (addRowsQueued_deferred (h :: rows) _ Hlong ([] ++ us))
      as (us' & Hscans' & Hsecond).
    pose proof (scans_fit h rows _ _ Hlong Hscans) as Hfits.
    pose proof (scans_fit h rows _ _ Hlong Hscans') as Hfits'.
    destruct (drain_fits h ([] ++ us) rows Hfits) as (rows1 & Hdrain1 & Hlen1).
    destruct (drain_fits h (([] ++ us) ++ us') rows) as (rows2 & Hdrain2 & Hlen2).
    { apply Forall_app. split; assumption. }
    exists (h :: rows1), (h :: rows2). unfold once, twice.
    rewrite Hfirst. cbn [mbind result_bind]. rewrite Hsecond. cbn [mbind result_bind].
    split; [exact Hdrain1|]. split; [exact Hdrain2|].
    cbn [dataRows tail]. rewrite Hlen1, Hlen2. cbn [app]. rewrite insertions_app.
    assert (Hrow : quakeRow y ∈ quakeRow <$> reverse (Features data)).
    { apply list_elem_of_fmap. exists y. split; [reflexivity|].
      now apply elem_of_reverse. }
    destruct (proj1 (list_elem_of_lookup _ _) Hrow) as [i Hi].
    destruct (Forall2_lookup_l _ _ _ _ _ Hscans' Hi) as (u & Hu & Hscan).
    destruct (scanTable_fresh h rows (quakeRow y)) as (u0 & Hscan0 & Hupd & _).
    { unfold longEnough, quakeRow. simpl. lia. }
    { exact Hfresh. }
    rewrite Hscan in Hscan0. injection Hscan0 as <-.
    pose proof (insertions_pos u us' (list_elem_of_lookup_2 _ _ _ Hu) Hupd). lia.
Qed.

(** C10. Row construction never panics, whatever the features hold:
    the geometry coordinates are not read, so a feature with fewer than
    three of them is as good as any, and each feature gives a row of
    five columns; the last column is the feature's [ids] string, the
    empty string when the field was absent from the document. *)
Theorem rows_never_panic (data : geoJson) (quakeList : gmap string geoJsonFeature) :
  exists quakeList' usgsQuakeList,
    reconcile data quakeList = Ok (quakeList', usgsQuakeList) /\
    Forall2 (fun y quake =>
               length quake = 5%nat /\
               quake !! 0%nat = Some (ID y) /\
               quake !! 3%nat = Some (Place (Properties y)) /\
               quake !! 4%nat = Some (Ids (Properties y)) /\
               (Ids (Properties y) = "" -> quake !! 4%nat = Some "") /\
               ((length (Coordinates (Geometry y)) < 3)%nat -> quake = quakeRow y))
            (reverse (Features data)) usgsQuakeList.
Proof.
  eexists _, _. split; [apply reconcile_spec|].
  apply Forall2_fmap_r, Forall_Forall2_diag, Forall_forall.
  intros y _. repeat split; try (intros; reflexivity).
  intros H. cbn. now rewrite H.
Qed.

(** ** Severity colours *)

Lemma Qle_bool_false (a b : Q) : Qle_bool a b = false <-> (b < a)%Q.
Proof.
  split.
  - intros H. apply Qnot_le_lt. intros Hle. apply Qle_bool_iff in Hle. congruence.
  - intros H. destruct (Qle_bool a b) eqn:E; [|reflexivity].
    apply Qle_bool_iff in E. apply Qlt_not_le in H. contradiction.
Qed.

Ltac severity_case :=
  unfold severity, Go.ge, c4, c6, c7, c5_99, c6_99; cbn [Go.le];
  repeat match goal with
    | |- context [Qle_bool ?a ?b] =>
        let E := fresh "E" in
        destruct (Qle_bool a b) eqn:E;
        [apply Qle_bool_iff in E | apply Qle_bool_false in E]
    end;
  cbn [andb]; try reflexivity; exfalso; lra.

Lemma severity_below_4 (q : Q) : (q < 4)%Q -> severity (Fin q) = ColorGreen.
Proof. intros H. severity_case. Qed.

Lemma severity_4_to_5_99 (q : Q) :
  (4 <= q)%Q -> (q <= 599 # 100)%Q -> severity (Fin q) = ColorYellow.
Proof. intros H1 H2. severity_case. Qed.

Lemma severity_6_to_6_99 (q : Q) :
  (6 <= q)%Q -> (q <= 699 # 100)%Q -> severity (Fin q) = ColorOrange.
Proof. intros H1 H2. severity_case. Qed.

Lemma severity_from_7 (q : Q) : (7 <= q)%Q -> severity (Fin q) = ColorRed.
Proof. intros H. severity_case. Qed.

Lemma length_quakeCells (quake : list string) :
  longEnough quake -> length (quakeCells quake) = 5%nat.
Proof.
  unfold longEnough.
  destruct quake as [|q0 [|q1 [|q2 [|q3 [|q4 extra]]]]]; simpl; try lia.
Qed.

Lemma quakeCells_colour (quake : list string) (column : nat) (cell : TableCell) :
  quakeCells quake !! column = Some cell ->
  Color_ cell
  = if Nat.eqb column 0 then ColorDarkCyan
    else severity (strconv_ParseFloat (default "" (quake !! 2%nat))).
Proof.
  unfold quakeCells. rewrite list_lookup_imap.
  destruct (take 5 quake !! column) as [text|]; simpl; [|discriminate].
  intros [= <-]. reflexivity.
Qed.

(** C7. The row [addRow] writes carries, in every cell but the
    identifier's, the severity colour of the row's magnitude: green
    below 4.0, yellow from 4.0 through 5.99, orange from 6.0 through
    6.99, red from 7.0 on; the identifier cell is dark cyan. *)
Theorem severity_colours (t : Table) (quake : list string) :
  longEnough quake ->
  (exists t' row r,
      addRow t quake = Ok t' /\ (1 <= row)%nat /\ t' !! row = Some r /\
      take 5 r = quakeCells quake /\
      forall column cell,
        r !! column = Some cell -> (column < 5)%nat ->
        Color_ cell
        = if Nat.eqb column 0 then ColorDarkCyan
          else severity (strconv_ParseFloat (default "" (quake !! 2%nat)))) /\
  (forall q : Q, (q < 4)%Q -> severity (Fin q) = ColorGreen) /\
  (forall q : Q, (4 <= q)%Q -> (q <= 599 # 100)%Q -> severity (Fin q) = ColorYellow) /\
  (forall q : Q, (6 <= q)%Q -> (q <= 699 # 100)%Q -> severity (Fin q) = ColorOrange) /\
  (forall q : Q, (7 <= q)%Q -> severity (Fin q) = ColorRed).
Proof.
  intros Hlen. split.
  - destruct (shows_upsertRows_self (dataRows t) quake Hlen) as (r & Hfind & Hr).
    destruct (find_split _ _ _ Hfind) as (l1 & l2 & Hrows & _ & _).
    assert (Htake : take 5 r = quakeCells quake).
    { rewrite <- Hr. apply take_app_length'. symmetry. now apply length_quakeCells. }
    exists (upsert t quake), (S (length l1)), r.
    split; [now apply addRow_upsert|]. split; [lia|].
    split; [unfold upsert; rewrite Hrows; simpl; now apply list_lookup_middle|].
    split; [exact Htake|].
    intros column cell Hcell Hcol. apply quakeCells_colour.
    rewrite <- Htake. now rewrite lookup_take_lt.
  - repeat split.
    + apply severity_below_4.
    + apply severity_4_to_5_99.
    + apply severity_6_to_6_99.
    + apply severity_from_7.
Qed.


(** ** The positional scan *)

Lemma quake_first (quake : list string) :
  longEnough quake -> quake !! 0%nat = Some (quakeID quake).
Proof. unfold longEnough. destruct quake; simpl; [lia | reflexivity]. Qed.

Lemma dataRows_drop (t : Table) : drop 1 t = dataRows t.
Proof. now destruct t. Qed.


Lemma length_dataRows (t : Table) : (GetRowCount t - 1)%nat = length (dataRows t).
Proof. unfold GetRowCount. destruct t; simpl; lia. Qed.

(** C2, as the code has it. For a display row with a fresh identifier
    the scan stops on no row, and [addRow] inserts the row at [atRow]:
    the first data row whose timestamp is strictly before the new
    row's, when there is one; row 1, the top of the table, when there is
    none. *)
Theorem insertion_position (t : Table) (quake : list string) :
  longEnough quake -> quakeID quake ∉ ids t ->
  exists st,
    scanRows t quake (quakeTime quake) (GetRowCount t - 1) 1 scanStart = Ok st /\
    updateNotInsert st = false /\
    addRow t quake
    = Ok (hd [] t :: take (atRow st - 1) (dataRows t)
                     ++ quakeCells quake :: drop (atRow st - 1) (dataRows t)) /\
    ((exists r,
         foundTime st = true /\
         dataRows t !! (atRow st - 1)%nat = Some r /\
         rowTime r < quakeTime quake /\
         forall j r', (j < atRow st - 1)%nat -> dataRows t !! j = Some r' ->
                      quakeTime quake <= rowTime r') \/
     (foundTime st = false /\ atRow st = 1%nat /\
      Forall (fun r => quakeTime quake <= rowTime r) (dataRows t))).
Proof.
  intros Hlen Hfresh. apply findIndex_hasID_None in Hfresh.
  destruct (scanRows_spec t quake (quakeID quake) (quakeTime quake)
              (quake_first quake Hlen) (dataRows t) 1 scanStart (dataRows_drop t))
    as (st & Hrun & Hpost).
  rewrite Hfresh in Hpost. destruct Hpost as (Hupd & Hfound & Hat).
  cbn [scanStart foundTime atRow updateNotInsert] in Hupd, Hfound, Hat.
  exists st. rewrite length_dataRows. split; [exact Hrun|]. split; [exact Hupd|].
  rewrite (addRow_upsert _ _ Hlen). unfold upsert, upsertRows. rewrite Hfresh.
  destruct (findIndex (older (quakeTime quake)) (dataRows t)) as [k|] eqn:Hk.
  - rewrite Hat. replace (1 + k - 1)%nat with k by lia. split; [reflexivity|].
    left. destruct (findIndex_Some _ _ _ Hk) as [[r [Hr Hold]] Hfirst].
    exists r. split; [exact Hfound|]. split; [exact Hr|].
    split; [now apply older_true|].
    intros j r' Hj Hr'. apply older_false. now apply (Hfirst j).
  - rewrite Hat. simpl. rewrite drop_0. split; [reflexivity|].
    right. split; [exact Hfound|]. split; [reflexivity|].
    eapply Forall_impl; [exact (findIndex_None _ _ Hk)|].
    intros r Hr. now apply older_false.
Qed.


(** ** The fetch *)

(** C9, as the code has it. [getUsgsGeoStats] panics exactly when
    [http.Get] fails or [json.Unmarshal] rejects the bytes that were
    read; an error of [ioutil.ReadAll] changes nothing: the bytes read
    are decoded all the same, and returned when they decode. *)
Theorem fetch_panics (net : Exchange) :
  (getUsgsGeoStats net = Panic <->
   net = GetFailed \/
   exists body readFailed, net = GetOk body readFailed /\ json_Unmarshal body = None) /\
  (forall body, getUsgsGeoStats (GetOk body true) = getUsgsGeoStats (GetOk body false)) /\
  (forall body readFailed data,
      json_Unmarshal body = Some data ->
      getUsgsGeoStats (GetOk body readFailed) = Ok data).
Proof.
  split; [|split].
  - destruct net as [|body readFailed]; simpl.
    + split; [now left | reflexivity].
    + destruct (json_Unmarshal body) as [data|] eqn:Hbody; split.
      * discriminate.
      * intros [H | (b & rf & [= -> ->] & H)]; [discriminate | congruence].
      * intros _. right. eauto.
      * reflexivity.
  - reflexivity.
  - intros body readFailed data H. simpl. now rewrite H.
Qed.

(* =================================================================== *)
(** * Further properties of the program *)
(* =================================================================== *)

Lemma headerCells_headerTable : headerCells 5 0 NewTable = headerTable.
Proof. reflexivity. Qed.

(** ** [addRow]: errors *)

(** X1. [addRow] panics exactly on display rows of fewer than five
    strings, whatever the table holds. *)
Theorem addRow_panics (t : Table) (quake : list string) :
  addRow t quake = Panic <-> (length quake < 5)%nat.
Proof.
  split.
  - intros Hpanic. destruct (le_lt_dec 5 (length quake)) as [Hlen|Hlen]; [|exact Hlen].
    rewrite (addRow_upsert _ _ Hlen) in Hpanic. discriminate.
  - intros Hlen. destruct (addRow t quake) as [t'|] eqn:Hadd; [|reflexivity].
    apply addRow_Ok_length in Hadd. lia.
Qed.

(** ** [addRow]: the other rows *)

Lemma filter_skip_middle {A : Type} (P : A -> Prop) `{forall x, Decision (P x)}
    (l1 l2 : list A) (x : A) :
  ~ P x -> filter P (l1 ++ x :: l2) = filter P (l1 ++ l2).
Proof.
  intros Hx. rewrite !filter_app. f_equal. now apply filter_cons_False.
Qed.

Lemma dataRows_foldl_upsert (usgsQuakeList : list (list string)) (t : Table) :
  dataRows (foldl upsert t usgsQuakeList)
  = foldl upsertRows (dataRows t) usgsQuakeList.
Proof.
  revert t. induction usgsQuakeList as [|quake rest IH]; intros t; simpl.
  - reflexivity.
  - now rewrite IH.
Qed.

(** X2. One [addRow] leaves every row of another identifier as it is
    and where it is among the others: the data rows that do not carry
    the identifier of the display row are the same, in the same order,
    before and after, and the first row of any other identifier is the
    same row. *)
Theorem other_rows_untouched (t : Table) (quake : list string) :
  longEnough quake ->
  exists t',
    addRow t quake = Ok t' /\
    filter (fun r => rowID r <> quakeID quake) (dataRows t')
    = filter (fun r => rowID r <> quakeID quake) (dataRows t) /\
    forall id, id <> quakeID quake ->
               List.find (hasID id) (dataRows t') = List.find (hasID id) (dataRows t).
Proof.
  intros Hlen. exists (upsert t quake). split; [now apply addRow_upsert|].
  rewrite dataRows_upsert. split.
  - assert (Hnew : forall rest, ~ rowID (quakeCells quake ++ rest) <> quakeID quake).
    { intros rest Hne. apply Hne. now apply rowID_quakeCells. }
    destruct (findIndex (hasID (quakeID quake)) (dataRows t)) as [p|] eqn:Hp.
    + destruct (upsertRows_found _ _ _ Hp) as (l1 & r & l2 & -> & _ & Hr & _ & ->).
      apply hasID_spec in Hr.
      rewrite !filter_skip_middle; [reflexivity| |apply Hnew].
      intros Hne. now apply Hne.
    + specialize (Hnew []). rewrite app_nil_r in Hnew.
      destruct (upsertRows_fresh _ _ Hp)
        as [(l1 & r & l2 & -> & _ & _ & _ & ->) | (_ & _ & ->)].
      * now rewrite filter_skip_middle.
      * now rewrite filter_cons_False.
  - intros id Hne. now apply find_upsertRows_other.
Qed.

(** ** [addRow]: what the table shows after a pass *)

Lemma elem_ids_upsertRows (rows : list (list TableCell)) (quake : list string)
    (id : string) :
  longEnough quake ->
  id ∈ rowID <$> upsertRows rows quake <-> id ∈ rowID <$> rows \/ id = quakeID quake.
Proof.
  intros Hlen. split.
  - intros Hin. pose proof (ids_upsertRows rows quake Hlen) as H.
    destruct (findIndex (hasID (quakeID quake)) rows).
    + left. now rewrite <- H.
    + destruct H as (l1 & l2 & -> & Hids). rewrite Hids in Hin.
      rewrite fmap_app. rewrite elem_of_app, elem_of_cons in Hin.
      rewrite elem_of_app.
      destruct Hin as [H|[H|H]]; [left; now left | now right | left; now right].
  - intros [Hin | ->].
    + now apply ids_upsertRows_mono.
    + now apply ids_upsertRows_self.
Qed.

Lemma elem_ids_foldl (usgsQuakeList : list (list string))
    (rows : list (list TableCell)) (id : string) :
  Forall longEnough usgsQuakeList ->
  id ∈ rowID <$> foldl upsertRows rows usgsQuakeList
  <-> id ∈ rowID <$> rows \/ id ∈ quakeID <$> usgsQuakeList.
Proof.
  intros Hall. revert rows. induction Hall as [|quake rest Hq _ IH]; intros rows.
  - simpl. split; [now left | intros [H|H]; [exact H | inversion H]].
  - simpl. rewrite IH, elem_ids_upsertRows by assumption. rewrite elem_of_cons.
    split.
    + intros [[H|H]|H]; [now left | right; now left | right; now right].
    + intros [H|[H|H]]; [left; now left | left; now right | now right].
Qed.

Lemma NoDup_ids_foldl (usgsQuakeList : list (list string))
    (rows : list (list TableCell)) :
  Forall longEnough usgsQuakeList ->
  NoDup (rowID <$> rows) -> NoDup (rowID <$> foldl upsertRows rows usgsQuakeList).
Proof.
  intros Hall. revert rows. induction Hall as [|quake rest Hq _ IH]; intros rows Hnd.
  - exact Hnd.
  - simpl. apply IH. now apply NoDup_ids_upsertRows.
Qed.

(** X3. When the event loop keeps in step, the table after the loop of
    [populateTableData], the last queued update run, shows the
    identifiers it showed before and those of the display rows, and no
    other; from a table without duplicates, it has one data row per
    distinct identifier. *)
Theorem displayed_identifiers (ran : nat -> nat) (t : Table)
    (usgsQuakeList : list (list string)) :
  inStep ran ->
  Forall longEnough usgsQuakeList ->
  exists t',
    once ran t usgsQuakeList = Ok t' /\
    (forall id, id ∈ ids t' <-> id ∈ ids t \/ id ∈ quakeID <$> usgsQuakeList) /\
    (NoDup (ids t) ->
     NoDup (ids t') /\
     length (dataRows t')
     = length (remove_dups (ids t ++ (quakeID <$> usgsQuakeList)))).
Proof.
  intros Hran Hall. exists (foldl upsert t usgsQuakeList).
  split; [rewrite (once_in_step _ _ _ Hran); now apply addRows_upsert|].
  unfold ids. rewrite dataRows_foldl_upsert.
  assert (Hmem : forall id,
             id ∈ rowID <$> foldl upsertRows (dataRows t) usgsQuakeList
             <-> id ∈ rowID <$> dataRows t \/ id ∈ quakeID <$> usgsQuakeList).
  { intros id. now apply elem_ids_foldl. }
  split; [exact Hmem|].
  intros Hnd. pose proof (NoDup_ids_foldl _ _ Hall Hnd) as Hnd'.
  split; [exact Hnd'|].
  rewrite <- (length_fmap rowID). apply Permutation_length.
  apply NoDup_Permutation; [exact Hnd' | apply NoDup_remove_dups|].
  intros id. rewrite Hmem, elem_of_remove_dups, elem_of_app. reflexivity.
Qed.

(** X4. When the event loop keeps in step, after the loop of
    [populateTableData], the last queued update run, the first row that
    carries an identifier of the display rows shows the last of them
    with that identifier: later rows of other identifiers do not disturb
    it, and earlier rows of the same identifier are overwritten. *)
Theorem last_upsert_shown (ran : nat -> nat) (t : Table) (l1 l2 : list (list string))
    (quake : list string) :
  inStep ran ->
  Forall longEnough (l1 ++ quake :: l2) ->
  quakeID quake ∉ quakeID <$> l2 ->
  exists t' r,
    once ran t (l1 ++ quake :: l2) = Ok t' /\
    List.find (hasID (quakeID quake)) (dataRows t') = Some r /\
    take 5 r = quakeCells quake.
Proof.
  intros Hran Hall Hlast.
  destruct (foldl_upsertRows_shows (l1 ++ quake :: l2) l1 l2 (dataRows t) quake
              Hall eq_refl Hlast) as (r & Hfind & Hr).
  exists (foldl upsert t (l1 ++ quake :: l2)), r.
  split; [rewrite (once_in_step _ _ _ Hran); now apply addRows_upsert|].
  rewrite dataRows_foldl_upsert. split; [exact Hfind|].
  rewrite <- Hr. apply take_app_length'. symmetry. apply length_quakeCells.
  apply Forall_app in Hall as [_ Hall]. now apply Forall_cons in Hall as [Hq _].
Qed.

(** ** The shape of the table *)

Lemma asWritten_quakeCells (quake : list string) :
  longEnough quake -> asWritten (quakeCells quake).
Proof.
  unfold longEnough, asWritten.
  destruct quake as [|q0 [|q1 [|q2 [|q3 [|q4 extra]]]]]; simpl; try lia.
  intros _. split; reflexivity.
Qed.

Lemma asWritten_upsertRows (rows : list (list TableCell)) (quake : list string) :
  longEnough quake ->
  Forall asWritten rows -> Forall asWritten (upsertRows rows quake).
Proof.
  intros Hlen Hall. pose proof (asWritten_quakeCells quake Hlen) as Hnew.
  destruct (findIndex (hasID (quakeID quake)) rows) as [p|] eqn:Hp.
  - destruct (upsertRows_found _ _ _ Hp) as (l1 & r & l2 & -> & _ & _ & _ & ->).
    apply Forall_app in Hall as [H1 H2]. apply Forall_cons in H2 as [[Hr _] H2].
    apply Forall_app. split; [exact H1|]. constructor; [|exact H2].
    rewrite drop_ge by lia. now rewrite app_nil_r.
  - destruct (upsertRows_fresh _ _ Hp)
      as [(l1 & r & l2 & -> & _ & _ & _ & ->) | (_ & _ & ->)].
    + apply Forall_app in Hall as [H1 H2].
      apply Forall_app. split; [exact H1|]. now constructor.
    + now constructor.
Qed.

Lemma asWritten_runUpdate (h : list TableCell) (rows rows' : list (list TableCell))
    (u : queuedUpdate) :
  scanned (S (length rows)) u ->
  Forall asWritten rows ->
  runUpdate u (h :: rows) = Ok (h :: rows') ->
  Forall asWritten rows' /\ (length rows <= length rows')%nat.
Proof.
  intros Hscanned Hrows Hrun.
  pose proof (runUpdate_Ok_length _ _ _ Hrun) as Hlen.
  pose proof (scanned_fits _ _ Hlen Hscanned) as Hfits.
  rewrite (runUpdate_spec h rows u Hfits) in Hrun. injection Hrun as <-.
  destruct Hscanned as (Hmag & _). rewrite (queuedCells_quakeCells u Hmag).
  pose proof (asWritten_quakeCells _ Hlen) as Hnew.
  destruct (updateNotInsert (qScan u)).
  - rewrite length_alter. split; [|lia]. apply Forall_alter; [exact Hrows|].
    intros r _ [Hr _]. rewrite drop_ge by lia. now rewrite app_nil_r.
  - split.
    + apply Forall_app. split; [now apply Forall_take|].
      constructor; [exact Hnew | now apply Forall_drop].
    + rewrite length_app. cbn [length]. rewrite length_take, length_drop.
      destruct Hfits as (_ & _ & H2 & _). lia.
Qed.

(** Whatever the event loop has run and whatever is still queued, the
    header row stands, the data rows are as [addRow] writes them, and
    the queued updates are as their scans left them. *)
Lemma Running_shape (t : Table) (queue : list queuedUpdate) :
  Running t queue ->
  exists rows,
    t = hd [] headerTable :: rows /\
    Forall asWritten rows /\
    Forall (scanned (S (length rows))) queue.
Proof.
  induction 1 as [|t queue quake u _ (rows & -> & Hrows & Hqueue) Hscan
                  |t t' u queue _ (rows & -> & Hrows & Hqueue) Hrun].
  - exists []. split; [reflexivity|]. split; constructor.
  - exists rows. split; [reflexivity|]. split; [exact Hrows|].
    apply Forall_app. split; [exact Hqueue|]. constructor; [|constructor].
    destruct (scanTable_scanned (hd [] headerTable :: rows) quake u) as [_ Hu];
      [discriminate | exact Hscan | exact Hu].
  - apply Forall_cons in Hqueue as [Hu Hqueue].
    pose proof (runUpdate_Ok_length _ _ _ Hrun) as Hlen.
    pose proof (runUpdate_spec (hd [] headerTable) rows u (scanned_fits _ _ Hlen Hu))
      as Hspec.
    rewrite Hrun in Hspec. injection Hspec as ->.
    destruct (asWritten_runUpdate _ _ _ _ Hu Hrows Hrun) as [Hrows' Hgrown].
    eexists. split; [reflexivity|].
    split; [exact Hrows'|].
    eapply Forall_impl; [exact Hqueue|]. intros u'. apply scanned_mono. lia.
Qed.

(** X5. In every table the program can display, whenever the event loop
    runs the queued updates, row 0 is still the header row [main] wrote,
    and every data row is as [addRow] writes one: five cells,
    left-aligned, the identifier cell dark cyan and not selectable, the
    other four selectable and in the severity colour of the magnitude
    the row itself displays. *)
Theorem table_shape (t : Table) (queue : list queuedUpdate) :
  Running t queue ->
  take 1 t = headerCells 5 0 NewTable /\
  Forall asWritten (dataRows t) /\
  forall r column cell,
    r ∈ dataRows t -> r !! column = Some cell ->
    (column < 5)%nat /\
    Align cell = AlignLeft /\
    NotSelectable cell = Nat.eqb column 0 /\
    Color_ cell
    = if Nat.eqb column 0 then ColorDarkCyan
      else severity (strconv_ParseFloat (Text (cellAt r 2))).
Proof.
  intros Hrunning. destruct (Running_shape t queue Hrunning) as (rows & -> & Hr & _).
  split; [reflexivity|]. split; [exact Hr|].
  cbn [dataRows tail]. intros r column cell Hin Hcell. rewrite Forall_forall in Hr.
  destruct (Hr r Hin) as [Hlen Heq].
  destruct r as [|c0 [|c1 [|c2 [|c3 [|c4 [|c5 r]]]]]]; try discriminate.
  clear Hlen. unfold quakeCells in Heq. cbn in Heq.
  injection Heq as E0 E1 E2 E3 E4.
  destruct column as [|[|[|[|[|column]]]]]; cbn in Hcell; try discriminate;
    injection Hcell as <-; cbn [cellAt lookup list_lookup default];
    (split; [lia|]);
    [rewrite E0 | rewrite E1 | rewrite E2 | rewrite E3 | rewrite E4];
    repeat split.
Qed.

(** ** Severity: between the ranges *)

(** X6. The ranges of the severity [switch] leave gaps: a magnitude
    above the float64 5.99 and below 6, or above the float64 6.99 and
    below 7, falls through to green, like one below 4, NaN and minus
    infinity; plus infinity is red. *)
Theorem severity_gaps :
  (forall q : Q,
      (3372070220993659 # 562949953421312 < q)%Q -> (q < 6)%Q ->
      severity (Fin q) = ColorGreen) /\
  (forall q : Q,
      (3935020174414971 # 562949953421312 < q)%Q -> (q < 7)%Q ->
      severity (Fin q) = ColorGreen) /\
  severity NaN = ColorGreen /\
  severity (Inf true) = ColorGreen /\
  severity (Inf false) = ColorRed.
Proof.
  split; [|split; [|repeat split]].
  - intros q H1 H2. severity_case.
  - intros q H1 H2. severity_case.
Qed.

(** ** The goroutine of [main] *)

Lemma populateTableData_panics (net : Exchange)
    (t : Table) (quakeList : gmap string geoJsonFeature) :
  populateTableData net t quakeList = Panic <-> getUsgsGeoStats net = Panic.
Proof.
  destruct net as [|body readFailed].
  - split; reflexivity.
  - destruct (json_Unmarshal body) as [data|] eqn:Hbody.
    + rewrite (populateTableData_ok _ _ _ _ _ Hbody).
      unfold getUsgsGeoStats. rewrite Hbody. split; discriminate.
    + unfold populateTableData, getQuakeList, getUsgsGeoStats. rewrite Hbody.
      split; reflexivity.
Qed.

Lemma cycles_panics (nets : list Exchange)
    (t : Table) (quakeList : gmap string geoJsonFeature) :
  cycles nets t quakeList = Panic
  <-> Exists (fun net => getUsgsGeoStats net = Panic) nets.
Proof.
  revert t quakeList. induction nets as [|net rest IH]; intros t quakeList.
  - split; [discriminate | intros H; inversion H].
  - cbn [cycles]. rewrite Exists_cons, <- (populateTableData_panics net t quakeList).
    destruct (populateTableData net t quakeList) as [[t' quakeList']|] eqn:Hrun;
      cbn [mbind result_bind].
    + rewrite IH. split; [now right | intros [H|H]; [discriminate | exact H]].
    + split; [now left | reflexivity].
Qed.

Lemma selectLoop_cycles (ticks : list Tick)
    (t : Table) (quakeList : gmap string geoJsonFeature) :
  selectLoop ticks t quakeList = cycles (fetches ticks) t quakeList.
Proof.
  revert t quakeList. induction ticks as [|[|net] rest IH]; intros t quakeList.
  - reflexivity.
  - apply IH.
  - cbn [selectLoop fetches omap list_omap cycles].
    destruct (populateTableData net t quakeList) as [[t' quakeList']|];
      cbn [mbind result_bind]; [apply IH | reflexivity].
Qed.

Lemma goroutine_cycles (first : Exchange) (ticks : list Tick) :
  goroutine first ticks = cycles (first :: fetches ticks) headerTable ∅.
Proof.
  unfold goroutine. cbn [cycles]. rewrite headerCells_headerTable.
  destruct (populateTableData first headerTable ∅) as [[t' quakeList']|];
    cbn [mbind result_bind]; [apply selectLoop_cycles | reflexivity].
Qed.

(** X7. The goroutine of [main] is its fetches in a row: the draw ticks
    between them change neither the table nor the store, and it panics
    exactly when one of the fetches, the first or one of an update tick,
    fails in [getUsgsGeoStats]; no row and no store entry makes it
    panic. *)
Theorem goroutine_fetches (first : Exchange) (ticks : list Tick) :
  goroutine first ticks = cycles (first :: fetches ticks) headerTable ∅ /\
  (goroutine first ticks = Panic
   <-> Exists (fun net => getUsgsGeoStats net = Panic) (first :: fetches ticks)).
Proof.
  split; [apply goroutine_cycles|]. rewrite goroutine_cycles. apply cycles_panics.
Qed.

(** ** The table and the store *)

Lemma quakeID_quakeRow (y : geoJsonFeature) : quakeID (quakeRow y) = ID y.
Proof. reflexivity. Qed.

Lemma store_dom (features : list geoJsonFeature)
    (quakeList : gmap string geoJsonFeature) (id : string) :
  is_Some (foldl (fun store y => <[ID y := y]> store) quakeList features !! id)
  <-> is_Some (quakeList !! id) \/ id ∈ ID <$> features.
Proof.
  revert quakeList. induction features as [|y rest IH]; intros quakeList; simpl.
  - split; [now left | intros [H|H]; [exact H | inversion H]].
  - rewrite IH, elem_of_cons, lookup_insert_is_Some.
    destruct (decide (ID y = id)) as [Heq|Hne].
    + split; intros _; [right; left; now symmetry | left; now left].
    + split.
      * intros [[H|[_ H]]|H]; [contradiction | now left | right; now right].
      * intros [H|[H|H]]; [left; right; now split | now symmetry in H | now right].
Qed.

Lemma populateTableData_agree (net : Exchange) (t t' : Table)
    (quakeList quakeList' : gmap string geoJsonFeature) :
  populateTableData net t quakeList = Ok (t', quakeList') ->
  agree t quakeList -> agree t' quakeList'.
Proof.
  intros Hrun [Hnd Hsame]. destruct net as [|body readFailed]; [discriminate|].
  destruct (json_Unmarshal body) as [data|] eqn:Hbody.
  - rewrite (populateTableData_ok _ _ _ _ _ Hbody) in Hrun.
    injection Hrun as <- <-. unfold agree, ids in *.
    rewrite dataRows_foldl_upsert. split.
    + apply NoDup_ids_foldl; [apply quakeRows_longEnough | exact Hnd].
    + intros id. rewrite elem_ids_foldl by apply quakeRows_longEnough.
      rewrite store_dom, Hsame, <- list_fmap_compose.
      split; (intros [H|H]; [now left | right]);
        erewrite list_fmap_ext; try exact H; intros; apply quakeID_quakeRow.
  - unfold populateTableData, getQuakeList, getUsgsGeoStats in Hrun.
    rewrite Hbody in Hrun. discriminate.
Qed.

Lemma cycles_agree (nets : list Exchange) (t t' : Table)
    (quakeList quakeList' : gmap string geoJsonFeature) :
  cycles nets t quakeList = Ok (t', quakeList') ->
  agree t quakeList -> agree t' quakeList'.
Proof.
  revert t quakeList. induction nets as [|net rest IH]; intros t quakeList Hrun Hagree.
  - injection Hrun as <- <-. exact Hagree.
  - cbn [cycles] in Hrun.
    destruct (populateTableData net t quakeList) as [[t1 quakeList1]|] eqn:Hone;
      [|discriminate].
    cbn [mbind result_bind] in Hrun.
    exact (IH _ _ Hrun (populateTableData_agree _ _ _ _ _ Hone Hagree)).
Qed.

(** In step, the cycles are [cycles]: each [populateTableData] meets
    the table the cycle before has written. *)
Lemma cyclesQueued_in_step (nets : list (Exchange * (nat -> nat))) :
  forall (t t' t'' : Table) (queue queue' : list queuedUpdate)
         (quakeList quakeList' : gmap string geoJsonFeature),
    Forall (fun x => inStep x.2) nets ->
    (length queue <= 1)%nat ->
    cyclesQueued nets t queue quakeList = Ok (t', queue', quakeList') ->
    drain t' queue' = Ok t'' ->
    exists t0,
      drain t queue = Ok t0 /\
      cycles (fst <$> nets) t0 quakeList = Ok (t'', quakeList').
Proof.
  induction nets as [|[net ran] rest IH];
    intros t t' t'' queue queue' quakeList quakeList' Hall Hq Hrun Hdrain.
  - injection Hrun as <- <- <-. exists t''. split; [exact Hdrain | reflexivity].
  - apply Forall_cons in Hall as [Hran Hall]. cbn [snd] in Hran.
    cbn [cyclesQueued] in Hrun. unfold populateTableDataQueued in Hrun.
    cbn [fmap list_fmap fst cycles]. unfold populateTableData.
    destruct (getQuakeList net quakeList) as [[quakeList1 rows]|]; [|discriminate].
    cbn [mbind result_bind] in Hrun |- *.
    destruct (addRowsQueued ran t queue rows) as [[t1 queue1]|] eqn:Hpass;
      [|discriminate].
    cbn [mbind result_bind] in Hrun.
    pose proof (addRowsQueued_queue _ _ _ _ _ _ Hran Hq Hpass) as Hq1.
    destruct (IH _ _ _ _ _ _ _ Hall Hq1 Hrun Hdrain) as (t0' & Hdrain1 & Hcycles).
    pose proof (addRowsQueued_in_step rows ran t queue Hran Hq) as Hstep.
    rewrite Hpass in Hstep. cbn [mbind result_bind] in Hstep.
    rewrite Hdrain1 in Hstep.
    destruct (drain t queue) as [t0|]; [|discriminate].
    cbn [mbind result_bind] in Hstep. exists t0. split; [reflexivity|].
    rewrite <- Hstep. cbn [mbind result_bind]. exact Hcycles.
Qed.

(** X8. After any number of fetch cycles through which the event loop
    keeps in step, from the header table and the empty store, the table,
    the last queued update run, and the store agree: an identifier has a
    data row exactly when the store has an entry under it, no identifier
    has two rows, and the table has as many data rows as the store has
    entries. Neither is ever pruned. *)
Theorem table_matches_store (nets : list (Exchange * (nat -> nat)))
    (t t' : Table) (queue : list queuedUpdate)
    (quakeList : gmap string geoJsonFeature) :
  Forall (fun x => inStep x.2) nets ->
  cyclesQueued nets headerTable [] ∅ = Ok (t, queue, quakeList) ->
  drain t queue = Ok t' ->
  (forall id, id ∈ ids t' <-> id ∈ dom quakeList) /\
  NoDup (ids t') /\
  length (dataRows t') = size quakeList.
Proof.
  intros Hall Hrun Hdrain.
  destruct (cyclesQueued_in_step nets headerTable t t' [] queue ∅ quakeList
              Hall (Nat.le_0_l 1) Hrun Hdrain)
    as (t0 & [= <-] & Hcycles).
  assert (Hstart : agree headerTable ∅).
  { split; [constructor|]. intros id. cbn. rewrite elem_of_nil, lookup_empty.
    split; [intros [] | intros [? ?]; discriminate]. }
  destruct (cycles_agree _ _ _ _ _ Hcycles Hstart) as [Hnd Hsame].
  assert (Hdom : forall id, id ∈ ids t' <-> id ∈ dom quakeList).
  { intros id. now rewrite Hsame, elem_of_dom. }
  split; [exact Hdom|]. split; [exact Hnd|].
  rewrite <- size_dom. unfold size, set_size. cbn [compose].
  rewrite <- (length_fmap rowID). change (rowID <$> dataRows t') with (ids t').
  apply Permutation_length, NoDup_Permutation; [exact Hnd | apply NoDup_elements|].
  intros id. now rewrite Hdom, elem_of_elements.
Qed.

(** ** The table renders the store *)

Lemma find_foldl_other (usgsQuakeList : list (list string))
    (rows : list (list TableCell)) (id : string) :
  Forall longEnough usgsQuakeList ->
  id ∉ quakeID <$> usgsQuakeList ->
  List.find (hasID id) (foldl upsertRows rows usgsQuakeList)
  = List.find (hasID id) rows.
Proof.
  intros Hall. revert rows.
  induction Hall as [|quake rest Hq _ IH]; intros rows Hnot; simpl.
  - reflexivity.
  - rewrite fmap_cons, not_elem_of_cons in Hnot. destruct Hnot as [Hne Hnot].
    rewrite IH by exact Hnot. now apply find_upsertRows_other.
Qed.

Lemma asWritten_foldl (usgsQuakeList : list (list string))
    (rows : list (list TableCell)) :
  Forall longEnough usgsQuakeList ->
  Forall asWritten rows -> Forall asWritten (foldl upsertRows rows usgsQuakeList).
Proof.
  intros Hall. revert rows. induction Hall as [|quake rest Hq _ IH]; intros rows Hrows.
  - exact Hrows.
  - simpl. apply IH. now apply asWritten_upsertRows.
Qed.

Lemma find_elem_of {A : Type} (f : A -> bool) (l : list A) (x : A) :
  List.find f l = Some x -> x ∈ l.
Proof.
  intros H. destruct (find_split _ _ _ H) as (l1 & l2 & -> & _ & _).
  apply elem_of_app. right. apply elem_of_cons. now left.
Qed.

Lemma find_unique (rows : list (list TableCell)) (r : list TableCell) :
  NoDup (rowID <$> rows) -> r ∈ rows -> List.find (hasID (rowID r)) rows = Some r.
Proof.
  induction rows as [|r0 rows IH]; intros Hnd Hin.
  - now apply elem_of_nil in Hin.
  - rewrite fmap_cons in Hnd. apply NoDup_cons in Hnd as [Hfirst Hnd].
    apply elem_of_cons in Hin as [->|Hin]; simpl.
    + assert (H : hasID (rowID r0) r0 = true) by now apply hasID_spec.
      now rewrite H.
    + destruct (hasID (rowID r) r0) eqn:E.
      * apply hasID_spec in E. exfalso. apply Hfirst. rewrite E.
        apply list_elem_of_fmap. eauto.
      * now apply IH.
Qed.

Lemma populateTableData_renders (net : Exchange) (t t' : Table)
    (quakeList quakeList' : gmap string geoJsonFeature) :
  populateTableData net t quakeList = Ok (t', quakeList') ->
  renders t quakeList -> renders t' quakeList'.
Proof.
  intros Hrun [Hrows Hshown]. destruct net as [|body readFailed]; [discriminate|].
  destruct (json_Unmarshal body) as [data|] eqn:Hbody.
  2:{ unfold populateTableData, getQuakeList, getUsgsGeoStats in Hrun.
      rewrite Hbody in Hrun. discriminate. }
  rewrite (populateTableData_ok _ _ _ _ _ Hbody) in Hrun. injection Hrun as <- <-.
  pose proof (quakeRows_longEnough (reverse (Features data))) as Hlong.
  assert (Hrows' : Forall asWritten
                     (foldl upsertRows (dataRows t) (quakeRow <$> reverse (Features data)))).
  { now apply asWritten_foldl. }
  unfold renders. rewrite dataRows_foldl_upsert. split; [exact Hrows'|].
  intros id y Hy. rewrite store_lookup, reverse_involutive in Hy.
  destruct (List.find (fun y0 => String.eqb (ID y0) id) (Features data))
    as [y0|] eqn:Hfind.
  - injection Hy as ->.
    destruct (find_split _ _ _ Hfind) as (a & b & Hsplit & Ha & Hid).
    apply String.eqb_eq in Hid. split; [exact Hid|].
    assert (Heq : quakeRow <$> reverse (Features data)
                  = (quakeRow <$> reverse b) ++ quakeRow y :: (quakeRow <$> reverse a)).
    { rewrite Hsplit, reverse_app, reverse_cons, <- app_assoc, fmap_app. reflexivity. }
    assert (Hlast : quakeID (quakeRow y) ∉ quakeID <$> (quakeRow <$> reverse a)).
    { rewrite quakeID_quakeRow, Hid. intros Hin.
      apply list_elem_of_fmap in Hin as (quake & -> & Hin).
      apply list_elem_of_fmap in Hin as (z & -> & Hin).
      rewrite elem_of_reverse in Hin. rewrite Forall_forall in Ha.
      specialize (Ha z Hin). rewrite quakeID_quakeRow in Ha.
      now rewrite String.eqb_refl in Ha. }
    destruct (foldl_upsertRows_shows _ _ _ (dataRows t) (quakeRow y) Hlong Heq Hlast)
      as (r & Hr & Hfixed).
    rewrite quakeID_quakeRow, Hid in Hr. rewrite Hr. f_equal.
    rewrite Forall_forall in Hrows'.
    destruct (Hrows' r (find_elem_of _ _ _ Hr)) as [Hlen _].
    rewrite drop_ge, app_nil_r in Hfixed by lia. now symmetry.
  - destruct (Hshown id y Hy) as [Hid Hrow]. split; [exact Hid|].
    rewrite find_foldl_other; [exact Hrow | exact Hlong |].
    intros Hin. apply list_elem_of_fmap in Hin as (quake & -> & Hin).
    apply list_elem_of_fmap in Hin as (z & -> & Hin).
    rewrite elem_of_reverse in Hin.
    assert (Hnone : List.find (fun y0 => String.eqb (ID y0) (quakeID (quakeRow z)))
                      (Features data) = None) by exact Hfind.
    apply list_elem_of_In in Hin. pose proof (find_none _ _ Hnone z Hin) as Hz.
    rewrite quakeID_quakeRow, String.eqb_refl in Hz. discriminate.
Qed.

Lemma cycles_renders (nets : list Exchange) (t t' : Table)
    (quakeList quakeList' : gmap string geoJsonFeature) :
  cycles nets t quakeList = Ok (t', quakeList') ->
  renders t quakeList -> renders t' quakeList'.
Proof.
  revert t quakeList. induction nets as [|net rest IH]; intros t quakeList Hrun Hr.
  - injection Hrun as <- <-. exact Hr.
  - cbn [cycles] in Hrun.
    destruct (populateTableData net t quakeList) as [[t1 quakeList1]|] eqn:Hone;
      [|discriminate].
    cbn [mbind result_bind] in Hrun.
    exact (IH _ _ Hrun (populateTableData_renders _ _ _ _ _ Hone Hr)).
Qed.

(** X9. After any number of fetch cycles through which the event loop
    keeps in step, from the header table and the empty store, the table,
    the last queued update run, renders the store: under every
    identifier of the store the table has the display row of the feature
    stored there, written as [addRow] writes it, and every data row of
    the table is the row of the feature the store holds under the
    identifier the row displays. *)
Theorem table_renders_store (nets : list (Exchange * (nat -> nat)))
    (t t' : Table) (queue : list queuedUpdate)
    (quakeList : gmap string geoJsonFeature) :
  Forall (fun x => inStep x.2) nets ->
  cyclesQueued nets headerTable [] ∅ = Ok (t, queue, quakeList) ->
  drain t queue = Ok t' ->
  (forall id y,
      quakeList !! id = Some y ->
      ID y = id /\
      List.find (hasID id) (dataRows t') = Some (quakeCells (quakeRow y))) /\
  Forall (fun r => exists y,
              quakeList !! rowID r = Some y /\ r = quakeCells (quakeRow y))
         (dataRows t').
Proof.
  intros Hall Hrun Hdrain.
  destruct (cyclesQueued_in_step nets headerTable t t' [] queue ∅ quakeList
              Hall (Nat.le_0_l 1) Hrun Hdrain)
    as (t0 & [= <-] & Hcycles).
  assert (Hstart : renders headerTable ∅).
  { split; [constructor|]. intros id y Hy. now rewrite lookup_empty in Hy. }
  assert (Hagree : agree headerTable ∅).
  { split; [constructor|]. intros id. cbn. rewrite elem_of_nil, lookup_empty.
    split; [intros [] | intros [? ?]; discriminate]. }
  destruct (cycles_renders _ _ _ _ _ Hcycles Hstart) as [_ Hshown].
  destruct (cycles_agree _ _ _ _ _ Hcycles Hagree) as [Hnd Hsame].
  split; [exact Hshown|]. apply Forall_forall. intros r Hr.
  assert (Hin : rowID r ∈ ids t') by (apply list_elem_of_fmap; eauto).
  apply Hsame in Hin as [y Hy]. exists y. split; [exact Hy|].
  destruct (Hshown _ _ Hy) as [_ Hfind].
  rewrite (find_unique _ _ Hnd Hr) in Hfind. now injection Hfind.
Qed.

(** ** [addRow]: the order *)

(** X10. On a table whose data rows are newest first, one [addRow]
    leaves them newest first exactly when its display row keeps the
    order ([keepsOrder]): otherwise the rows are out of order after the
    call. *)
Theorem order_kept_exactly (t t' : Table) (quake : list string) :
  addRow t quake = Ok t' ->
  descending (times t) ->
  descending (times t') <-> keepsOrder t quake.
Proof.
  intros Hadd Hsorted. pose proof (addRow_Ok_length _ _ _ Hadd) as Hlen.
  rewrite (addRow_upsert _ _ Hlen) in Hadd. injection Hadd as <-.
  now apply keepsOrder_exact.
Qed.
End Program.

(* ===================================================================== *)
(** * The earlier program: quakes keyed by their time *)
(* ===================================================================== *)

(** The second program of [src/main.go] and, before it, the one of
    [src/unnamed/part_000] keep a map [quakesSeen] from the time of a
    quake to its URL, and a table of four columns with no identifier:
    [addRow] always inserts. *)

Lemma setInRow_four (r : list TableCell) (c0 c1 c2 c3 : TableCell) :
  setInRow (setInRow (setInRow (setInRow r 0 c0) 1 c1) 2 c2) 3 c3
  = [c0; c1; c2; c3] ++ drop 4 r.
Proof.
  destruct r as [|x0 [|x1 [|x2 [|x3 r]]]]; reflexivity.
Qed.

Lemma setCells_four (t : Table) (quake : list string) (quakeMag : float64)
    (row : nat) (r : list TableCell) (q0 q1 q2 q3 : string) (extra : list string) :
  quake = q0 :: q1 :: q2 :: q3 :: extra ->
  t !! row = Some r ->
  setCells quake quakeMag row 4 0 t
  = Ok (<[row := [quakeCell quakeMag 0 q0; quakeCell quakeMag 1 q1;
                  quakeCell quakeMag 2 q2; quakeCell quakeMag 3 q3] ++ drop 4 r]> t).
Proof.
  intros -> H. pose proof (lookup_lt_Some _ _ _ H) as Hlt.
  cbn [setCells index lookup list_lookup mbind result_bind].
  rewrite (SetCell_lookup _ _ _ _ _ H).
  rewrite !SetCell_insert by assumption.
  now rewrite setInRow_four.
Qed.

Lemma length_insert_row {A : Type} (l : list A) (k : nat) (x : A) :
  length (take k l ++ x :: drop k l) = S (length l).
Proof.
  rewrite length_app. cbn [length]. rewrite Nat.add_succ_r, <- length_app.
  now rewrite take_drop.
Qed.

Module Legacy.

Section LegacyProgram.

(** The Go library, as the program calls it. *)
Variable time_Parse : string -> string -> option Time.
Variable strconv_ParseFloat : string -> float64.
Variable time_Format : Z -> string -> string.
Variable fmt_Sprintf_02f : float64 -> string.
(** [fmt.Sprintf("%f %f %f", x, y, z)]. *)
Variable fmt_Sprintf_f_f_f : float64 -> float64 -> float64 -> string.
Variable json_Unmarshal : string -> option geoJson.

(** *** main *)

(** The loop of [main] that fills the header row, [n] iterations from
    column [column] on. *)
Fixpoint headerCells (n column : nat) (table : Table) : Table :=
  match n with
  | O => table
  | S n' =>
      let text :=
        match column with
        | 0%nat => "Time"
        | 1%nat => "Magnitude"
        | 2%nat => "Location"
        | 3%nat => "Coordinates"
        | _ => ""
        end in
      headerCells n' (S column)
        (SetCell table 0 column
           {| Text := text; Color_ := ColorYellow; Align := AlignCenter;
              NotSelectable := true |})
  end.

(** *** addRow *)

Definition parseTime (s : string) : Time :=
  default zeroTime (time_Parse TIMEFORMAT s).

(** The loop over the table rows, [n] iterations from row [row] on; it
    breaks at the first row before the quake. *)
Fixpoint scanRows (table : Table) (quakeTime : Time) (n row rowToInsert : nat) : nat :=
  match n with
  | O => rowToInsert
  | S n' =>
      let rowTime := parseTime (Text (GetCell table row 0)) in
      if Before rowTime quakeTime then row
      else scanRows table quakeTime n' (S row) rowToInsert
  end.

(** The queued update is the one of the later program but for its four
    columns: [setCells], with the same colour [switch]. *)
Definition addRow (table : Table) (quake : list string) : result Table :=
  let rowToInsert := 1%nat in
  q0 ← index quake 0;
  let quakeTime := parseTime q0 in
  q1 ← index quake 1;
  let quakeMag := strconv_ParseFloat q1 in
  let rowToInsert :=
    scanRows table quakeTime (GetRowCount table - 1) 1 rowToInsert in
  setCells quake quakeMag rowToInsert 4 0 (InsertRow table rowToInsert).

(** *** getQuakeList *)

(** [quakesSeen[k]]: the zero value when the key is missing. *)
Definition seen (quakesSeen : gmap Z string) (k : Z) : string :=
  default "" (quakesSeen !! k).

(** The display row of a feature; it reads three coordinates. *)
Definition quakeRow (y : geoJsonFeature) : result (list string) :=
  let time := time_Format (Z.quot (Time_ (Properties y)) 1000) "Jan/02/15:04:05/MST" in
  let mag := fmt_Sprintf_02f (Mag (Properties y)) in
  c0 ← index (Coordinates (Geometry y)) 0;
  c1 ← index (Coordinates (Geometry y)) 1;
  c2 ← index (Coordinates (Geometry y)) 2;
  Ok [ time; mag; Place (Properties y); fmt_Sprintf_f_f_f c0 c1 c2 ].

(** The loop over the quakes. *)
Fixpoint rangeFeatures (features : list geoJsonFeature)
    (quakesSeen : gmap Z string) (quakeList : list (list string))
    : result (gmap Z string * list (list string)) :=
  match features with
  | [] => Ok (quakesSeen, quakeList)
  | y :: rest =>
      if String.eqb (seen quakesSeen (Time_ (Properties y))) (URL (Properties y))
      then rangeFeatures rest quakesSeen quakeList
      else
        let quakesSeen := <[Time_ (Properties y) := URL (Properties y)]> quakesSeen in
        row ← quakeRow y;
        rangeFeatures rest quakesSeen (quakeList ++ [row])
  end.

(** The body of [getQuakeList] once the snapshot [data] is fetched. *)
Definition reconcile (data : geoJson) (quakesSeen : gmap Z string)
    : result (gmap Z string * list (list string)) :=
  features ← reverseFeatures (length (Features data) / 2) (Features data);
  rangeFeatures features quakesSeen [].

Definition getQuakeList (net : Exchange) (quakesSeen : gmap Z string)
    : result (gmap Z string * list (list string)) :=
  data ← getUsgsGeoStats json_Unmarshal net;
  reconcile data quakesSeen.

(** *** populateTableData *)

Fixpoint addRows (table : Table) (quakeList : list (list string)) : result Table :=
  match quakeList with
  | [] => Ok table
  | y :: rest => table' ← addRow table y; addRows table' rest
  end.

Definition populateTableData (net : Exchange)
    (table : Table) (quakesSeen : gmap Z string)
    : result (Table * gmap Z string) :=
  '(quakesSeen', quakeList) ← getQuakeList net quakesSeen;
  table' ← addRows table quakeList;
  Ok (table', quakesSeen').

(** ** The table as rows *)

Definition rowTime (r : list TableCell) : Time := parseTime (Text (cellAt r 0)).
Definition older (t : Time) (r : list TableCell) : bool := Before (rowTime r) t.

Definition quakeTime (quake : list string) : Time :=
  parseTime (default "" (quake !! 0%nat)).
Definition quakeCells (quake : list string) : list TableCell :=
  imap (quakeCell (strconv_ParseFloat (default "" (quake !! 1%nat)))) (take 4 quake).

(** Where the row goes among the data rows: above the first older row,
    or else on top. *)
Definition position (rows : list (list TableCell)) (quake : list string) : nat :=
  default 0%nat (findIndex (older (quakeTime quake)) rows).

Definition inserted (t : Table) (quake : list string) : Table :=
  hd [] t :: take (position (dataRows t) quake) (dataRows t)
             ++ quakeCells quake :: drop (position (dataRows t) quake) (dataRows t).

(** No two quakes of the snapshot have the same time and two URLs. *)
Definition consistent (features : list geoJsonFeature) : Prop :=
  forall y z,
    y ∈ features -> z ∈ features ->
    Time_ (Properties y) = Time_ (Properties z) ->
    URL (Properties y) = URL (Properties z).

(** The map holds the URL of every quake of the list under its time. *)
Definition allSeen (quakesSeen : gmap Z string) (features : list geoJsonFeature)
    : Prop :=
  Forall (fun y => seen quakesSeen (Time_ (Properties y)) = URL (Properties y))
         features.

(** A quake with a URL and fewer than three coordinates. *)
Definition short (y : geoJsonFeature) : Prop :=
  URL (Properties y) <> "" /\ (length (Coordinates (Geometry y)) < 3)%nat.

(** ** [addRow] always inserts *)

Lemma legacy_scanRows_spec (t : Table) (tq : Time) (rowToInsert : nat) :
  forall (rows : list (list TableCell)) (row : nat),
    drop row t = rows ->
    scanRows t tq (length rows) row rowToInsert
    = match findIndex (older tq) rows with
      | Some k => (row + k)%nat
      | None => rowToInsert
      end.
Proof.
  intros rows. induction rows as [|r rows IH]; intros row Hdrop; [reflexivity|].
  assert (Hrow : t !! row = Some r).
  { pose proof (lookup_drop t row 0) as E. rewrite Hdrop, Nat.add_0_r in E.
    symmetry. exact E. }
  assert (Hnext : drop (S row) t = rows).
  { pose proof (drop_drop t 1 row) as E. rewrite Hdrop, Nat.add_1_r in E.
    symmetry. exact E. }
  cbn [length scanRows findIndex]. rewrite (GetCell_lookup _ _ _ _ Hrow).
  fold (rowTime r). change (Before (rowTime r) tq) with (older tq r).
  destruct (older tq r); [lia|]. rewrite (IH _ Hnext).
  destruct (findIndex (older tq) rows); cbn [fmap option_fmap option_map]; lia.
Qed.

Lemma legacy_addRow_inserted (t : Table) (quake : list string) :
  (4 <= length quake)%nat -> addRow t quake = Ok (inserted t quake).
Proof.
  intros Hlen.
  destruct quake as [|q0 [|q1 [|q2 [|q3 extra]]]]; simpl in Hlen; try lia.
  set (quake := q0 :: q1 :: q2 :: q3 :: extra).
  unfold addRow, inserted, position.
  assert (Hrows : drop 1 t = dataRows t) by now destruct t.
  change (index quake 0) with (Ok q0). change (index quake 1) with (Ok q1).
  cbn [mbind result_bind]. cbv zeta.
  replace (GetRowCount t - 1)%nat with (length (dataRows t))
    by (unfold GetRowCount, dataRows; destruct t; simpl; lia).
  rewrite (legacy_scanRows_spec t (parseTime q0) 1 (dataRows t) 1 Hrows).
  change (quakeTime quake) with (parseTime q0).
  change (quakeCells quake)
    with [quakeCell (strconv_ParseFloat q1) 0 q0; quakeCell (strconv_ParseFloat q1) 1 q1;
          quakeCell (strconv_ParseFloat q1) 2 q2; quakeCell (strconv_ParseFloat q1) 3 q3].
  destruct (findIndex (older (parseTime q0)) (dataRows t)) as [k|] eqn:Hk.
  - change (1 + k)%nat with (S k). pose proof (findIndex_lt _ _ _ Hk) as Hlt.
    destruct t as [|h rows]; [simpl in Hlt; lia|]. cbn [dataRows tail hd default] in Hlt |- *.
    unfold InsertRow. destruct (Nat.leb_spec (length (h :: rows)) (S k)); [simpl in *; lia|].
    cbn [take drop app].
    erewrite (setCells_four (h :: take k rows ++ [] :: drop k rows) _ _ (S k) []);
      [|reflexivity|].
    + f_equal. simpl. f_equal. apply insert_take_drop. lia.
    + cbn [lookup list_lookup]. apply lookup_take_drop. lia.
  - subst quake. destruct t as [|h [|r rows]]; reflexivity.
Qed.

Lemma legacy_addRow_short (t : Table) (quake : list string) :
  (length quake < 4)%nat -> addRow t quake = Panic.
Proof.
  intros Hlen. unfold addRow.
  destruct quake as [|q0 [|q1 quake]]; [reflexivity..|].
  cbn [index lookup list_lookup mbind result_bind]. cbv zeta.
  apply setCells_short; simpl in *; lia.
Qed.

Lemma legacy_addRow_panics_iff (t : Table) (quake : list string) :
  (addRow t quake = Panic <-> (length quake < 4)%nat) /\
  ((4 <= length quake)%nat -> addRow t quake = Ok (inserted t quake)).
Proof.
  split; [|apply legacy_addRow_inserted]. split.
  - intros H. destruct (le_lt_dec 4 (length quake)) as [Hlen|Hlen]; [|exact Hlen].
    rewrite (legacy_addRow_inserted _ _ Hlen) in H. discriminate.
  - apply legacy_addRow_short.
Qed.

(** X11. The earlier [addRow] panics exactly on display rows of fewer
    than four strings; otherwise it inserts one row and touches no other:
    above the first data row whose time (column 0) is strictly before the
    new row's, or on top when there is none. It never updates a row: the
    table has one more data row after every call. *)
Theorem legacy_addRow_inserts (t : Table) (quake : list string) :
  (addRow t quake = Panic <-> (length quake < 4)%nat) /\
  ((4 <= length quake)%nat ->
   exists k,
     addRow t quake
     = Ok (hd [] t :: take k (dataRows t) ++ quakeCells quake :: drop k (dataRows t)) /\
     length (quakeCells quake) = 4%nat /\
     Text <$> quakeCells quake = take 4 quake /\
     ((exists r,
          dataRows t !! k = Some r /\ rowTime r < quakeTime quake /\
          forall j r', (j < k)%nat -> dataRows t !! j = Some r' ->
                       quakeTime quake <= rowTime r') \/
      (k = 0%nat /\ Forall (fun r => quakeTime quake <= rowTime r) (dataRows t)))) /\
  (forall t', addRow t quake = Ok t' ->
              length (dataRows t') = S (length (dataRows t))).
Proof.
  assert (Hpanic : addRow t quake = Panic <-> (length quake < 4)%nat).
  { split.
    - intros H. destruct (le_lt_dec 4 (length quake)) as [Hlen|Hlen]; [|exact Hlen].
      rewrite (legacy_addRow_inserted _ _ Hlen) in H. discriminate.
    - apply legacy_addRow_short. }
  split; [exact Hpanic|]. split.
  - intros Hlen. exists (position (dataRows t) quake).
    split; [now apply legacy_addRow_inserted|].
    split; [|split].
    + destruct quake as [|q0 [|q1 [|q2 [|q3 extra]]]]; simpl in Hlen; try lia.
      reflexivity.
    + destruct quake as [|q0 [|q1 [|q2 [|q3 extra]]]]; simpl in Hlen; try lia.
      reflexivity.
    + unfold position.
      destruct (findIndex (older (quakeTime quake)) (dataRows t)) as [k|] eqn:Hk.
      * left. destruct (findIndex_Some _ _ _ Hk) as [[r [Hr Hold]] Hfirst].
        exists r. split; [exact Hr|]. split.
        -- unfold older, Before in Hold. now apply Z.ltb_lt in Hold.
        -- intros j r' Hj Hr'. specialize (Hfirst j r' Hj Hr').
           unfold older, Before in Hfirst. now apply Z.ltb_ge in Hfirst.
      * right. split; [reflexivity|]. apply findIndex_None in Hk.
        eapply Forall_impl; [exact Hk|]. intros r Hr. cbv beta in Hr.
        unfold older, Before in Hr. now apply Z.ltb_ge in Hr.
  - intros t' Hadd.
    destruct (le_lt_dec 4 (length quake)) as [Hlen|Hlen].
    + rewrite (legacy_addRow_inserted _ _ Hlen) in Hadd. injection Hadd as <-.
      unfold inserted. cbn [dataRows tail]. apply length_insert_row.
    + apply Hpanic in Hlen. congruence.
Qed.

(** ** A pass of [addRow] calls *)

Lemma legacy_addRow_grows (t t' : Table) (quake : list string) :
  addRow t quake = Ok t' -> length (dataRows t') = S (length (dataRows t)).
Proof.
  intros Hadd. destruct (legacy_addRow_panics_iff t quake) as [Hpanic Hok].
  destruct (le_lt_dec 4 (length quake)) as [Hlen|Hlen].
  - rewrite (Hok Hlen) in Hadd. injection Hadd as <-.
    unfold inserted. cbn [dataRows tail]. apply length_insert_row.
  - apply Hpanic in Hlen. congruence.
Qed.

Lemma legacy_addRows_length (quakeList : list (list string)) :
  forall t t' : Table,
    addRows t quakeList = Ok t' ->
    length (dataRows t') = (length (dataRows t) + length quakeList)%nat.
Proof.
  induction quakeList as [|quake rest IH]; intros t t' Hrun.
  - injection Hrun as <-. simpl. lia.
  - cbn [addRows] in Hrun.
    destruct (addRow t quake) as [t1|] eqn:Hadd; [|discriminate].
    cbn [mbind result_bind] in Hrun.
    rewrite (IH _ _ Hrun), (legacy_addRow_grows _ _ _ Hadd). simpl. lia.
Qed.

(** X12. A pass of [addRow] calls panics exactly when one of the display
    rows has fewer than four strings, and otherwise adds one data row per
    display row, whatever the table showed. *)
Theorem legacy_addRows_grow (t : Table) (quakeList : list (list string)) :
  (addRows t quakeList = Panic
   <-> Exists (fun quake => (length quake < 4)%nat) quakeList) /\
  (forall t', addRows t quakeList = Ok t' ->
              length (dataRows t') = (length (dataRows t) + length quakeList)%nat).
Proof.
  split; [|apply legacy_addRows_length].
  revert t. induction quakeList as [|quake rest IH]; intros t.
  - split; [discriminate | intros H; inversion H].
  - destruct (legacy_addRow_panics_iff t quake) as [Hpanic _].
    cbn [addRows]. rewrite Exists_cons.
    destruct (addRow t quake) as [t1|]; cbn [mbind result_bind].
    + rewrite IH. split; [now right | intros [H|H]; [|exact H]].
      apply Hpanic in H. discriminate.
    + split; [|reflexivity]. intros _. left. now apply Hpanic.
Qed.

(** ** The rows of a snapshot *)

Lemma legacy_quakeRow_panics (y : geoJsonFeature) :
  quakeRow y = Panic <-> (length (Coordinates (Geometry y)) < 3)%nat.
Proof.
  unfold quakeRow.
  destruct (Coordinates (Geometry y)) as [|c0 [|c1 [|c2 rest]]]; simpl;
    split; try reflexivity; try lia; discriminate.
Qed.

Lemma legacy_quakeRow_length (y : geoJsonFeature) (quake : list string) :
  quakeRow y = Ok quake -> length quake = 4%nat.
Proof.
  unfold quakeRow.
  destruct (Coordinates (Geometry y)) as [|c0 [|c1 [|c2 rest]]]; simpl;
    try discriminate.
  now intros [= <-].
Qed.

Lemma seen_insert (quakesSeen : gmap Z string) (k : Z) (url : string) :
  seen (<[k := url]> quakesSeen) k = url.
Proof. unfold seen. now rewrite lookup_insert_eq. Qed.

Lemma seen_insert_ne (quakesSeen : gmap Z string) (k k' : Z) (url : string) :
  k <> k' -> seen (<[k := url]> quakesSeen) k' = seen quakesSeen k'.
Proof. intros H. unfold seen. now rewrite lookup_insert_ne. Qed.

(** Quakes the map has all seen are all skipped. *)
Lemma rangeFeatures_allSeen (features : list geoJsonFeature)
    (quakesSeen : gmap Z string) (quakeList : list (list string)) :
  allSeen quakesSeen features ->
  rangeFeatures features quakesSeen quakeList = Ok (quakesSeen, quakeList).
Proof.
  induction 1 as [|y rest Hy _ IH]; [reflexivity|].
  cbn [rangeFeatures]. now rewrite Hy, String.eqb_refl.
Qed.

(** The loop only appends, and appends nothing only when the map has
    seen every quake. *)
Lemma rangeFeatures_appends (features : list geoJsonFeature) :
  forall (quakesSeen quakesSeen' : gmap Z string) (quakeList l : list (list string)),
    rangeFeatures features quakesSeen quakeList = Ok (quakesSeen', l) ->
    exists more,
      l = quakeList ++ more /\
      Forall (fun quake => length quake = 4%nat) more /\
      (more = [] -> allSeen quakesSeen features /\ quakesSeen' = quakesSeen).
Proof.
  induction features as [|y rest IH]; intros quakesSeen quakesSeen' quakeList l Hrun.
  - injection Hrun as <- <-. exists []. rewrite app_nil_r.
    repeat split; constructor.
  - cbn [rangeFeatures] in Hrun.
    destruct (String.eqb_spec (seen quakesSeen (Time_ (Properties y)))
                (URL (Properties y))) as [Hy|Hy].
    + destruct (IH _ _ _ _ Hrun) as (more & -> & Hlen & Hnone).
      exists more. split; [reflexivity|]. split; [exact Hlen|].
      intros Hmore. destruct (Hnone Hmore) as [Hall ->].
      split; [now constructor | reflexivity].
    + destruct (quakeRow y) as [row|] eqn:Hrow; [|discriminate].
      cbn [mbind result_bind] in Hrun.
      destruct (IH _ _ _ _ Hrun) as (more & -> & Hlen & _).
      exists (row :: more). rewrite <- app_assoc. split; [reflexivity|].
      split; [|discriminate]. constructor; [|exact Hlen].
      now apply (legacy_quakeRow_length y).
Qed.

(** After the loop the map has seen every quake of a consistent list. *)
Lemma rangeFeatures_seen (features : list geoJsonFeature) :
  forall (before : list geoJsonFeature)
         (quakesSeen quakesSeen' : gmap Z string) (quakeList l : list (list string)),
    consistent (before ++ features) ->
    allSeen quakesSeen before ->
    rangeFeatures features quakesSeen quakeList = Ok (quakesSeen', l) ->
    allSeen quakesSeen' (before ++ features).
Proof.
  induction features as [|y rest IH];
    intros before quakesSeen quakesSeen' quakeList l Hcons Hbefore Hrun.
  - injection Hrun as <- <-. now rewrite app_nil_r.
  - cbn [rangeFeatures] in Hrun. rewrite cons_middle, app_assoc in Hcons |- *.
    destruct (String.eqb_spec (seen quakesSeen (Time_ (Properties y)))
                (URL (Properties y))) as [Hy|Hy].
    + apply (IH _ _ _ _ _ Hcons) in Hrun; [exact Hrun|].
      apply Forall_app. split; [exact Hbefore|]. now constructor.
    + destruct (quakeRow y) as [row|] eqn:Hrow; [|discriminate].
      cbn [mbind result_bind] in Hrun.
      apply (IH _ _ _ _ _ Hcons) in Hrun; [exact Hrun|].
      apply Forall_app. split.
      * apply Forall_forall. intros z Hz.
        destruct (decide (Time_ (Properties y) = Time_ (Properties z))) as [Heq|Hne].
        -- rewrite <- Heq, seen_insert. apply Hcons; [| |exact Heq].
           ++ apply elem_of_app. left. apply elem_of_app. right. now left.
           ++ apply elem_of_app. left. apply elem_of_app. now left.
        -- rewrite seen_insert_ne by exact Hne.
           unfold allSeen in Hbefore. rewrite Forall_forall in Hbefore.
           now apply Hbefore.
      * constructor; [apply seen_insert | constructor].
Qed.

Lemma consistent_reverse (features : list geoJsonFeature) :
  consistent (reverse features) <-> consistent features.
Proof.
  unfold consistent. split; intros H y z Hy Hz.
  - apply H; now apply elem_of_reverse.
  - apply H; now apply elem_of_reverse.
Qed.

Lemma legacy_reconcile_spec (data : geoJson) (quakesSeen : gmap Z string) :
  reconcile data quakesSeen = rangeFeatures (reverse (Features data)) quakesSeen [].
Proof. unfold reconcile. now rewrite reverseFeatures_reverse. Qed.

Lemma legacy_populateTableData_spec (body : string) (readFailed : bool)
    (data : geoJson) (t : Table) (quakesSeen : gmap Z string) :
  json_Unmarshal body = Some data ->
  populateTableData (GetOk body readFailed) t quakesSeen
  = '(quakesSeen', quakeList) ← rangeFeatures (reverse (Features data)) quakesSeen [];
    table' ← addRows t quakeList;
    Ok (table', quakesSeen').
Proof.
  intros Hbody. unfold populateTableData, getQuakeList, getUsgsGeoStats.
  rewrite Hbody. cbn [mbind result_bind]. now rewrite legacy_reconcile_spec.
Qed.

(** X13. The map [quakesSeen] keeps a second fetch of the same document
    from adding rows exactly when the snapshot is consistent: after a
    cycle that returned, the next cycle on the same document leaves the
    table and the map as they are if and only if no two quakes of the
    snapshot have the same time and different URLs. Two such quakes
    overwrite each other's entry, and a row is added again. *)
Theorem legacy_dedup (body : string) (readFailed : bool) (data : geoJson)
    (t t' : Table) (quakesSeen quakesSeen' : gmap Z string) :
  json_Unmarshal body = Some data ->
  populateTableData (GetOk body readFailed) t quakesSeen = Ok (t', quakesSeen') ->
  populateTableData (GetOk body readFailed) t' quakesSeen' = Ok (t', quakesSeen')
  <-> consistent (Features data).
Proof.
  intros Hbody Hfirst.
  rewrite (legacy_populateTableData_spec _ _ _ _ _ Hbody) in Hfirst.
  rewrite (legacy_populateTableData_spec _ _ _ _ _ Hbody).
  destruct (rangeFeatures (reverse (Features data)) quakesSeen [])
    as [[seen1 l1]|] eqn:Hpass1; [|discriminate].
  cbn [mbind result_bind] in Hfirst.
  destruct (addRows t l1) as [t1|] eqn:Hrows1; [|discriminate].
  cbn [mbind result_bind] in Hfirst. injection Hfirst as <- <-.
  split.
  - intros Hsecond.
    destruct (rangeFeatures (reverse (Features data)) seen1 [])
      as [[seen2 l2]|] eqn:Hpass2; [|discriminate].
    cbn [mbind result_bind] in Hsecond.
    destruct (addRows t1 l2) as [t2|] eqn:Hrows2; [|discriminate].
    cbn [mbind result_bind] in Hsecond. injection Hsecond as -> ->.
    apply legacy_addRows_length in Hrows2.
    assert (Hnone : l2 = []) by (apply length_zero_iff_nil; lia).
    destruct (rangeFeatures_appends _ _ _ _ _ Hpass2) as (more & Hl2 & _ & Hall).
    simpl in Hl2. subst more. destruct (Hall Hnone) as [Hseen _].
    unfold allSeen in Hseen. rewrite Forall_forall in Hseen.
    intros y z Hy Hz Htime.
    rewrite <- (Hseen y), <- (Hseen z) by now apply elem_of_reverse.
    now rewrite Htime.
  - intros Hcons. apply consistent_reverse in Hcons.
    pose proof (rangeFeatures_seen _ [] _ _ _ _ Hcons (Forall_nil_2 _) Hpass1) as Hseen.
    simpl in Hseen. now rewrite (rangeFeatures_allSeen _ _ _ Hseen).
Qed.

(** From a map without the times of the list, which are all different,
    the loop emits the quakes that have a URL. *)
Lemma rangeFeatures_fresh (features : list geoJsonFeature) :
  forall (quakesSeen : gmap Z string) (quakeList : list (list string)),
    NoDup ((fun y => Time_ (Properties y)) <$> features) ->
    (forall y, y ∈ features -> quakesSeen !! Time_ (Properties y) = None) ->
    (rangeFeatures features quakesSeen quakeList = Panic <-> Exists short features) /\
    (forall quakesSeen' l,
        rangeFeatures features quakesSeen quakeList = Ok (quakesSeen', l) ->
        exists more,
          l = quakeList ++ more /\
          Forall2 (fun y quake => quakeRow y = Ok quake)
                  (filter (fun y => URL (Properties y) <> "") features) more).
Proof.
  induction features as [|y rest IH]; intros quakesSeen quakeList Hnd Hfresh.
  - split.
    + split; [discriminate | intros H; inversion H].
    + intros quakesSeen' l [= <- <-]. exists []. rewrite app_nil_r.
      split; [reflexivity | constructor].
  - rewrite fmap_cons in Hnd. apply NoDup_cons in Hnd as [Hy Hnd].
    assert (Hnone : seen quakesSeen (Time_ (Properties y)) = "").
    { unfold seen. rewrite Hfresh; [reflexivity | now left]. }
    cbn [rangeFeatures]. rewrite Hnone, Exists_cons.
    destruct (String.eqb_spec "" (URL (Properties y))) as [Hurl|Hurl].
    + destruct (IH quakesSeen quakeList Hnd) as [IHp IHr].
      { intros z Hz. apply Hfresh. now right. }
      split.
      * rewrite IHp. split; [now right | intros [[H _]|H]; [congruence | exact H]].
      * intros quakesSeen' l Hrun. rewrite filter_cons_False by (intros H; congruence).
        exact (IHr _ _ Hrun).
    + destruct (IH (<[Time_ (Properties y) := URL (Properties y)]> quakesSeen)
                  (quakeList ++ match quakeRow y with Ok row => [row] | Panic => [] end)
                  Hnd) as [IHp IHr].
      { intros z Hz. rewrite lookup_insert_ne; [apply Hfresh; now right|].
        intros Heq. apply Hy. rewrite Heq. apply list_elem_of_fmap. eauto. }
      pose proof (legacy_quakeRow_panics y) as Hshort.
      destruct (quakeRow y) as [row|] eqn:Hrow; cbn [mbind result_bind].
      * split.
        -- rewrite IHp. split; [now right | intros [[_ H]|H]; [|exact H]].
           apply Hshort in H. discriminate.
        -- intros quakesSeen' l Hrun.
           destruct (IHr _ _ Hrun) as (more & -> & Hrows).
           exists (row :: more). rewrite <- app_assoc. split; [reflexivity|].
           rewrite filter_cons_True by congruence. now constructor.
      * split; [|discriminate]. split; [|reflexivity].
        intros _. left. split; [congruence | now apply Hshort].
Qed.

(** X14. Unlike the later program, the earlier [getQuakeList] reads the
    coordinates: on a snapshot of quakes with different times, none of
    them in the map yet, it panics exactly when a quake with a URL has
    fewer than three coordinates, and otherwise returns one row of four
    strings for every quake that has a URL, in reversed feed order; a
    quake whose URL is empty is passed over as already seen. *)
Theorem legacy_rows_panic (data : geoJson) (quakesSeen : gmap Z string) :
  NoDup ((fun y => Time_ (Properties y)) <$> Features data) ->
  (forall y, y ∈ Features data -> quakesSeen !! Time_ (Properties y) = None) ->
  (reconcile data quakesSeen = Panic <-> Exists short (Features data)) /\
  (forall quakesSeen' quakeList,
      reconcile data quakesSeen = Ok (quakesSeen', quakeList) ->
      Forall2 (fun y quake => quakeRow y = Ok quake /\ length quake = 4%nat)
              (filter (fun y => URL (Properties y) <> "") (reverse (Features data)))
              quakeList).
Proof.
  intros Hnd Hfresh. rewrite legacy_reconcile_spec.
  destruct (rangeFeatures_fresh (reverse (Features data)) quakesSeen []) as [Hp Hr].
  - now rewrite fmap_reverse, reverse_Permutation.
  - intros y Hy. apply Hfresh. now apply elem_of_reverse.
  - split.
    + rewrite Hp, !Exists_exists. split; intros (y & Hy & Hshort); exists y;
        (split; [now apply elem_of_reverse | exact Hshort]).
    + intros quakesSeen' quakeList Hrun.
      destruct (Hr _ _ Hrun) as (more & -> & Hrows). simpl.
      eapply Forall2_impl; [exact Hrows|].
      intros y quake Hrow. split; [exact Hrow|].
      now apply (legacy_quakeRow_length y).
Qed.

End LegacyProgram.

End Legacy.

(* ===================================================================== *)
(** * The first program: rows without severity colours *)
(* ===================================================================== *)

(** [src/unnamed/part_000]: its [main], [populateTableData],
    [getQuakeList] and [getUsgsGeoStats] are those of the earlier
    program, and its [addRow] has the same scan; the queued update
    writes every row in green. *)

Module First.

Section FirstProgram.

Variable time_Parse : string -> string -> option Time.
Variable strconv_ParseFloat : string -> float64.

(** The cell the queued update writes in column [column]. *)
Definition greenCell (column : nat) (text : string) : TableCell :=
  let color := ColorGreen in
  let color := if Nat.eqb column 0 then ColorDarkCyan else color in
  {| Text := text; Color_ := color; Align := AlignLeft;
     NotSelectable := Nat.eqb column 0 |}.

(** The loop over the columns of the queued update, [n] iterations from
    column [column] on. *)
Fixpoint setGreenCells (quake : list string) (rowToInsert : nat)
    (n column : nat) (table : Table) : result Table :=
  match n with
  | O => Ok table
  | S n' =>
      text ← index quake column;
      setGreenCells quake rowToInsert n' (S column)
        (SetCell table rowToInsert column (greenCell column text))
  end.

Definition addRow (table : Table) (quake : list string) : result Table :=
  let rowToInsert := 1%nat in
  q0 ← index quake 0;
  let quakeTime := Legacy.parseTime time_Parse q0 in
  let rowToInsert :=
    Legacy.scanRows time_Parse table quakeTime (GetRowCount table - 1) 1 rowToInsert in
  setGreenCells quake rowToInsert 4 0 (InsertRow table rowToInsert).

Definition quakeCells (quake : list string) : list TableCell :=
  imap greenCell (take 4 quake).

(** The update of the first program is the later one on a magnitude
    outside every range. *)
Lemma first_setCells_plain (quake : list string) (row : nat) :
  forall (n column : nat) (t : Table),
    setGreenCells quake row n column t = setCells quake NaN row n column t.
Proof.
  induction n as [|n IH]; intros column t; [reflexivity|].
  cbn [setGreenCells setCells].
  destruct (index quake column) as [text|]; [|reflexivity].
  cbn [mbind result_bind]. apply IH.
Qed.

(** X15. The first [addRow] puts its row where the earlier program's
    does and with the same texts, alignment and selectability; only the
    colours differ: green in every column but the first, whatever the
    magnitude. Both panic exactly on fewer than four strings. *)
Theorem first_addRow_uncoloured (t : Table) (quake : list string) :
  (addRow t quake = Panic <-> (length quake < 4)%nat) /\
  (Legacy.addRow time_Parse strconv_ParseFloat t quake = Panic
   <-> (length quake < 4)%nat) /\
  ((4 <= length quake)%nat ->
   exists k,
     addRow t quake
     = Ok (hd [] t :: take k (dataRows t) ++ quakeCells quake :: drop k (dataRows t)) /\
     Legacy.addRow time_Parse strconv_ParseFloat t quake
     = Ok (hd [] t :: take k (dataRows t)
             ++ Legacy.quakeCells strconv_ParseFloat quake :: drop k (dataRows t)) /\
     Forall2 (fun cell cell' =>
                Text cell = Text cell' /\ Align cell = Align cell' /\
                NotSelectable cell = NotSelectable cell' /\
                Color_ cell
                = if NotSelectable cell then ColorDarkCyan else ColorGreen)
             (quakeCells quake) (Legacy.quakeCells strconv_ParseFloat quake)).
Proof.
  assert (Hsame : addRow t quake
                  = Legacy.addRow time_Parse (fun _ => NaN) t quake \/
                  (length quake < 4)%nat /\ addRow t quake = Panic).
  { unfold addRow, Legacy.addRow.
    destruct quake as [|q0 [|q1 quake]].
    - left. reflexivity.
    - right. split; [simpl; lia|]. reflexivity.
    - left. cbn [index lookup list_lookup mbind result_bind]. cbv zeta.
      apply first_setCells_plain. }
  destruct (Legacy.legacy_addRow_panics_iff time_Parse strconv_ParseFloat t quake)
    as [Hpanic Hok].
  destruct (Legacy.legacy_addRow_panics_iff time_Parse (fun _ => NaN) t quake)
    as [Hpanic' Hok'].
  split; [|split; [exact Hpanic|]].
  - destruct Hsame as [-> | [Hlen ->]]; [exact Hpanic' | tauto].
  - intros Hlen. exists (Legacy.position time_Parse (dataRows t) quake).
    destruct Hsame as [-> | [Hlt _]]; [|lia].
    rewrite (Hok Hlen), (Hok' Hlen). unfold Legacy.inserted.
    split; [|split; [reflexivity|]].
    + destruct quake as [|q0 [|q1 [|q2 [|q3 extra]]]]; simpl in Hlen; try lia.
      reflexivity.
    + destruct quake as [|q0 [|q1 [|q2 [|q3 extra]]]]; simpl in Hlen; try lia.
      repeat constructor.
Qed.

End FirstProgram.

End First.

(* ===================================================================== *)
(** * The model of [time.Parse]: year 0 *)
(* ===================================================================== *)

Lemma getnum_bounds (s : string) (fixed : bool) (n : Z) (rest : string) :
  getnum s fixed = Some (n, rest) -> 0 <= n < 100.
Proof.
  unfold getnum, digit. destruct s as [|c1 s1]; [discriminate|].
  simpl.
  destruct ((48 <=? Z.of_N (N_of_ascii c1)) && (Z.of_N (N_of_ascii c1) <=? 57)) eqn:E1;
    simpl; [|discriminate].
  apply andb_prop in E1 as [L1 U1]. apply Z.leb_le in L1, U1.
  destruct s1 as [|c2 s2].
  - destruct fixed; intros [= <- <-]; lia.
  - destruct ((48 <=? Z.of_N (N_of_ascii c2)) && (Z.of_N (N_of_ascii c2) <=? 57)) eqn:E2.
    + apply andb_prop in E2 as [L2 U2]. apply Z.leb_le in L2, U2.
      intros [= <- <-]. lia.
    + destruct fixed; intros [= <- <-]; lia.
Qed.

Lemma month_bounds (name : string) (before inMonth : Z) :
  snd <$> List.find (fun m => String.eqb (fst m) name) shortMonthNames
  = Some (before, inMonth) ->
  0 <= before /\ before + inMonth <= 366.
Proof.
  destruct (List.find _ shortMonthNames) as [[n [b i]]|] eqn:Hfind; [|discriminate].
  intros [= -> ->]. apply find_some in Hfind as [Hin _].
  unfold shortMonthNames in Hin. simpl in Hin.
  repeat (destruct Hin as [[= <- <- <-]|Hin]; [lia|]). contradiction.
Qed.

Lemma lookupName_bounds (local : list (string * Z)) (name : string) (offset : Z) :
  Forall (fun z => 0 <= snd z) local ->
  lookupName local name = Some offset -> 0 <= offset.
Proof.
  unfold lookupName. intros Hall.
  destruct (List.find _ local) as [[n o]|] eqn:Hfind; [|discriminate].
  intros [= <-]. apply find_some in Hfind as [Hin _].
  rewrite Forall_forall in Hall. apply (Hall (n, o)). now apply list_elem_of_In.
Qed.

(** In a location whose zones are not west of UTC, every timestamp that
    parses lies in year 0, before the zero Time. *)
Lemma parseStamp_year_0 (local : list (string * Z)) (value : string) (ts : Z) :
  Forall (fun z => 0 <= snd z) local ->
  parseStamp local value = Some ts -> ts < zeroTime.
Proof.
  intros Hall. unfold parseStamp, zeroTime.
  destruct (snd <$> List.find _ shortMonthNames) as [[before inMonth]|] eqn:Hmonth;
    [|discriminate].
  apply month_bounds in Hmonth. cbn [mbind option_bind].
  intros H.
  repeat match type of H with
         | context [match ?x with _ => _ end] =>
             let E := fresh "E" in destruct x eqn:E; try discriminate H
         | (_ ≫= _) = _ => unfold mbind, option_bind in H
         end.
  all: repeat match goal with
         | E : (if ?c then None else Some _) = Some _ |- _ =>
             destruct c eqn:?; [discriminate E | clear E]
         end.
  all: repeat match goal with
         | E : (_ || _) = false |- _ => apply orb_false_elim in E as [? ?]
         | E : (_ <=? _) = false |- _ => apply Z.leb_gt in E
         | E : (_ <? _) = false |- _ => apply Z.ltb_ge in E
         | E : getnum _ _ = Some _ |- _ => apply getnum_bounds in E
         end.
  all: injection H as <-.
  - lia.
  - destruct (lookupName local _) as [offset|] eqn:Hzone; simpl.
    + apply (lookupName_bounds _ _ _ Hall) in Hzone. lia.
    + lia.
Qed.

(** There, no display row is after the zero Time. *)
Lemma quakeTime_year_0 (local : list (string * Z)) (quake : list string) :
  Forall (fun z => 0 <= snd z) local ->
  quakeTime (time_Parse_in local) quake <= zeroTime.
Proof.
  intros Hall. unfold quakeTime, parseTime, time_Parse_in.
  change (String.eqb TIMEFORMAT stampLayout) with true. cbv iota.
  destruct (parseStamp local _) as [ts|] eqn:Hparse; simpl.
  - apply (parseStamp_year_0 _ _ _ Hall) in Hparse. lia.
  - reflexivity.
Qed.

(* ===================================================================== *)
(** * The program on sample rows *)
(* ===================================================================== *)

Import Sample.

#[local] Abbreviation inUTC := (time_Parse_in utc).
#[local] Abbreviation inLA := (time_Parse_in losAngeles).

Ltac run := vm_compute; reflexivity.

(** Splits a conjunction of facts that each hold by computation. *)
Ltac runs :=
  lazymatch goal with
  | |- _ /\ _ => split; [run | runs]
  | |- _ => run
  end.

(** Replaces the left-hand side of the equation [H] by its value. *)
Ltac evaluate H :=
  match type of H with
  | ?lhs = _ =>
      let E := fresh "E" in
      eassert (E : lhs = _) by (vm_compute; reflexivity);
      rewrite E in H; clear E
  end.

(** One call of [addRow] on [t]: the scan [Hs], then its update [Hr] on
    the table [t']. *)
Ltac call t quake t' Hs Hr :=
  eassert (Hs : scanTable (time_Parse_in utc) ParseFloat32 t quake = Ok _) by run;
  match type of Hs with
  | _ = Ok ?u => eassert (Hr : runUpdate u t' = Ok _) by run
  end.

(** Proves that a string is not among the strings of a list. *)
Ltac not_among :=
  match goal with
  | |- ?x ∉ ?l =>
      let E := fresh "E" in
      let H := fresh "H" in
      eassert (E : l = _) by (vm_compute; reflexivity);
      rewrite E; clear E;
      eassert (E : x = _) by (vm_compute; reflexivity);
      rewrite E; clear E;
      intros H;
      repeat (apply elem_of_cons in H as [H|H]; [discriminate H|]);
      apply elem_of_nil in H; exact H
  end.

(** Magnitudes 3.9, 6.5 and 7.1, and the ends of the ranges. *)
Example severity_samples :
  severity (ParseFloat32 "3.90") = ColorGreen /\
  severity (ParseFloat32 "4.00") = ColorYellow /\
  severity (ParseFloat32 "5.99") = ColorYellow /\
  severity (ParseFloat32 "6.00") = ColorOrange /\
  severity (ParseFloat32 "6.50") = ColorOrange /\
  severity (ParseFloat32 "6.99") = ColorOrange /\
  severity (ParseFloat32 "7.00") = ColorRed /\
  severity (ParseFloat32 "7.10") = ColorRed.
Proof. runs. Qed.

(** Two quakes at 00:00:02 ("b") and 00:00:01 ("a"), reconciled oldest
    first: "b" is shown above "a". *)
Example newer_quake_on_top :
  exists t,
    addRows inUTC ParseFloat32 headerTable [quakeA; quakeB] = Ok t /\
    ids t = ["b"; "a"] /\
    times inUTC t = [-31535998; -31535999].
Proof. eexists. runs. Qed.

(** Quake "a" reported again with magnitude 5.90: one row for "a", with
    the new magnitude, in yellow. *)
Example quake_updated_in_place :
  exists t,
    addRows inUTC ParseFloat32 headerTable [quakeA; quakeA'] = Ok t /\
    ids t = ["a"] /\
    Text (GetCell t 1 2) = "5.90" /\
    Color_ (GetCell t 1 2) = ColorYellow.
Proof. eexists. runs. Qed.

(** A swap loop run, on lists of odd and of even length. *)
Example reverseFeatures_samples (a b c d : geoJsonFeature) :
  reverseFeatures 1 [a; b; c] = Ok [c; b; a] /\
  reverseFeatures 2 [a; b; c; d] = Ok [d; c; b; a].
Proof. split; reflexivity. Qed.

(** C3 on its failing input: the table shows "b" and "a"; "c", older
    than both, and "a" are reported, and the scan for "a" reads the
    table before the insertion of "c" has run. "c" goes to row 1, "a" is
    written to row 2, where "b" now is, and "a" has two rows. The same
    happens when "c" is reported twice. *)
Lemma one_row_per_identifier_witness :
  exists t,
    once inUTC ParseFloat32 prompt headerTable [quakeA; quakeB] = Ok t /\
    ids t = ["b"; "a"] /\
    InStep inUTC ParseFloat32 t /\
    (exists u u' t1 t2,
        scanTable inUTC ParseFloat32 t quakeC = Ok u /\
        scanTable inUTC ParseFloat32 t quakeA' = Ok u' /\
        qScan u = {| atRow := 1; foundTime := false; updateNotInsert := false |} /\
        qScan u' = {| atRow := 2; foundTime := true; updateNotInsert := true |} /\
        runUpdate u t = Ok t1 /\ ids t1 = ["c"; "b"; "a"] /\
        runUpdate u' t1 = Ok t2 /\ ids t2 = ["c"; "a"; "a"] /\
        Running inUTC ParseFloat32 t2 [] /\
        ~ NoDup (ids t2)) /\
    (exists u u' t1 t2,
        scanTable inUTC ParseFloat32 t quakeC = Ok u /\
        scanTable inUTC ParseFloat32 t quakeC = Ok u' /\
        runUpdate u t = Ok t1 /\
        runUpdate u' t1 = Ok t2 /\ ids t2 = ["c"; "c"; "b"; "a"] /\
        Running inUTC ParseFloat32 t2 [] /\
        ~ NoDup (ids t2)).
Proof.
  eexists. split; [run|]. split; [run|].
  call headerTable quakeA headerTable HsA HrA.
  match type of HrA with
  | _ = Ok ?tA => call tA quakeB tA HsB HrB
  end.
  pose proof (instep_addRow inUTC ParseFloat32 _ _ _ _
                (instep_addRow inUTC ParseFloat32 _ _ _ _
                   (instep_header _ _) HsA HrA) HsB HrB) as Hstep.
  split; [exact Hstep|].
  match type of Hstep with
  | InStep _ _ ?t =>
      destruct (one_row_per_identifier inUTC ParseFloat32 t quakeC Hstep)
        as (_ & _ & Hstale); [simpl; lia|];
      assert (Hfresh : quakeID quakeC ∉ ids t) by not_among;
      assert (Hshown : quakeID quakeA' ∈ ids t)
        by (apply elem_of_cons; right; apply elem_of_cons; left; reflexivity)
  end.
  split.
  - destruct (Hstale Hfresh quakeA')
      as (u & u' & t1 & t2 & Hs & Hs' & Hr & Hr' & Hrunning & _ & Hdup);
      [simpl; lia|].
    exists u, u', t1, t2. split; [exact Hs|]. split; [exact Hs'|].
    evaluate Hs. injection Hs as <-. evaluate Hs'. injection Hs' as <-.
    split; [reflexivity|]. split; [reflexivity|].
    split; [exact Hr|]. evaluate Hr. injection Hr as <-. split; [run|].
    split; [exact Hr'|]. evaluate Hr'. injection Hr' as <-. split; [run|].
    split; [exact Hrunning|]. apply (Hdup Hshown). simpl. lia.
  - destruct (Hstale Hfresh quakeC)
      as (u & u' & t1 & t2 & Hs & Hs' & Hr & Hr' & Hrunning & Hdup & _);
      [simpl; lia|].
    exists u, u', t1, t2. split; [exact Hs|]. split; [exact Hs'|].
    split; [exact Hr|]. split; [exact Hr'|].
    evaluate Hs. injection Hs as <-. evaluate Hs'. injection Hs' as <-.
    evaluate Hr. injection Hr as <-. evaluate Hr'. injection Hr' as <-.
    split; [run|]. split; [exact Hrunning|]. now apply Hdup.
Defined.

(** C1 as stated fails: "a" reported again with a later origin time is
    overwritten in place, below the older "b". *)
Lemma newest_first_counterexample :
  exists t,
    addRows inUTC ParseFloat32 headerTable [quakeA; quakeB; quakeA'] = Ok t /\
    ids t = ["b"; "a"] /\
    times inUTC t = [-31535998; -31535997] /\
    ~ descending (times inUTC t).
Proof.
  eexists. split; [run|]. split; [run|]. split; [run|].
  match goal with
  | |- ~ descending ?l =>
      let E := fresh "E" in
      eassert (E : l = _) by run; rewrite E; clear E
  end.
  intros H. apply Sorted_inv in H as [_ H]. apply HdRel_inv in H.
  apply H. reflexivity.
Qed.

(** C1, amended, on the rows "a" then "b", each update run before the
    next scan. *)
Lemma newest_first_witness :
  exists t,
    once inUTC ParseFloat32 prompt headerTable [quakeA; quakeB] = Ok t /\
    ids t = ["b"; "a"] /\
    InStepInOrder inUTC ParseFloat32 t /\
    descending (times inUTC t).
Proof.
  eexists. split; [run|]. split; [run|].
  call headerTable quakeA headerTable HsA HrA.
  match type of HrA with
  | _ = Ok ?tA => call tA quakeB tA HsB HrB
  end.
  assert (HA : keepsOrder inUTC headerTable quakeA) by (right; constructor).
  pose proof (inorder_addRow inUTC ParseFloat32 _ _ _ _
                (inorder_header _ _) HA HsA HrA) as H1.
  match type of H1 with
  | InStepInOrder _ _ ?tA =>
      assert (HB : keepsOrder inUTC tA quakeB) by (left; apply Exists_cons_hd; run)
  end.
  pose proof (inorder_addRow inUTC ParseFloat32 _ _ _ _ H1 HB HsB HrB) as H2.
  split; [exact H2|]. exact (newest_first inUTC ParseFloat32 _ H2).
Defined.

(** C2 on its failing input: "c", older than every row shown, goes to
    row 1, above the newer "b" and "a", not to the bottom (row 3). *)
Lemma insertion_position_witness :
  exists t,
    addRows inUTC ParseFloat32 headerTable [quakeA; quakeB] = Ok t /\
    GetRowCount t = 3%nat /\
    exists st t',
      scanRows inUTC t quakeC (quakeTime inUTC quakeC) (GetRowCount t - 1) 1 scanStart
      = Ok st /\
      atRow st = 1%nat /\ foundTime st = false /\
      addRow inUTC ParseFloat32 t quakeC = Ok t' /\
      ids t' = ["c"; "b"; "a"] /\
      times inUTC t' = [-31536000; -31535998; -31535999].
Proof.
  eexists. split; [run|]. split; [run|].
  match goal with
  | |- context [scanRows _ ?t _ _ _ _ _] =>
      destruct (insertion_position inUTC ParseFloat32 t quakeC)
        as (st & Hrun & _ & Hadd & _)
  end.
  - unfold longEnough. simpl. lia.
  - not_among.
  - exists st. eexists. split; [exact Hrun|].
    evaluate Hrun. injection Hrun as <-.
    split; [reflexivity|]. split; [reflexivity|].
    split; [exact Hadd|]. runs.
Defined.

(** C6 on its failing input: the table shows "b" and "a", and the feed
    now has "c", older than both. The feed is reconciled while the event
    loop is at rest: every scan reads the table as it was, "c" goes to
    row 1 and moves the rows from under the updates of "a" and "b", and
    the table ends with "b", "a", "a". Reconciled again, once the event
    loop has caught up, "c" is inserted again; with the event loop at
    rest through both passes, every row with a fresh identifier is
    inserted twice. In step, the second pass changes nothing. *)
Lemma reconcile_twice_witness :
  exists t,
    once inUTC ParseFloat32 prompt headerTable [quakeA; quakeB] = Ok t /\
    exists quakeList' usgsQuakeList,
      reconcile Feed.Format Feed.Sprintf_02f Feed.lateSnapshot ∅
      = Ok (quakeList', usgsQuakeList) /\
      quakeID <$> usgsQuakeList = ["c"; "a"; "b"] /\
      (exists t',
          once inUTC ParseFloat32 prompt t usgsQuakeList = Ok t' /\
          twice inUTC ParseFloat32 prompt prompt t usgsQuakeList = Ok t' /\
          ids t' = ["c"; "b"; "a"]) /\
      (exists t1 t2,
          once inUTC ParseFloat32 deferred t usgsQuakeList = Ok t1 /\
          twice inUTC ParseFloat32 deferred deferred t usgsQuakeList = Ok t2 /\
          ids t1 = ["b"; "a"; "a"] /\
          ids t2 = ["b"; "a"; "a"; "a"]) /\
      exists t3,
        twice inUTC ParseFloat32 deferred (fun _ => 3%nat) t usgsQuakeList = Ok t3 /\
        ids t3 = ["c"; "b"; "a"; "a"].
Proof.
  eexists. split; [run|].
  match goal with
  | |- context [once _ _ prompt ?t _] =>
      destruct (reconcile_twice inUTC ParseFloat32 Feed.Format Feed.Sprintf_02f
                  Feed.lateSnapshot t ∅)
        as (quakeList' & usgsQuakeList & Hrec & _ & Hstep & Hstale)
  end.
  exists quakeList', usgsQuakeList. split; [exact Hrec|].
  destruct (Hstep prompt prompt) as (t' & Honce & Htwice);
    [intros i; unfold prompt; lia | intros i; unfold prompt; lia |].
  destruct Hstale as (t1 & t2 & Honce' & Htwice' & _).
  { simpl. lia. }
  { exists Feed.featureC. split; [right; right; left|]. not_among. }
  evaluate Hrec. injection Hrec as <- <-.
  split; [run|]. split; [|split].
  - exists t'. split; [exact Honce|]. split; [exact Htwice|].
    evaluate Honce. injection Honce as <-. run.
  - exists t1, t2. split; [exact Honce'|]. split; [exact Htwice'|].
    evaluate Honce'. injection Honce' as <-.
    evaluate Htwice'. injection Htwice' as <-. split; run.
  - eexists. split; run.
Defined.

(** C7, on the row of magnitude 6.50. *)
Lemma severity_colours_witness :
  exists t' row r,
    addRow inUTC ParseFloat32 headerTable quakeB = Ok t' /\
    t' !! row = Some r /\
    Color_ <$> r
    = [ColorDarkCyan; ColorOrange; ColorOrange; ColorOrange; ColorOrange].
Proof.
  destruct (severity_colours inUTC ParseFloat32 headerTable quakeB)
    as [(t' & row & r & Hadd & _ & Hrow & Htake & _) _].
  - unfold longEnough. simpl. lia.
  - exists t', row, r. split; [exact Hadd|]. split; [exact Hrow|].
    evaluate Hadd. injection Hadd as <-.
    destruct row as [|[|[|row]]]; cbn in Hrow; try discriminate.
    + injection Hrow as <-. evaluate Htake. symmetry in Htake. evaluate Htake.
      discriminate.
    + injection Hrow as <-. reflexivity.
Defined.



(** The same scan on a machine in UTC passes over the unparsable row. *)
Example unparsable_row_in_UTC :
  scanRows inUTC staleTablePST quakeZ (quakeTime inUTC quakeZ)
    (GetRowCount staleTablePST - 1) 1 scanStart
  = Ok {| atRow := 1; foundTime := false; updateNotInsert := false |}.
Proof. run. Qed.

(* ===================================================================== *)
(** * The further properties on a sample feed *)
(* ===================================================================== *)

(** X2, on the table that shows "b" and "a" and the row of "a" reported
    again: the row of "b" stays. *)
Lemma other_rows_untouched_witness :
  exists t,
    addRows inUTC ParseFloat32 headerTable [quakeA; quakeB] = Ok t /\
    exists t',
      addRow inUTC ParseFloat32 t quakeA' = Ok t' /\
      List.find (hasID "b") (dataRows t') = List.find (hasID "b") (dataRows t).
Proof.
  eexists. split; [run|].
  match goal with
  | |- exists t', addRow _ _ ?t _ = _ /\ _ =>
      destruct (other_rows_untouched inUTC ParseFloat32 t quakeA')
        as (t' & Hadd & _ & Hfind)
  end.
  - unfold longEnough. simpl. lia.
  - exists t'. split; [exact Hadd|]. apply Hfind. discriminate.
Defined.

(** X3, on a loop that reports "a" twice, in step: two data rows. *)
Lemma displayed_identifiers_witness :
  exists t',
    once inUTC ParseFloat32 prompt headerTable [quakeA; quakeB; quakeA'] = Ok t' /\
    NoDup (ids t') /\ length (dataRows t') = 2%nat.
Proof.
  destruct (displayed_identifiers inUTC ParseFloat32 prompt headerTable
              [quakeA; quakeB; quakeA']) as (t' & Hrun & _ & Hcount).
  - intros i. unfold prompt. lia.
  - repeat constructor; unfold longEnough; simpl; lia.
  - exists t'. split; [exact Hrun|].
    destruct Hcount as [Hnd Hlen]; [constructor|].
    split; [exact Hnd|]. rewrite Hlen. run.
Defined.

(** X4, on a loop that reports "a", "a" again and then "b", in step:
    the row of "a" shows the second report. *)
Lemma last_upsert_shown_witness :
  exists t' r,
    once inUTC ParseFloat32 prompt headerTable ([quakeA] ++ quakeA' :: [quakeB])
    = Ok t' /\
    List.find (hasID "a") (dataRows t') = Some r /\
    Text <$> r = quakeA'.
Proof.
  destruct (last_upsert_shown inUTC ParseFloat32 prompt headerTable
              [quakeA] [quakeB] quakeA')
    as (t' & r & Hrun & Hfind & _).
  - intros i. unfold prompt. lia.
  - repeat constructor; unfold longEnough; simpl; lia.
  - not_among.
  - exists t', r. split; [exact Hrun|]. split; [exact Hfind|].
    evaluate Hrun. injection Hrun as <-.
    evaluate Hfind. injection Hfind as <-. reflexivity.
Defined.

(** X5, on a table with two rows for "a", the second scan having read
    the table before the first update was run, and the update of "b"
    still queued. *)
Lemma table_shape_witness :
  exists t u,
    Running inUTC ParseFloat32 t [u] /\
    ids t = ["a"; "a"] /\
    qQuake u = quakeB /\
    take 1 t = headerTable /\
    Forall (asWritten ParseFloat32) (dataRows t).
Proof.
  call headerTable quakeA headerTable HsA HrA.
  match type of HrA with
  | _ = Ok ?tA => call headerTable quakeA' tA HsA' HrA'
  end.
  match type of HrA' with
  | _ = Ok ?t => call t quakeB t HsB HrB
  end.
  clear HrB.
  pose proof (running_scan inUTC ParseFloat32 _ _ _ _
                (running_update inUTC ParseFloat32 _ _ _ _
                   (running_update inUTC ParseFloat32 _ _ _ _
                      (running_scan inUTC ParseFloat32 _ _ _ _
                         (running_scan inUTC ParseFloat32 _ _ _ _
                            (running_header _ _) HsA) HsA') HrA) HrA') HsB)
    as Hrunning.
  eexists _, _. split; [exact Hrunning|].
  destruct (table_shape inUTC ParseFloat32 _ _ Hrunning) as (Hheader & Hrows & _).
  split; [run|]. split; [reflexivity|]. split; [exact Hheader | exact Hrows].
Defined.

(** X8, on the sample feed fetched twice, in step: two rows, two
    entries. *)
Lemma table_matches_store_witness :
  exists t queue quakeList t',
    cyclesQueued inUTC ParseFloat32 Feed.Format Feed.Sprintf_02f Feed.Unmarshal
      [(Feed.fetch, prompt); (Feed.fetch, prompt)] headerTable [] ∅
    = Ok (t, queue, quakeList) /\
    drain t queue = Ok t' /\
    ids t' = ["b"; "a"] /\ size quakeList = 2%nat.
Proof.
  eassert (Hrun : cyclesQueued inUTC ParseFloat32 Feed.Format Feed.Sprintf_02f
                    Feed.Unmarshal [(Feed.fetch, prompt); (Feed.fetch, prompt)]
                    headerTable [] ∅ = Ok (_, _, _)) by run.
  match type of Hrun with
  | _ = Ok (?t, ?queue, _) => eassert (Hdrain : drain t queue = Ok _) by run
  end.
  eexists _, _, _, _. split; [exact Hrun|]. split; [exact Hdrain|].
  assert (Hall : Forall (fun x : Exchange * (nat -> nat) => inStep x.2)
                    [(Feed.fetch, prompt); (Feed.fetch, prompt)])
    by (repeat constructor; intros i; unfold prompt; lia).
  destruct (table_matches_store inUTC ParseFloat32 Feed.Format Feed.Sprintf_02f
              Feed.Unmarshal _ _ _ _ _ Hall Hrun Hdrain)
    as (_ & _ & Hsize).
  split; [run|]. rewrite <- Hsize. run.
Defined.

(** X9, on the sample feed fetched twice, in step: the row of "a" is
    the row of the feature stored under "a". *)
Lemma table_renders_store_witness :
  exists t queue quakeList t',
    cyclesQueued inUTC ParseFloat32 Feed.Format Feed.Sprintf_02f Feed.Unmarshal
      [(Feed.fetch, prompt); (Feed.fetch, prompt)] headerTable [] ∅
    = Ok (t, queue, quakeList) /\
    drain t queue = Ok t' /\
    quakeList !! "a" = Some Feed.featureA /\
    List.find (hasID "a") (dataRows t')
    = Some (quakeCells ParseFloat32
              (quakeRow Feed.Format Feed.Sprintf_02f Feed.featureA)).
Proof.
  eassert (Hrun : cyclesQueued inUTC ParseFloat32 Feed.Format Feed.Sprintf_02f
                    Feed.Unmarshal [(Feed.fetch, prompt); (Feed.fetch, prompt)]
                    headerTable [] ∅ = Ok (_, _, _)) by run.
  match type of Hrun with
  | _ = Ok (?t, ?queue, _) => eassert (Hdrain : drain t queue = Ok _) by run
  end.
  eexists _, _, _, _. split; [exact Hrun|]. split; [exact Hdrain|].
  assert (Hall : Forall (fun x : Exchange * (nat -> nat) => inStep x.2)
                    [(Feed.fetch, prompt); (Feed.fetch, prompt)])
    by (repeat constructor; intros i; unfold prompt; lia).
  destruct (table_renders_store inUTC ParseFloat32 Feed.Format Feed.Sprintf_02f
              Feed.Unmarshal _ _ _ _ _ Hall Hrun Hdrain)
    as [Hshown _].
  match goal with
  | |- ?stored /\ _ => assert (Hstored : stored) by run
  end.
  split; [exact Hstored|]. exact (proj2 (Hshown _ _ Hstored)).
Defined.

(** X10, on the table that shows "b" and "a" and a quake newer than
    both: it keeps the order, and the rows are newest first after it. *)
Lemma order_kept_exactly_witness :
  exists t,
    addRows inUTC ParseFloat32 headerTable [quakeA; quakeB] = Ok t /\
    exists t',
      addRow inUTC ParseFloat32 t quakeZ = Ok t' /\
      ids t' = ["z"; "b"; "a"] /\
      descending (times inUTC t').
Proof.
  eexists. split; [run|]. eexists. split; [run|]. split; [run|].
  match goal with
  | |- descending (times _ ?t') =>
      apply (proj2 (order_kept_exactly inUTC ParseFloat32
                      (headerTable ++ [quakeCells ParseFloat32 quakeB;
                                       quakeCells ParseFloat32 quakeA])
                      t' quakeZ ltac:(run)
                      ltac:(repeat constructor; vm_compute; discriminate)))
  end.
  left. apply Exists_cons_hd. run.
Defined.

(** X13, on the sample feed, whose two quakes have different times:
    the second cycle changes nothing. *)
Lemma legacy_dedup_witness :
  exists t' quakesSeen',
    Legacy.populateTableData inUTC ParseFloat32 Feed.Format Feed.Sprintf_02f
      Feed.Sprintf_f_f_f Feed.Unmarshal Feed.fetch
      (Legacy.headerCells 4 0 NewTable) ∅ = Ok (t', quakesSeen') /\
    length (dataRows t') = 2%nat /\
    Legacy.populateTableData inUTC ParseFloat32 Feed.Format Feed.Sprintf_02f
      Feed.Sprintf_f_f_f Feed.Unmarshal Feed.fetch t' quakesSeen'
    = Ok (t', quakesSeen').
Proof.
  destruct (Legacy.populateTableData inUTC ParseFloat32 Feed.Format Feed.Sprintf_02f
              Feed.Sprintf_f_f_f Feed.Unmarshal Feed.fetch
              (Legacy.headerCells 4 0 NewTable) ∅) as [[t' quakesSeen']|] eqn:Hrun.
  - exists t', quakesSeen'. split; [reflexivity|]. split.
    + evaluate Hrun. injection Hrun as <- <-. run.
    + apply (proj2 (Legacy.legacy_dedup inUTC ParseFloat32 Feed.Format Feed.Sprintf_02f
                      Feed.Sprintf_f_f_f Feed.Unmarshal "feed" false Feed.snapshot
                      _ _ _ _ eq_refl Hrun)).
      intros y z Hy Hz Htime.
      repeat (apply elem_of_cons in Hy as [->|Hy]);
        repeat (apply elem_of_cons in Hz as [->|Hz]);
        try (now apply elem_of_nil in Hy); try (now apply elem_of_nil in Hz);
        try reflexivity; discriminate Htime.
  - evaluate Hrun. discriminate Hrun.
Defined.

(** X14, on a snapshot whose newest quake has two coordinates only:
    the earlier [getQuakeList] panics. *)
Lemma legacy_rows_panic_witness :
  Legacy.reconcile Feed.Format Feed.Sprintf_02f Feed.Sprintf_f_f_f
    Feed.flatSnapshot ∅ = Panic /\
  exists quakeList' usgsQuakeList,
    reconcile Feed.Format Feed.Sprintf_02f Feed.flatSnapshot ∅
    = Ok (quakeList', usgsQuakeList).
Proof.
  split; [|eexists _, _; run].
  destruct (Legacy.legacy_rows_panic Feed.Format Feed.Sprintf_02f
              Feed.Sprintf_f_f_f Feed.flatSnapshot ∅) as [Hpanic _].
  - apply (bool_decide_unpack _). vm_compute. exact I.
  - intros y _. apply lookup_empty.
  - apply Hpanic. apply Exists_cons_hd. split; [discriminate | simpl; lia].
Defined.
